(** * tools/check_api_ui_usage.py: route extraction and UI usage scan

    A shallow embedding of the script that cross-references the routes
    registered on the [api] group of cmd/sdsm/main.go against the text of
    the UI artifacts, and the properties of its three parts: extraction
    ([parse_endpoints]), scan ([scan_usage]) and report ([main]).

    - Python [str] values are sequences of Unicode code points; they are
      modelled as lists of code points ([N]).
    - The part of the [re] module the script relies on ([compile],
      [search], [finditer], [sub], [escape]) is modelled for the pattern
      fragment the script uses: literals, escaped literals, character
      sets, the greedy [*] and [+], the [^] anchor and capture groups that
      are not repeated.  [escape] is the one of Python 3.7 and later, the
      versions that accept the script's [__future__] import.
    - The file system is a record of answers ([world]) to the queries the
      script makes: [exists], [rglob], [is_dir], [read_text].  A run yields
      the queries and prints made, in order, and a value or the exception
      that ends it. *)

From Stdlib Require Import List NArith Arith Bool Lia String Ascii.
From Stdlib Require Import DecimalString Sorted.
Import ListNotations.

Set Implicit Arguments.

(** ** Text *)

Definition char := N.
Definition text := list char.

Definition str (s : string) : text :=
  map N_of_ascii (list_ascii_of_string s).

Definition nl : char := 10%N.
Definition dquote : char := 34%N.
Definition backslash : char := 92%N.
Definition colon : char := 58%N.
Definition slash : char := 47%N.
Definition star_c : char := 42%N.
Definition plus_c : char := 43%N.
Definition lbrack : char := 91%N.
Definition rbrack : char := 93%N.
Definition caret : char := 94%N.
Definition lparen : char := 40%N.
Definition rparen : char := 41%N.
Definition dash : char := 45%N.

Definition in_range (lo hi c : char) : bool :=
  (lo <=? c)%N && (c <=? hi)%N.
Arguments in_range (lo hi c)%_N_scope.

Definition is_upper (c : char) : bool := in_range 65 90 c.
Definition is_lower (c : char) : bool := in_range 97 122 c.
Definition is_digit (c : char) : bool := in_range 48 57 c.
Definition is_alnum (c : char) : bool := is_upper c || is_lower c || is_digit c.

Definition mem (c : char) (l : list char) : bool := existsb (N.eqb c) l.

(** What [\s] matches in a [str] pattern: the code points for which
    [str.isspace] holds. *)
Definition is_space (c : char) : bool :=
  in_range 9 13 c || in_range 28 32 c
  || mem c [133; 160; 5760; 8232; 8233; 8239; 8287; 12288]%N
  || in_range 8192 8202 c.

Fixpoint text_eqb (a b : text) : bool :=
  match a, b with
  | [], [] => true
  | x :: a', y :: b' => N.eqb x y && text_eqb a' b'
  | _, _ => false
  end.

Fixpoint starts_with (p t : text) : bool :=
  match p, t with
  | [], _ => true
  | x :: p', y :: t' => N.eqb x y && starts_with p' t'
  | _ :: _, [] => false
  end.

(** [t[a:b]] *)
Definition slice (a b : nat) (t : text) : text := firstn (b - a) (skipn a t).

(** ** Regular expressions *)

Module Re.

Inductive citem :=
| IChar (c : char)
| IRange (lo hi : char)
| ISpace.

Inductive atom :=
| ALit (c : char)
| ASet (negated : bool) (items : list citem).

Inductive quant := One | Star | Plus.

Inductive node :=
| NAtom (a : atom) (q : quant)
| NBol
| NOpen
| NClose.

Definition regex := list node.

Definition lit (c : char) : node := NAtom (ALit c) One.

Definition citem_match (i : citem) (c : char) : bool :=
  match i with
  | IChar d => N.eqb c d
  | IRange lo hi => in_range lo hi c
  | ISpace => is_space c
  end.

Definition atom_match (a : atom) (c : char) : bool :=
  match a with
  | ALit d => N.eqb c d
  | ASet negated items =>
      xorb negated (existsb (fun i => citem_match i c) items)
  end.

(** A successful match: the end position and the positions of the group
    boundaries, in the order the pattern meets them. *)
Definition mresult := (nat * list nat)%type.

(** Greedy repetition: as many characters as possible first, one fewer on
    failure of the rest [k]. *)
Fixpoint rep (p : char -> bool) (k : nat -> text -> option mresult)
         (pos : nat) (s : text) : option mresult :=
  match s with
  | c :: s' =>
      if p c then
        match rep p k (S pos) s' with
        | Some r => Some r
        | None => k pos s
        end
      else k pos s
  | [] => k pos s
  end.

(** [match_here r marks pos s]: match [r] against [s], the suffix of the
    subject that starts at [pos]. *)
Fixpoint match_here (r : regex) (marks : list nat) : nat -> text -> option mresult :=
  match r with
  | [] => fun pos _ => Some (pos, rev marks)
  | NOpen :: r' => fun pos s => match_here r' (pos :: marks) pos s
  | NClose :: r' => fun pos s => match_here r' (pos :: marks) pos s
  | NBol :: r' => fun pos s =>
      match pos with
      | O => match_here r' marks pos s
      | S _ => None
      end
  | NAtom a One :: r' => fun pos s =>
      match s with
      | c :: s' => if atom_match a c then match_here r' marks (S pos) s' else None
      | [] => None
      end
  | NAtom a Star :: r' => rep (atom_match a) (match_here r' marks)
  | NAtom a Plus :: r' => fun pos s =>
      match s with
      | c :: s' =>
          if atom_match a c
          then rep (atom_match a) (match_here r' marks) (S pos) s'
          else None
      | [] => None
      end
  end.

(** [Pattern.search]: the leftmost position where the pattern matches. *)
Fixpoint search_from (r : regex) (pos : nat) (s : text) : option (nat * mresult) :=
  match match_here r [] pos s with
  | Some m => Some (pos, m)
  | None =>
      match s with
      | [] => None
      | _ :: s' => search_from r (S pos) s'
      end
  end.

Definition search (r : regex) (s : text) : bool :=
  match search_from r 0 s with
  | Some _ => true
  | None => false
  end.

(** [Pattern.finditer] for a pattern that matches no empty string: the
    non-overlapping matches, left to right.  [skip] counts the characters
    of the previous match still to step over. *)
Fixpoint finditer_from (r : regex) (skip pos : nat) (s : text)
  : list (nat * mresult) :=
  match s with
  | [] => []
  | _ :: s' =>
      match skip with
      | S k => finditer_from r k (S pos) s'
      | O =>
          match match_here r [] pos s with
          | Some (e, ms) => (pos, (e, ms)) :: finditer_from r (e - pos - 1) (S pos) s'
          | None => finditer_from r 0 (S pos) s'
          end
      end
  end.

Definition finditer (r : regex) (s : text) : list (nat * mresult) :=
  finditer_from r 0 0 s.

(** [Pattern.sub(repl, s)] for a pattern that matches no empty string and
    a replacement template without backslash: every non-overlapping match,
    left to right, is replaced by [repl]. *)
Fixpoint sub_from (r : regex) (repl : text) (skip pos : nat) (s : text) : text :=
  match s with
  | [] => []
  | c :: s' =>
      match skip with
      | S k => sub_from r repl k (S pos) s'
      | O =>
          match match_here r [] pos s with
          | Some (e, _) => repl ++ sub_from r repl (e - pos - 1) (S pos) s'
          | None => c :: sub_from r repl 0 (S pos) s'
          end
      end
  end.

Definition sub (r : regex) (repl s : text) : text := sub_from r repl 0 0 s.

(** *** [re.escape] (Python 3.7 and later): a backslash before each of
    the characters that can have a special meaning in a pattern. *)
Definition special_chars : list char :=
  [40; 41; 91; 93; 123; 125; 63; 42; 43; 45; 124; 94; 36; 92; 46; 38; 126; 35;
   32; 9; 10; 13; 11; 12]%N.

Definition is_special (c : char) : bool := mem c special_chars.

Fixpoint escape (s : text) : text :=
  match s with
  | [] => []
  | c :: s' => if is_special c then backslash :: c :: escape s' else c :: escape s'
  end.

(** *** [re.compile] on the fragment *)

(** The body of a character set, after the optional [^], up to the
    closing bracket. *)
Fixpoint parse_set (fuel : nat) (s : text) (acc : list citem)
  : option (list citem * text) :=
  match fuel with
  | O => None
  | S fuel' =>
      match s with
      | [] => None
      | c :: s1 =>
          if N.eqb c rbrack then
            match acc with
            | [] => None
            | _ => Some (rev acc, s1)
            end
          else if N.eqb c backslash then
            match s1 with
            | [] => None
            | d :: s2 =>
                if N.eqb d 115 then parse_set fuel' s2 (ISpace :: acc)
                else if is_alnum d then None
                else parse_set fuel' s2 (IChar d :: acc)
            end
          else if N.eqb c lbrack then None
          else
            match s1 with
            | d :: hi :: s3 =>
                if N.eqb d dash && negb (N.eqb hi rbrack) then
                  if N.eqb hi backslash || N.eqb hi lbrack then None
                  else if (c <=? hi)%N then parse_set fuel' s3 (IRange c hi :: acc)
                  else None
                else parse_set fuel' s1 (IChar c :: acc)
            | _ => parse_set fuel' s1 (IChar c :: acc)
            end
      end
  end.

(** The repetition that follows an atom.  Lazy and possessive marks and
    counted repetitions are outside the fragment. *)
Definition parse_quant (s : text) : option (quant * text) :=
  let after (q : quant) (s' : text) :=
    match s' with
    | d :: _ =>
        if mem d [42; 43; 63; 123]%N then None else Some (q, s')
    | [] => Some (q, s')
    end in
  match s with
  | c :: s' =>
      if N.eqb c star_c then after Star s'
      else if N.eqb c plus_c then after Plus s'
      else if mem c [63; 123]%N then None
      else Some (One, s)
  | [] => Some (One, s)
  end.

Fixpoint parse (fuel : nat) (depth : nat) (s : text) : option regex :=
  match fuel with
  | O => None
  | S fuel' =>
      let with_quant (a : atom) (rest : text) :=
        match parse_quant rest with
        | Some (q, rest') =>
            match parse fuel' depth rest' with
            | Some r => Some (NAtom a q :: r)
            | None => None
            end
        | None => None
        end in
      match s with
      | [] => match depth with O => Some [] | S _ => None end
      | c :: s1 =>
          if N.eqb c backslash then
            match s1 with
            | [] => None
            | d :: s2 =>
                if N.eqb d 115 then with_quant (ASet false [ISpace]) s2
                else if is_alnum d then None
                else with_quant (ALit d) s2
            end
          else if N.eqb c lbrack then
            let '(negated, body) :=
              match s1 with
              | d :: s2 => if N.eqb d caret then (true, s2) else (false, s1)
              | [] => (false, s1)
              end in
            match parse_set fuel' body [] with
            | Some (items, rest) => with_quant (ASet negated items) rest
            | None => None
            end
          else if N.eqb c caret then
            match s1 with
            | d :: _ => if mem d [42; 43; 63; 123]%N then None else
                          option_map (cons NBol) (parse fuel' depth s1)
            | [] => option_map (cons NBol) (parse fuel' depth s1)
            end
          else if N.eqb c lparen then
            match s1 with
            | d :: _ => if N.eqb d 63 then None else
                          option_map (cons NOpen) (parse fuel' (S depth) s1)
            | [] => None
            end
          else if N.eqb c rparen then
            match depth with
            | O => None
            | S depth' =>
                match s1 with
                | d :: _ => if mem d [42; 43; 63; 123]%N then None else
                              option_map (cons NClose) (parse fuel' depth' s1)
                | [] => option_map (cons NClose) (parse fuel' depth' s1)
                end
            end
          else if mem c [42; 43; 63; 123; 124; 36; 46]%N then None
          else with_quant (ALit c) s1
      end
  end.

Definition compile (pattern : text) : option regex :=
  parse (S (List.length pattern)) 0 pattern.

(** A pattern that asks for the start of the subject after a character
    has been consumed. *)
Definition dead (r : regex) : Prop :=
  forall marks pos s, match_here r marks (S pos) s = None.

End Re.

(** [str.replace(old, new)] *)
Fixpoint replace_from (old new : text) (skip : nat) (s : text) : text :=
  match s with
  | [] => []
  | c :: s' =>
      match skip with
      | S k => replace_from old new k s'
      | O =>
          if starts_with old s
          then new ++ replace_from old new (List.length old - 1) s'
          else c :: replace_from old new 0 s'
      end
  end.

Definition replace (old new s : text) : text := replace_from old new 0 s.

(** ** The script *)

(** A [Path] below the repository root, as its components; REPO_ROOT
    itself is the empty list, so [relative_to(REPO_ROOT)] is the
    identity on these. *)
Definition Path := list text.

Definition relative_to_REPO_ROOT (p : Path) : Path := p.

Definition MAIN_FILE : Path := [str "cmd"; str "sdsm"; str "main.go"].
Definition UI_DIRS : list Path := [[str "ui"]; [str "webassets"]].
Definition TEXT_EXTENSIONS : list text :=
  [str ".html"; str ".htm"; str ".js"; str ".ts"; str ".tsx"; str ".css";
   str ".scss"; str ".go"; str ".json"; str ".md"; str ".txt"; str ".tmpl"].

(** The pattern texts of ROUTE_RE and PARAM_RE, and what they compile to. *)
Definition ROUTE_RE_pattern : text :=
  str "api\.([A-Z]+)\s*\(\s*" ++ [backslash; dquote] ++
  str "([^" ++ [backslash; dquote] ++ str "]+)" ++ [backslash; dquote].

Definition PARAM_RE_pattern : text := str "\\:([a-zA-Z0-9_]+)".

Definition ROUTE_RE : Re.regex :=
  [Re.NAtom (Re.ALit 97) Re.One; Re.NAtom (Re.ALit 112) Re.One;
   Re.NAtom (Re.ALit 105) Re.One; Re.NAtom (Re.ALit 46) Re.One;
   Re.NOpen; Re.NAtom (Re.ASet false [Re.IRange 65 90]) Re.Plus; Re.NClose;
   Re.NAtom (Re.ASet false [Re.ISpace]) Re.Star;
   Re.NAtom (Re.ALit lparen) Re.One;
   Re.NAtom (Re.ASet false [Re.ISpace]) Re.Star;
   Re.NAtom (Re.ALit dquote) Re.One;
   Re.NOpen; Re.NAtom (Re.ASet true [Re.IChar dquote]) Re.Plus; Re.NClose;
   Re.NAtom (Re.ALit dquote) Re.One]%N.

Definition PARAM_RE : Re.regex :=
  [Re.NAtom (Re.ALit backslash) Re.One; Re.NAtom (Re.ALit colon) Re.One;
   Re.NOpen;
   Re.NAtom (Re.ASet false [Re.IRange 97 122; Re.IRange 65 90;
                            Re.IRange 48 57; Re.IChar 95]) Re.Plus;
   Re.NClose]%N.

Record Endpoint := mkEndpoint {
  method : text;
  path : text;
  line : nat;
  regex : option Re.regex;
  used : bool;
  matches : list Path
}.

(** API group is mounted at /api *)
Definition full_path (ep : Endpoint) : text := str "/api" ++ path ep.

(** The pattern text [build_regex] hands to [re.compile]. *)
Definition build_pattern (ep : Endpoint) : text :=
  let escaped := Re.escape (full_path ep) in
  let pattern := Re.sub PARAM_RE (str "[^/]+") escaped in
  replace (str "\*") (str "[^\s]*") pattern.

(** [None]: [re.compile] raises. *)
Definition build_regex (ep : Endpoint) : option Re.regex :=
  Re.compile (build_pattern ep).

Definition set_regex (ep : Endpoint) (r : option Re.regex) : Endpoint :=
  mkEndpoint (method ep) (path ep) (line ep) r (used ep) (matches ep).

Definition mark_used (ep : Endpoint) (rel : Path) : Endpoint :=
  mkEndpoint (method ep) (path ep) (line ep) (regex ep) true (matches ep ++ [rel]).

(** [content.count(c, 0, stop)] *)
Definition count_upto (c : char) (stop : nat) (content : text) : nat :=
  List.length (filter (N.eqb c) (firstn stop content)).

(** [match.groups()] of a ROUTE_RE match *)
Definition group (content : text) (marks : list nat) (i : nat) : text :=
  slice (nth (2 * i) marks 0) (nth (2 * i + 1) marks 0) content.

(** First loop of [parse_endpoints]: one Endpoint per match. *)
Definition found_endpoints (content : text) : list Endpoint :=
  map (fun m : nat * Re.mresult =>
         let '(start, (_, marks)) := m in
         mkEndpoint (group content marks 0) (group content marks 1)
                    (count_upto nl start content + 1) None false [])
      (Re.finditer ROUTE_RE content).

(** The [unique] dict: insertion-ordered, keyed by (method, path). *)
Definition key := (text * text)%type.
Definition key_of (ep : Endpoint) : key := (method ep, path ep).
Definition key_eqb (a b : key) : bool :=
  text_eqb (fst a) (fst b) && text_eqb (snd a) (snd b).
Definition key_in (k : key) (unique : list (key * Endpoint)) : bool :=
  existsb (fun kv => key_eqb k (fst kv)) unique.

Fixpoint dedup_loop (endpoints : list Endpoint) (unique : list (key * Endpoint))
  : list (key * Endpoint) :=
  match endpoints with
  | [] => unique
  | ep :: rest =>
      if key_in (key_of ep) unique
      then dedup_loop rest unique
      else dedup_loop rest (unique ++ [(key_of ep, ep)])
  end.

Definition dedup (endpoints : list Endpoint) : list Endpoint :=
  map snd (dedup_loop endpoints []).

(** ** Effects: the file system consulted, the lines printed *)

Inductive read_result :=
| ReadOk (t : text)
| ReadUnicodeDecodeError
| ReadOSError.

Record world := mkWorld {
  repo_root : text;                    (* str(REPO_ROOT) *)
  w_exists : Path -> bool;             (* Path.exists *)
  w_is_dir : Path -> bool;             (* Path.is_dir *)
  w_rglob : Path -> list Path;         (* base.rglob: descendants, below base *)
  w_read_text : Path -> read_result    (* Path.read_text(encoding=utf-8) *)
}.

Inductive exn :=
| SystemExit (msg : text)
| UnicodeDecodeError
| OSError
| ReError.

Inductive event :=
| EvExists (p : Path)
| EvRglob (p : Path)
| EvIsDir (p : Path)
| EvRead (p : Path)
| EvPrint (s : text).

Inductive result (A : Type) :=
| Ok (a : A)
| Raise (e : exn).
Arguments Ok {A} a.
Arguments Raise {A} e.

Definition M (A : Type) : Type := world -> list event * result A.

Definition ret {A} (a : A) : M A := fun _ => ([], Ok a).
Definition raise {A} (e : exn) : M A := fun _ => ([], Raise e).
Definition bind {A B} (m : M A) (f : A -> M B) : M B :=
  fun w =>
    match m w with
    | (l1, Ok a) => let '(l2, r) := f a w in (l1 ++ l2, r)
    | (l1, Raise e) => (l1, Raise e)
    end.

Notation "x <- m ;; k" := (bind m (fun x => k))
  (at level 61, m at next level, right associativity).
Notation "m ;;; k" := (bind m (fun _ => k))
  (at level 61, right associativity).

Definition path_exists (p : Path) : M bool :=
  fun w => ([EvExists p], Ok (w_exists w p)).
Definition is_dir (p : Path) : M bool :=
  fun w => ([EvIsDir p], Ok (w_is_dir w p)).
Definition rglob (base : Path) : M (list Path) :=
  fun w => ([EvRglob base], Ok (map (app base) (w_rglob w base))).
Definition read_text (p : Path) : M text :=
  fun w => ([EvRead p],
            match w_read_text w p with
            | ReadOk t => Ok t
            | ReadUnicodeDecodeError => Raise UnicodeDecodeError
            | ReadOSError => Raise OSError
            end).
Definition print (s : text) : M unit := fun _ => ([EvPrint s], Ok tt).

(** [try: m except UnicodeDecodeError: continue] *)
Definition try_decode {A} (m : M A) : M (option A) :=
  fun w =>
    match m w with
    | (l, Ok a) => (l, Ok (Some a))
    | (l, Raise UnicodeDecodeError) => (l, Ok None)
    | (l, Raise e) => (l, Raise e)
    end.

Fixpoint for_each {A B} (f : A -> M B) (l : list A) : M (list B) :=
  match l with
  | [] => ret []
  | a :: l' => b <- f a ;; bs <- for_each f l' ;; ret (b :: bs)
  end.

(** What reaches standard output. *)
Fixpoint stdout (l : list event) : text :=
  match l with
  | [] => []
  | EvPrint s :: l' => s ++ [nl] ++ stdout l'
  | _ :: l' => stdout l'
  end.

(** [str(p)]: the absolute path, POSIX style *)
Definition path_str (root : text) (p : Path) : text :=
  root ++ List.concat (map (fun c => slash :: c) p).
Definition str_of (p : Path) : M text :=
  fun w => ([], Ok (path_str (repo_root w) p)).

(** [ep.regex = ep.build_regex()] *)
Definition compile_endpoint (ep : Endpoint) : M Endpoint :=
  match build_regex ep with
  | Some r => ret (set_regex ep (Some r))
  | None => raise ReError
  end.

Definition parse_endpoints : M (list Endpoint) :=
  ex <- path_exists MAIN_FILE ;;
  if negb ex then
    shown <- str_of MAIN_FILE ;;
    raise (SystemExit (str "Cannot locate main.go at " ++ shown))
  else
    content <- read_text MAIN_FILE ;;
    let endpoints := dedup (found_endpoints content) in
    for_each compile_endpoint endpoints.

(** [Path.suffix]: the name from its last dot on, when that dot is
    neither the first nor the last character of the name. *)
Fixpoint rfind_dot (name : text) (i : nat) (found : option nat) : option nat :=
  match name with
  | [] => found
  | c :: name' => rfind_dot name' (S i) (if N.eqb c 46 then Some i else found)
  end.

Definition suffix (p : Path) : text :=
  let name := last p [] in
  match rfind_dot name 0 None with
  | Some i => if (0 <? i) && (i <? List.length name - 1) then skipn i name else []
  | None => []
  end.

(** [str.lower], on the letters A to Z; no other character is mapped by
    [str.lower] to a letter that occurs in TEXT_EXTENSIONS. *)
Definition lower_char (c : char) : char :=
  if is_upper c then (c + 32)%N else c.
Definition lower (s : text) : text := map lower_char s.

Definition in_extensions (s : text) : bool :=
  existsb (text_eqb s) TEXT_EXTENSIONS.

Definition iter_ui_files : M (list Path) :=
  per_base <- for_each (fun base =>
      ex <- path_exists base ;;
      if negb ex then ret []
      else
        paths <- rglob base ;;
        kept <- for_each (fun p =>
            d <- is_dir p ;;
            if d then ret []
            else if negb (in_extensions (lower (suffix p))) then ret []
            else ret [p]) paths ;;
        ret (List.concat kept)) UI_DIRS ;;
  ret (List.concat per_base).

(** The inner loop of [scan_usage] on one Endpoint. *)
Definition scan_endpoint (txt : text) (rel : Path) (ep : Endpoint) : Endpoint :=
  if used ep then ep
  else
    match regex ep with
    | Some r => if Re.search r txt then mark_used ep rel else ep
    | None => ep
    end.

Fixpoint scan_files (files : list Path) (endpoints : list Endpoint)
  : M (list Endpoint) :=
  match files with
  | [] => ret endpoints
  | file_path :: files' =>
      t <- try_decode (read_text file_path) ;;
      match t with
      | None => scan_files files' endpoints
      | Some txt =>
          let rel := relative_to_REPO_ROOT file_path in
          scan_files files' (map (scan_endpoint txt rel) endpoints)
      end
  end.

(** Returns the Endpoint list as the in-place updates leave it. *)
Definition scan_usage (endpoints : list Endpoint) : M (list Endpoint) :=
  files <- iter_ui_files ;;
  scan_files files endpoints.

Definition dec (n : nat) : text := str (NilZero.string_of_uint (Nat.to_uint n)).

(** [format(s, "<w")] *)
Definition ljust (w : nat) (s : text) : text :=
  s ++ repeat 32%N (w - List.length s).

Definition unused_line (ep : Endpoint) : text :=
  str "  - " ++ ljust 6 (method ep) ++ str " " ++ full_path ep ++
  str " (defined line " ++ dec (line ep) ++ str ")".

Definition NOTE : text :=
  str "NOTE: Some endpoints might be consumed by non-UI clients (CLI, integrations)."
  ++ [nl] ++
  str "Use this report as a starting point and double-check before removing anything.".

Definition report (endpoints : list Endpoint) : M unit :=
  let unused := filter (fun ep => negb (used ep)) endpoints in
  let n_used := List.length endpoints - List.length unused in
  print (str "Total API endpoints found: " ++ dec (List.length endpoints)) ;;;
  print (str "Used by UI artifacts:      " ++ dec n_used) ;;;
  print (str "Unused in UI (potential):  " ++ dec (List.length unused)) ;;;
  print [] ;;;
  match unused with
  | _ :: _ =>
      print (str "Endpoints without matches in ui/* or webassets/*:") ;;;
      for_each (fun ep => print (unused_line ep)) unused ;;;
      print [] ;;;
      print NOTE
  | [] => print (str "All parsed endpoints have at least one UI reference.")
  end.

Definition main : M unit :=
  endpoints <- parse_endpoints ;;
  match endpoints with
  | [] => print (str "No API endpoints parsed.")
  | _ :: _ =>
      endpoints' <- scan_usage endpoints ;;
      report endpoints'
  end.

(** ** Auxiliary definitions used to state the properties *)

(** *** The scan *)

(** The file-system queries of [iter_ui_files], in order. *)
Definition ui_events (w : world) : list event :=
  flat_map (fun base =>
              EvExists base ::
              if w_exists w base
              then EvRglob base :: map EvIsDir (map (app base) (w_rglob w base))
              else []) UI_DIRS.

(** The files [iter_ui_files] yields, in order. *)
Definition ui_files (w : world) : list Path :=
  flat_map (fun base =>
              if w_exists w base then
                filter (fun p => negb (w_is_dir w p) &&
                                 in_extensions (lower (suffix p)))
                       (map (app base) (w_rglob w base))
              else []) UI_DIRS.

Definition os_error (w : world) (p : Path) : bool :=
  match w_read_text w p with
  | ReadOSError => true
  | _ => false
  end.

(** The files [scan_usage] opens: up to the first that fails to be read
    for another reason than its encoding. *)
Fixpoint opened (w : world) (files : list Path) : list Path :=
  match files with
  | [] => []
  | p :: files' => p :: if os_error w p then [] else opened w files'
  end.

(** The files of a list that decode, with their text. *)
Definition decoded (w : world) (files : list Path) : list (Path * text) :=
  flat_map (fun p => match w_read_text w p with
                     | ReadOk t => [(p, t)]
                     | _ => []
                     end) files.

(** The files whose text is searched. *)
Definition participants (w : world) : list (Path * text) :=
  decoded w (ui_files w).

(** The inner loop of [scan_usage] on one Endpoint, file after file. *)
Definition scan_all (fs : list (Path * text)) (ep : Endpoint) : Endpoint :=
  fold_left (fun e ft => scan_endpoint (snd ft) (fst ft) e) fs ep.

(** Not matched yet, or matched once. *)
Definition once (e : Endpoint) : Prop :=
  (used e = false /\ matches e = []) \/
  (used e = true /\ List.length (matches e) = 1).

(** What the scan leaves of an Endpoint as [parse_endpoints] made it. *)
Definition scanned (e e' : Endpoint) : Prop :=
  method e' = method e /\ path e' = path e /\ line e' = line e /\
  regex e' = regex e /\
  List.length (matches e') <= 1 /\
  (used e' = true <-> matches e' <> []).

(** *** The extraction *)

(** The (method, path) pair a ROUTE_RE match captures. *)
Definition match_key (content : text) (m : nat * Re.mresult) : key :=
  (group content (snd (snd m)) 0, group content (snd (snd m)) 1).

(** The Endpoint stands in [content] as a declaration: [api.], the
    method, white space, a parenthesis, white space and the quoted path. *)
Definition declared_in (content : text) (ep : Endpoint) : Prop :=
  exists pre ws1 ws2 post,
    content = pre ++ str "api." ++ method ep ++ ws1 ++ [lparen] ++ ws2 ++
              [dquote] ++ path ep ++ [dquote] ++ post /\
    Forall (fun c => is_space c = true) ws1 /\
    Forall (fun c => is_space c = true) ws2.

(** An Endpoint and what [compile_endpoint] makes of it. *)
Definition compiled (e e' : Endpoint) : Prop :=
  exists rx, build_regex e = Some rx /\ e' = set_regex e (Some rx).

(** *** The pattern texts *)

(** Characters [re.escape] leaves alone. *)
Definition plain (c : char) : Prop := Re.is_special c = false.

(** The characters of a parameter name in PARAM_RE. *)
Definition name_set : Re.atom :=
  Re.ASet false [Re.IRange 97 122; Re.IRange 65 90; Re.IRange 48 57;
                 Re.IChar 95]%N.

(** Escaped text, what it is after [PARAM_RE.sub] (the inserted piece
    stands behind the backslash the substitution leaves in place), and
    what it is after the replacement of the escaped star. *)
Inductive esc : text -> Prop :=
| esc_nil : esc []
| esc_plain c t : plain c -> esc t -> esc (c :: t)
| esc_esc d t : Re.is_special d = true -> esc t -> esc (backslash :: d :: t).

Inductive subbed : text -> Prop :=
| subbed_nil : subbed []
| subbed_plain c t : plain c -> subbed t -> subbed (c :: t)
| subbed_esc d t : Re.is_special d = true -> subbed t -> subbed (backslash :: d :: t)
| subbed_param t : subbed t -> subbed (backslash :: str "[^/]+" ++ t).

Inductive pat : text -> Prop :=
| pat_nil : pat []
| pat_plain c t : plain c -> pat t -> pat (c :: t)
| pat_esc d t : Re.is_special d = true -> pat t -> pat (backslash :: d :: t)
| pat_param t : pat t -> pat (backslash :: str "[^/]+" ++ t)
| pat_wild t : pat t -> pat (str "[^\s]*" ++ t).

(** *** The run *)

Definition raises {A} (r : result A) : bool :=
  match r with
  | Ok _ => false
  | Raise _ => true
  end.

(** The fatal message of [parse_endpoints]. *)
Definition missing_message (w : world) : text :=
  str "Cannot locate main.go at " ++ path_str (repo_root w) MAIN_FILE.

(** The texts [main] prints for a scanned Endpoint list, one per [print]. *)
Definition report_prints (endpoints : list Endpoint) : list text :=
  let unused := filter (fun ep => negb (used ep)) endpoints in
  [str "Total API endpoints found: " ++ dec (List.length endpoints);
   str "Used by UI artifacts:      " ++ dec (List.length (filter used endpoints));
   str "Unused in UI (potential):  " ++ dec (List.length unused);
   []] ++
  match unused with
  | [] => [str "All parsed endpoints have at least one UI reference."]
  | _ :: _ =>
      [str "Endpoints without matches in ui/* or webassets/*:"] ++
      map unused_line unused ++ [[]; NOTE]
  end.

(** Standard output after the given [print] calls. *)
Definition printed (texts : list text) : text :=
  List.concat (map (fun s => s ++ [nl]) texts).

(** Two file systems that answer alike wherever the script looks: the
    root path, main.go, the UI roots, what is found below them, and the
    text of the files that are kept. *)
Definition agree (w1 w2 : world) : Prop :=
  repo_root w1 = repo_root w2 /\
  w_exists w1 MAIN_FILE = w_exists w2 MAIN_FILE /\
  w_read_text w1 MAIN_FILE = w_read_text w2 MAIN_FILE /\
  (forall base, In base UI_DIRS ->
     w_exists w1 base = w_exists w2 base /\
     (w_exists w1 base = true ->
      w_rglob w1 base = w_rglob w2 base /\
      forall d, In d (w_rglob w1 base) ->
        w_is_dir w1 (base ++ d) = w_is_dir w2 (base ++ d) /\
        (w_is_dir w1 (base ++ d) = false ->
         in_extensions (lower (suffix (base ++ d))) = true ->
         w_read_text w1 (base ++ d) = w_read_text w2 (base ++ d)))).

(** *** Small repositories for the examples *)

Fixpoint Path_eqb (a b : Path) : bool :=
  match a, b with
  | [], [] => true
  | x :: a', y :: b' => text_eqb x y && Path_eqb a' b'
  | _, _ => false
  end.

Fixpoint lookup_file (p : Path) (files : list (Path * read_result)) : read_result :=
  match files with
  | [] => ReadOSError
  | (q, r) :: files' => if Path_eqb p q then r else lookup_file p files'
  end.

(** A repository at /repo with main.go as given (absent for [None]) and
    a ui/ directory holding [files]; there is no webassets/. *)
Definition example_world (main_go : option read_result)
           (files : list (Path * read_result)) : world :=
  mkWorld (str "/repo")
    (fun p => if Path_eqb p MAIN_FILE
              then match main_go with Some _ => true | None => false end
              else Path_eqb p [str "ui"])
    (fun _ => false)
    (fun base => if Path_eqb base [str "ui"] then map fst files else [])
    (fun p => if Path_eqb p MAIN_FILE
              then match main_go with Some r => r | None => ReadOSError end
              else match p with
                   | _ :: d => lookup_file d files
                   | [] => ReadOSError
                   end).

(** [api.VERB("route", handler)] as it stands on a line of main.go *)
Definition decl (verb route : string) : text :=
  str "    api." ++ str verb ++ str "(" ++ [dquote] ++ str route ++ [dquote] ++
  str ", handler)" ++ [nl].

Definition endpoint_at (verb route : string) (n : nat) : Endpoint :=
  mkEndpoint (str verb) (str route) n None false [].

(** Two routes, the first declared twice; a script that calls both, an
    image, a text file that is not UTF-8 and a page. *)
Definition main_go_routes : text :=
  decl "GET" "/servers" ++ decl "POST" "/servers/:id/restart" ++
  decl "GET" "/servers".

Definition world_routes : world :=
  example_world (Some (ReadOk main_go_routes))
    [([str "app.js"],
      ReadOk (str "fetch('/api/servers'); fetch('/api/servers/42/restart')"));
     ([str "logo.png"], ReadUnicodeDecodeError);
     ([str "blob.txt"], ReadUnicodeDecodeError);
     ([str "index.html"], ReadOk (str "<a href='/api/servers'>"))].

(** The same repository with other bytes in the image. *)
Definition world_routes_png : world :=
  example_world (Some (ReadOk main_go_routes))
    [([str "app.js"],
      ReadOk (str "fetch('/api/servers'); fetch('/api/servers/42/restart')"));
     ([str "logo.png"], ReadOk (str "/api/servers/:id/restart"));
     ([str "blob.txt"], ReadUnicodeDecodeError);
     ([str "index.html"], ReadOk (str "<a href='/api/servers'>"))].

Definition ep_servers : Endpoint :=
  set_regex (endpoint_at "GET" "/servers" 1)
            (build_regex (endpoint_at "GET" "/servers" 1)).

Definition ep_restart : Endpoint :=
  set_regex (endpoint_at "POST" "/servers/:id/restart" 2)
            (build_regex (endpoint_at "POST" "/servers/:id/restart" 2)).

Definition routes_parsed : list Endpoint := [ep_servers; ep_restart].

Definition routes_scanned : list Endpoint :=
  [mark_used ep_servers [str "ui"; str "app.js"]; ep_restart].

(** A route declared without leading slash. *)
Definition world_bare_route : world :=
  example_world (Some (ReadOk (decl "GET" "servers"))) [].

Definition world_no_main : world := example_world None [].

Definition world_undecodable_main : world :=
  example_world (Some ReadUnicodeDecodeError) [].

(** No declaration in main.go, and a script that cannot be opened. *)
Definition world_no_routes : world :=
  example_world (Some (ReadOk (str "package main")))
    [([str "app.js"], ReadOSError)].

(** *** Further descriptions *)

(** A pattern text and the pattern [re.compile] makes of it, for the
    texts of [pat]. *)
Inductive compiles_to : text -> Re.regex -> Prop :=
| ct_nil : compiles_to [] []
| ct_plain c t r :
    plain c -> compiles_to t r -> compiles_to (c :: t) (Re.lit c :: r)
| ct_esc d t r :
    Re.is_special d = true -> compiles_to t r ->
    compiles_to (backslash :: d :: t) (Re.lit d :: r)
| ct_param t r :
    compiles_to t r ->
    compiles_to (backslash :: str "[^/]+" ++ t)
                (Re.lit lbrack :: Re.NBol :: Re.lit slash ::
                 Re.NAtom (Re.ALit rbrack) Re.Plus :: r)
| ct_wild t r :
    compiles_to t r ->
    compiles_to (str "[^\s]*" ++ t)
                (Re.NAtom (Re.ASet true [Re.ISpace]) Re.Star :: r).

(** The pattern node of a wildcard segment. *)
Definition wild : Re.node := Re.NAtom (Re.ASet true [Re.ISpace]) Re.Star.

(** A list of keys without the repetitions of a key after its first
    occurrence. *)
Fixpoint keep_first (ks : list key) : list key :=
  match ks with
  | [] => []
  | k :: ks' => k :: filter (fun k' => negb (key_eqb k' k)) (keep_first ks')
  end.

(** [api.VERB ( "route"]: a declaration with white space [ws1] before
    and [ws2] after the parenthesis. *)
Definition declaration (verb ws1 ws2 route : text) : text :=
  str "api." ++ verb ++ ws1 ++ [lparen] ++ ws2 ++ [dquote] ++ route ++ [dquote].

(** A declaration with white space around the parenthesis, on the second
    line of main.go. *)
Definition main_go_spaced : text :=
  str "r := gin.Default()" ++ [nl] ++
  declaration (str "PUT") (str "  ") (str " ") (str "/items/:id") ++
  str ", handler)" ++ [nl].

Definition world_spaced : world :=
  example_world (Some (ReadOk main_go_spaced)) [].

(** One route, and a script that calls it. *)
Definition world_all_used : world :=
  example_world (Some (ReadOk (decl "GET" "/servers")))
    [([str "app.js"], ReadOk (str "fetch('/api/servers')"))].

(** *** Occurrences of a declaration *)

(** The text [content] holds a declaration of [verb] and [route] from
    position [start] up to position [stop]: [api.], capitals, white
    space, a parenthesis, white space and a non-empty quoted text. *)
Definition occurrence (content : text) (start stop : nat) (verb route : text)
  : Prop :=
  exists pre ws1 ws2 post,
    content = pre ++ declaration verb ws1 ws2 route ++ post /\
    List.length pre = start /\
    stop = start + List.length (declaration verb ws1 ws2 route) /\
    verb <> [] /\ Forall (fun c => is_upper c = true) verb /\
    Forall (fun c => is_space c = true) ws1 /\
    Forall (fun c => is_space c = true) ws2 /\
    route <> [] /\ ~ In dquote route.

(** The occurrences met when [content] is read from left to right and
    reading goes on behind each occurrence met: each is an occurrence,
    none begins before the one in front of it has ended, and every
    occurrence of [content] is one of them or begins inside one of them. *)
Definition reported (content : text) (occs : list (nat * nat * (text * text)))
  : Prop :=
  Forall (fun o : nat * nat * (text * text) =>
            occurrence content (fst (fst o)) (snd (fst o))
                       (fst (snd o)) (snd (snd o))) occs /\
  StronglySorted (fun o o' : nat * nat * (text * text) =>
                    snd (fst o) <= fst (fst o')) occs /\
  (forall q e verb route,
      occurrence content q e verb route ->
      In (q, e, (verb, route)) occs \/
      exists start stop k, In (start, stop, k) occs /\ start < q < stop).

(** The occurrences met from position [p] on. *)
Definition reported_from (content : text) (p : nat)
           (occs : list (nat * nat * (text * text))) : Prop :=
  Forall (fun o : nat * nat * (text * text) =>
            occurrence content (fst (fst o)) (snd (fst o))
                       (fst (snd o)) (snd (snd o)) /\ p <= fst (fst o)) occs /\
  StronglySorted (fun o o' : nat * nat * (text * text) =>
                    snd (fst o) <= fst (fst o')) occs /\
  (forall q e verb route,
      occurrence content q e verb route -> p <= q ->
      In (q, e, (verb, route)) occs \/
      exists start stop k, In (start, stop, k) occs /\ start < q < stop).

(** The matches of ROUTE_RE that [finditer] reports, as occurrences. *)
Definition spans (content : text) : list (nat * nat * (text * text)) :=
  map (fun m : nat * Re.mresult =>
         (fst m, fst (snd m),
          (group content (snd (snd m)) 0, group content (snd (snd m)) 1)))
      (Re.finditer ROUTE_RE content).

(** The occurrences in [main_go_routes]: one on each of its three lines. *)
Definition routes_occs : list (nat * nat * (text * text)) :=
  [(4, 22, (str "GET", str "/servers"));
   (37, 68, (str "POST", str "/servers/:id/restart"));
   (83, 101, (str "GET", str "/servers"))].

(** A declaration whose path holds the beginning of another one. *)
Definition main_go_nested : text :=
  str "api.GET(" ++ [dquote] ++ str "/help/api.POST(" ++ [dquote] ++
  str ", help) // see " ++ [dquote] ++ str "docs" ++ [dquote] ++ [nl].

Definition world_nested : world :=
  example_world (Some (ReadOk main_go_nested)) [].

(** *** Files that hold a match *)

(** The file decodes and its text holds a match of the pattern. *)
Definition file_matches (w : world) (rx : Re.regex) (f : Path) : bool :=
  match w_read_text w f with
  | ReadOk t => Re.search rx t
  | _ => false
  end.

(** One of [files] holds a match of the pattern of the Endpoint. *)
Definition matched (w : world) (files : list Path) (ep : Endpoint) : bool :=
  match regex ep with
  | Some rx => existsb (file_matches w rx) files
  | None => false
  end.

(** *** The files that are kept *)

(** [allowed] is [ext] with its letters A to Z replaced by a to z. *)
Definition lowers_to (ext allowed : text) : Prop :=
  Forall2 (fun c d : char =>
             ((65 <= c <= 90)%N /\ d = (c + 32)%N) \/
             (~ (65 <= c <= 90)%N /\ d = c)) ext allowed.

(** A file name made of a non-empty stem and an extension that is, but
    for the case of its letters, one of TEXT_EXTENSIONS. *)
Definition allowed_name (name : text) : Prop :=
  exists stem ext allowed,
    name = stem ++ ext /\ stem <> [] /\
    In allowed TEXT_EXTENSIONS /\ lowers_to ext allowed.



(** * Properties *)

(** ** Facts about text *)

Lemma text_eqb_eq (a b : text) : text_eqb a b = true <-> a = b.
Proof.
  revert b; induction a as [|x a IH]; intros [|y b]; simpl; try (split; congruence).
  rewrite andb_true_iff, N.eqb_eq, IH. split.
  - intros [-> ->]; reflexivity.
  - intros E; injection E; auto.
Qed.

Lemma starts_with_app (p t : text) :
  starts_with p t = true <-> exists rest, t = p ++ rest.
Proof.
  revert t; induction p as [|x p IH]; intros t; simpl.
  - split; [intros _; exists t; reflexivity | reflexivity].
  - destruct t as [|y t].
    + split; [discriminate | intros [r E]; discriminate].
    + rewrite andb_true_iff, N.eqb_eq, IH. split.
      * intros [-> [r ->]]; exists r; reflexivity.
      * intros [r E]; injection E as -> ->; split; [reflexivity | exists r; reflexivity].
Qed.

(** ** Facts about the matcher *)

Module ReFacts.
Import Re.

(** A pattern of literals matches exactly where the subject starts with
    them. *)
Lemma match_here_lits (p : text) (marks : list nat) (pos : nat) (s : text) :
  match_here (map lit p) marks pos s =
  if starts_with p s then Some (pos + List.length p, rev marks) else None.
Proof.
  revert pos s; induction p as [|x p IH]; intros pos s; simpl.
  - rewrite Nat.add_0_r; reflexivity.
  - destruct s as [|y s]; [reflexivity|].
    rewrite (N.eqb_sym x y).
    destruct (N.eqb y x); simpl; [|reflexivity].
    rewrite IH. rewrite Nat.add_succ_r. reflexivity.
Qed.

Lemma search_from_lits (p : text) (pos : nat) (s : text) :
  search_from (map lit p) pos s <> None <->
  exists pre post, s = pre ++ p ++ post.
Proof.
  revert pos; induction s as [|c s IH]; intros pos; simpl;
    rewrite match_here_lits.
  - destruct (starts_with p []) eqn:E.
    + split; [intros _|discriminate].
      apply starts_with_app in E. destruct E as [r E]. exists [], r. exact E.
    + split; [congruence|]. intros [pre [post E']].
      destruct pre; [|discriminate]. simpl in E'.
      assert (starts_with p [] = true) by (apply starts_with_app; eauto).
      congruence.
  - destruct (starts_with p (c :: s)) eqn:E.
    + split; [intros _|discriminate].
      apply starts_with_app in E. destruct E as [r E]. exists [], r. exact E.
    + rewrite IH. split.
      * intros [pre [post ->]]. exists (c :: pre), post. reflexivity.
      * intros [pre [post E']]. destruct pre as [|d pre].
        -- simpl in E'.
           assert (starts_with p (c :: s) = true) by (apply starts_with_app; eauto).
           congruence.
        -- injection E' as _ ->. eauto.
Qed.

Lemma search_lits (p s : text) :
  search (map lit p) s = true <-> exists pre post, s = pre ++ p ++ post.
Proof.
  rewrite <- (search_from_lits p 0 s). unfold search.
  destruct (search_from (map lit p) 0 s); split; congruence.
Qed.

(** A dead pattern matches nowhere. *)
Lemma dead_bol (r : regex) : dead (NBol :: r).
Proof. intros marks pos s; reflexivity. Qed.

Lemma dead_lit (c : char) (r : regex) : dead r -> dead (lit c :: r).
Proof.
  intros D marks pos s; simpl. destruct s; [reflexivity|].
  destruct (N.eqb _ _); [apply D | reflexivity].
Qed.

Lemma lit_dead_no_match (c : char) (r : regex) :
  dead r -> forall marks pos s, match_here (lit c :: r) marks pos s = None.
Proof.
  intros D marks pos s; simpl. destruct s; [reflexivity|].
  destruct (N.eqb _ _); [apply D | reflexivity].
Qed.

Lemma never_search (r : regex) :
  (forall pos s, match_here r [] pos s = None) ->
  forall s, search r s = false.
Proof.
  intros H s. unfold search.
  assert (G : forall pos, search_from r pos s = None).
  { induction s as [|c s IH]; intros pos; simpl; rewrite H; auto. }
  rewrite G; reflexivity.
Qed.

End ReFacts.

(** ** The match pattern of a route *)

Lemma ROUTE_RE_compiled : Re.compile ROUTE_RE_pattern = Some ROUTE_RE.
Proof. vm_compute. reflexivity. Qed.

Lemma PARAM_RE_compiled : Re.compile PARAM_RE_pattern = Some PARAM_RE.
Proof. vm_compute. reflexivity. Qed.

(** C1. A route declared with a parameter segment: the pattern
    [build_regex] derives is not loosened.  For the gin form
    [/servers/:id/restart] the pattern is the literal full path, which a
    concrete id does not match; for the backslash form
    [/servers/\:id/restart] the pattern keeps a stray backslash and matches
    no text at all. *)
Theorem C1_param_segment_not_loosened :
  let ep := endpoint_at "POST" "/servers/:id/restart" 1 in
  let ep' := endpoint_at "POST" "/servers/\:id/restart" 1 in
  (build_pattern ep = str "/api/servers/:id/restart" /\
   exists r, build_regex ep = Some r /\
     Re.search r (str "fetch('/api/servers/42/restart')") = false /\
     Re.search r (str "fetch('/api/servers/:id/restart')") = true) /\
  (build_pattern ep' = str "/api/servers/\[^/]+/restart" /\
   exists r', build_regex ep' = Some r' /\
     forall t, Re.search r' t = false).
Proof.
  split.
  - split; [vm_compute; reflexivity|].
    eexists; split; [vm_compute; reflexivity|].
    split; vm_compute; reflexivity.
  - split; [vm_compute; reflexivity|].
    eexists; split; [vm_compute; reflexivity|].
    apply ReFacts.never_search.
    intros pos s.
    apply ReFacts.lit_dead_no_match.
    repeat apply ReFacts.dead_lit.
    apply ReFacts.dead_bol.
Qed.

(** *** Routes without special characters *)

Lemma plain_not_special (c d : char) :
  plain c -> In d Re.special_chars -> N.eqb c d = false.
Proof.
  unfold plain, Re.is_special, mem. intros H I.
  destruct (N.eqb c d) eqn:E; [|reflexivity].
  rewrite <- H. symmetry. apply existsb_exists. exists d; auto.
Qed.

Ltac plain_neq H :=
  repeat match goal with
  | |- context [N.eqb ?c ?d] =>
      rewrite (@plain_not_special c d H) by (vm_compute; tauto)
  end.

Lemma plain_mem (c : char) (l : list char) :
  plain c -> incl l Re.special_chars -> mem c l = false.
Proof.
  intros H I. unfold mem. destruct (existsb (N.eqb c) l) eqn:E; [|reflexivity].
  apply existsb_exists in E. destruct E as [d [Hd E]].
  rewrite (plain_not_special H (I _ Hd)) in E. discriminate.
Qed.

Lemma escape_plain (s : text) : Forall plain s -> Re.escape s = s.
Proof.
  induction 1 as [|c s H _ IH]; simpl; [reflexivity|].
  rewrite H, IH; reflexivity.
Qed.

Lemma sub_PARAM_RE_plain (repl : text) (pos : nat) (s : text) :
  Forall plain s -> Re.sub_from PARAM_RE repl 0 pos s = s.
Proof.
  intros F; revert pos; induction F as [|c s H _ IH]; intros pos; [reflexivity|].
  cbn [Re.sub_from PARAM_RE Re.match_here Re.atom_match].
  rewrite (@plain_not_special c backslash H) by (vm_compute; tauto).
  rewrite IH; reflexivity.
Qed.

Lemma replace_star_plain (new s : text) :
  Forall plain s -> replace_from (str "\*") new 0 s = s.
Proof.
  induction 1 as [|c s H _ IH]; [reflexivity|].
  cbn [replace_from].
  change (starts_with (str "\*") (c :: s))
    with (N.eqb backslash c && starts_with [star_c] s).
  rewrite N.eqb_sym.
  rewrite (@plain_not_special c backslash H) by (vm_compute; tauto).
  simpl. rewrite IH; reflexivity.
Qed.

Lemma parse_quant_plain (s : text) :
  Forall plain s -> Re.parse_quant s = Some (Re.One, s).
Proof.
  intros F; destruct F as [|c s H F]; [reflexivity|].
  unfold Re.parse_quant.
  rewrite (@plain_not_special c star_c H) by (vm_compute; tauto).
  rewrite (@plain_not_special c plus_c H) by (vm_compute; tauto).
  rewrite (@plain_mem c [63; 123]%N H)
    by (intros d Hd; vm_compute in Hd |- *; tauto).
  reflexivity.
Qed.

Lemma parse_plain (fuel : nat) (s : text) :
  Forall plain s -> List.length s < fuel ->
  Re.parse fuel 0 s = Some (map Re.lit s).
Proof.
  intros F; revert fuel; induction F as [|c s H F IH]; intros fuel L.
  - destruct fuel; [simpl in L; lia | reflexivity].
  - destruct fuel as [|fuel]; [simpl in L; lia|].
    simpl in L. cbn [Re.parse].
    rewrite (@plain_not_special c backslash H) by (vm_compute; tauto).
    rewrite (@plain_not_special c lbrack H) by (vm_compute; tauto).
    rewrite (@plain_not_special c caret H) by (vm_compute; tauto).
    rewrite (@plain_not_special c lparen H) by (vm_compute; tauto).
    rewrite (@plain_not_special c rparen H) by (vm_compute; tauto).
    rewrite (@plain_mem c [42; 43; 63; 123; 124; 36; 46]%N H)
      by (intros d Hd; vm_compute in Hd |- *; tauto).
    rewrite (parse_quant_plain F).
    rewrite IH by lia. reflexivity.
Qed.

(** A route made of characters [re.escape] leaves alone (letters, digits,
    [/], [:], [_], ...) is searched for literally: the [:name] segments of
    gin routes are among them. *)
Lemma plain_route_is_literal (ep : Endpoint) :
  Forall plain (path ep) ->
  build_pattern ep = full_path ep /\
  build_regex ep = Some (map Re.lit (full_path ep)) /\
  forall t, Re.search (map Re.lit (full_path ep)) t = true <->
            exists pre post, t = pre ++ full_path ep ++ post.
Proof.
  intros F.
  assert (F' : Forall plain (full_path ep)).
  { unfold full_path. apply Forall_app; split; [|exact F].
    repeat constructor. }
  assert (E : build_pattern ep = full_path ep).
  { unfold build_pattern, Re.sub, replace.
    rewrite (escape_plain F'), (sub_PARAM_RE_plain _ _ F'), (replace_star_plain _ F').
    reflexivity. }
  split; [exact E|]. split.
  - unfold build_regex, Re.compile. rewrite E. apply parse_plain; [exact F'|lia].
  - intros t. apply ReFacts.search_lits.
Qed.

(** ** Deduplication *)

Lemma key_eqb_eq (a b : key) : key_eqb a b = true <-> a = b.
Proof.
  destruct a as [a1 a2], b as [b1 b2]; unfold key_eqb; simpl.
  rewrite andb_true_iff, !text_eqb_eq. split.
  - intros [-> ->]; reflexivity.
  - intros E; injection E; auto.
Qed.

Lemma key_in_spec (k : key) (unique : list (key * Endpoint)) :
  key_in k unique = true <-> In k (map fst unique).
Proof.
  unfold key_in. rewrite existsb_exists, in_map_iff. split.
  - intros [kv [I E]]. apply key_eqb_eq in E. exists kv; auto.
  - intros [kv [E I]]. exists kv; split; [exact I|]. apply key_eqb_eq; auto.
Qed.

Lemma key_in_false (k : key) (unique : list (key * Endpoint)) :
  key_in k unique = false <-> ~ In k (map fst unique).
Proof.
  rewrite <- key_in_spec. destruct (key_in k unique); split; congruence.
Qed.

(** What the dedup loop adds to the dict: one entry per key not yet
    there, taken from the first Endpoint that carries the key. *)
Lemma dedup_loop_inv (endpoints : list Endpoint) :
  forall unique, NoDup (map fst unique) ->
  exists added,
    dedup_loop endpoints unique = unique ++ added /\
    NoDup (map fst (unique ++ added)) /\
    (forall k, In k (map fst added) <->
               In k (map key_of endpoints) /\ ~ In k (map fst unique)) /\
    (forall k ep, In (k, ep) added ->
       k = key_of ep /\
       exists pre post, endpoints = pre ++ ep :: post /\
                        ~ In k (map key_of pre)).
Proof.
  induction endpoints as [|ep rest IH]; intros unique ND; simpl.
  - exists []. rewrite app_nil_r.
    split; [reflexivity|]. split; [exact ND|]. split.
    + intros k; simpl; tauto.
    + intros k ep [].
  - destruct (key_in (key_of ep) unique) eqn:K.
    + apply key_in_spec in K.
      destruct (IH unique ND) as [added [E [ND' [Hk Hf]]]].
      exists added.
      split; [exact E|]. split; [exact ND'|]. split.
      * intros k. rewrite Hk. split.
        -- intros [I N]; split; [right; exact I | exact N].
        -- intros [[<- | I] N]; [contradiction | split; assumption].
      * intros k ep0 I. destruct (Hf k ep0 I) as [Ek [pre [post [-> N]]]].
        split; [exact Ek|].
        exists (ep :: pre), post. split; [reflexivity|].
        simpl. intros [E' | I']; [|contradiction].
        assert (I2 : In k (map fst added)).
        { apply in_map_iff. exists (k, ep0); auto. }
        apply Hk in I2. destruct I2 as [_ N']. apply N'. rewrite <- E'. exact K.
    + apply key_in_false in K.
      assert (ND1 : NoDup (map fst (unique ++ [(key_of ep, ep)]))).
      { rewrite map_app; simpl. apply NoDup_app; auto.
        - repeat constructor. intros [].
        - intros a I [<- | []]. contradiction. }
      destruct (IH _ ND1) as [added [E [ND' [Hk Hf]]]].
      exists ((key_of ep, ep) :: added).
      rewrite <- app_assoc in E, ND'. simpl in E, ND'.
      split; [exact E|]. split; [exact ND'|]. split.
      * intros k. simpl. rewrite Hk, map_app, in_app_iff. simpl. split.
        -- intros [<- | [I N]]; [split; [left; reflexivity | exact K]|].
           split; [right; exact I | tauto].
        -- intros [[<- | I] N]; [left; reflexivity|].
           destruct (key_eqb k (key_of ep)) eqn:Q.
           ++ apply key_eqb_eq in Q. left; auto.
           ++ right. split; [exact I|].
              intros [I' | [<- | []]]; [contradiction|].
              rewrite (proj2 (key_eqb_eq _ _) eq_refl) in Q. discriminate.
      * intros k ep0 [H | H].
        -- injection H as <- <-. split; [reflexivity|].
           exists [], rest. split; [reflexivity|]. intros [].
        -- destruct (Hf k ep0 H) as [Ek [pre [post [-> N]]]].
           split; [exact Ek|].
           exists (ep :: pre), post. split; [reflexivity|].
           simpl. intros [E' | I]; [|contradiction].
           assert (I' : In k (map fst added)).
           { apply in_map_iff. exists (k, ep0); auto. }
           apply Hk in I'. destruct I' as [_ N']. apply N'.
           rewrite map_app. apply in_or_app. right. left. auto.
Qed.

Lemma dedup_spec (endpoints : list Endpoint) :
  NoDup (map key_of (dedup endpoints)) /\
  (forall k, In k (map key_of (dedup endpoints)) <-> In k (map key_of endpoints)) /\
  (forall ep, In ep (dedup endpoints) ->
     exists pre post, endpoints = pre ++ ep :: post /\
                      ~ In (key_of ep) (map key_of pre)).
Proof.
  unfold dedup.
  destruct (@dedup_loop_inv endpoints [] (NoDup_nil _)) as [added [E [ND [Hk Hf]]]].
  simpl in E, ND. rewrite E.
  assert (K : map key_of (map snd added) = map fst added).
  { rewrite map_map. apply map_ext_in. intros [k ep] I.
    destruct (Hf k ep I) as [-> _]. reflexivity. }
  rewrite K. split; [exact ND|]. split.
  - intros k. rewrite Hk. simpl. tauto.
  - intros ep I. apply in_map_iff in I. destruct I as [[k ep'] [E' I]].
    simpl in E'; subst ep'. destruct (Hf k ep I) as [-> R]. exact R.
Qed.

(** ** Running [parse_endpoints] *)

Lemma for_each_compile (w : world) (endpoints : list Endpoint) :
  forall l r, for_each compile_endpoint endpoints w = (l, r) ->
  l = [] /\
  match r with
  | Ok endpoints' =>
      Forall2 (fun e e' => exists rx, build_regex e = Some rx /\
                                      e' = set_regex e (Some rx))
              endpoints endpoints'
  | Raise e => e = ReError
  end.
Proof.
  induction endpoints as [|ep rest IH]; intros l r.
  - simpl. unfold ret. intros E; injection E as <- <-. split; constructor.
  - cbn [for_each]. unfold bind at 1. unfold compile_endpoint at 1.
    destruct (build_regex ep) as [rx|] eqn:B.
    + unfold ret at 1. unfold bind.
      destruct (for_each compile_endpoint rest w) as [l1 r1] eqn:R.
      destruct (IH _ _ eq_refl) as [-> H].
      destruct r1 as [eps'|e]; simpl; intros E; injection E as <- <-.
      * split; [reflexivity|]. constructor; [exists rx; auto | exact H].
      * split; [reflexivity | exact H].
    + unfold raise. intros E; injection E as <- <-. split; reflexivity.
Qed.

Lemma parse_endpoints_run (w : world) :
  parse_endpoints w =
  if w_exists w MAIN_FILE then
    match w_read_text w MAIN_FILE with
    | ReadOk content =>
        ([EvExists MAIN_FILE; EvRead MAIN_FILE],
         snd (for_each compile_endpoint (dedup (found_endpoints content)) w))
    | ReadUnicodeDecodeError =>
        ([EvExists MAIN_FILE; EvRead MAIN_FILE], Raise UnicodeDecodeError)
    | ReadOSError => ([EvExists MAIN_FILE; EvRead MAIN_FILE], Raise OSError)
    end
  else ([EvExists MAIN_FILE], Raise (SystemExit (missing_message w))).
Proof.
  unfold parse_endpoints, bind, path_exists, read_text, raise, str_of.
  destruct (w_exists w MAIN_FILE); simpl; [|reflexivity].
  destruct (w_read_text w MAIN_FILE) as [content| |]; try reflexivity.
  destruct (for_each compile_endpoint (dedup (found_endpoints content)) w)
    as [l r] eqn:R.
  destruct (for_each_compile _ _ R) as [-> _]. destruct r; reflexivity.
Qed.

(** What a normal return of [parse_endpoints] tells. *)
Lemma parse_endpoints_ok (w : world) (l : list event) (endpoints : list Endpoint) :
  parse_endpoints w = (l, Ok endpoints) ->
  l = [EvExists MAIN_FILE; EvRead MAIN_FILE] /\
  w_exists w MAIN_FILE = true /\
  exists content,
    w_read_text w MAIN_FILE = ReadOk content /\
    Forall2 (fun e e' => exists rx, build_regex e = Some rx /\
                                    e' = set_regex e (Some rx))
            (dedup (found_endpoints content)) endpoints.
Proof.
  rewrite parse_endpoints_run.
  destruct (w_exists w MAIN_FILE); [|discriminate].
  destruct (w_read_text w MAIN_FILE) as [content| |]; try discriminate.
  destruct (for_each compile_endpoint (dedup (found_endpoints content)) w)
    as [l' r] eqn:R.
  destruct (for_each_compile _ _ R) as [-> H]. simpl.
  intros E; injection E as <- ->.
  split; [reflexivity|]. split; [reflexivity|]. exists content; auto.
Qed.

(** ** What ROUTE_RE matches *)

Module RouteFacts.
Import Re.

Lemma rep_sound (p : char -> bool) (k : nat -> text -> option mresult) (s : text) :
  forall pos r, rep p k pos s = Some r ->
  exists run rest, s = run ++ rest /\
    Forall (fun c => p c = true) run /\
    k (pos + List.length run) rest = Some r.
Proof.
  induction s as [|c s IH]; intros pos r; simpl.
  - intros H. exists [], []. simpl. rewrite Nat.add_0_r. auto.
  - assert (Z : k pos (c :: s) = Some r ->
                exists run rest, c :: s = run ++ rest /\
                  Forall (fun c => p c = true) run /\
                  k (pos + List.length run) rest = Some r).
    { intros H. exists [], (c :: s). simpl. rewrite Nat.add_0_r. auto. }
    destruct (p c) eqn:P; [|exact Z].
    destruct (rep p k (S pos) s) as [r'|] eqn:R; [|exact Z].
    intros E; injection E as <-.
    destruct (IH _ _ R) as [run [rest [-> [F K]]]].
    exists (c :: run), rest. simpl. rewrite Nat.add_succ_r.
    split; [reflexivity|]. split; [constructor; auto | exact K].
Qed.

Lemma star_sound (a : atom) (r' : regex) (marks : list nat) (pos : nat) (s : text) res :
  match_here (NAtom a Star :: r') marks pos s = Some res ->
  exists run rest, s = run ++ rest /\
    Forall (fun c => atom_match a c = true) run /\
    match_here r' marks (pos + List.length run) rest = Some res.
Proof. simpl. apply rep_sound. Qed.

Lemma plus_sound (a : atom) (r' : regex) (marks : list nat) (pos : nat) (s : text) res :
  match_here (NAtom a Plus :: r') marks pos s = Some res ->
  exists run rest, s = run ++ rest /\ run <> [] /\
    Forall (fun c => atom_match a c = true) run /\
    match_here r' marks (pos + List.length run) rest = Some res.
Proof.
  simpl. destruct s as [|c s]; [discriminate|].
  destruct (atom_match a c) eqn:A; [|discriminate].
  intros R. apply rep_sound in R. destruct R as [run [rest [-> [F K]]]].
  exists (c :: run), rest. simpl. rewrite Nat.add_succ_r.
  split; [reflexivity|]. split; [discriminate|]. split; [constructor; auto | exact K].
Qed.

Lemma one_sound (c : char) (r' : regex) (marks : list nat) (pos : nat) (s : text) res :
  match_here (NAtom (ALit c) One :: r') marks pos s = Some res ->
  exists rest, s = c :: rest /\ match_here r' marks (S pos) rest = Some res.
Proof.
  simpl. destruct s as [|d s]; [discriminate|].
  destruct (N.eqb d c) eqn:E; [|discriminate].
  apply N.eqb_eq in E; subst d. intros H. exists s; auto.
Qed.

Lemma open_sound (r' : regex) (marks : list nat) (pos : nat) (s : text) res :
  match_here (NOpen :: r') marks pos s = Some res ->
  match_here r' (pos :: marks) pos s = Some res.
Proof. exact (fun H => H). Qed.

Lemma close_sound (r' : regex) (marks : list nat) (pos : nat) (s : text) res :
  match_here (NClose :: r') marks pos s = Some res ->
  match_here r' (pos :: marks) pos s = Some res.
Proof. exact (fun H => H). Qed.

(** The shape of the text at a ROUTE_RE match and the marks it leaves. *)
Lemma match_ROUTE_RE (pos : nat) (s : text) (e : nat) (marks : list nat) :
  match_here ROUTE_RE [] pos s = Some (e, marks) ->
  exists verb ws1 ws2 route rest,
    s = str "api." ++ verb ++ ws1 ++ [lparen] ++ ws2 ++ [dquote] ++ route
        ++ [dquote] ++ rest /\
    verb <> [] /\ Forall (fun c => is_upper c = true) verb /\
    Forall (fun c => is_space c = true) ws1 /\
    Forall (fun c => is_space c = true) ws2 /\
    route <> [] /\ ~ In dquote route /\
    marks = [pos + 4; pos + 4 + List.length verb;
             pos + 4 + List.length verb + List.length ws1 + 1 + List.length ws2 + 1;
             pos + 4 + List.length verb + List.length ws1 + 1 + List.length ws2 + 1
               + List.length route] /\
    e = pos + 4 + List.length verb + List.length ws1 + 1 + List.length ws2 + 1
        + List.length route + 1.
Proof.
  unfold ROUTE_RE. intros H.
  apply one_sound in H; destruct H as [s1 [-> H]].
  apply one_sound in H; destruct H as [s2 [-> H]].
  apply one_sound in H; destruct H as [s3 [-> H]].
  apply one_sound in H; destruct H as [s4 [-> H]].
  apply open_sound in H.
  apply plus_sound in H; destruct H as [verb [s5 [-> [NV [FV H]]]]].
  apply close_sound in H.
  apply star_sound in H; destruct H as [ws1 [s6 [-> [F1 H]]]].
  apply one_sound in H; destruct H as [s7 [-> H]].
  apply star_sound in H; destruct H as [ws2 [s8 [-> [F2 H]]]].
  apply one_sound in H; destruct H as [s9 [-> H]].
  apply open_sound in H.
  apply plus_sound in H; destruct H as [route [s10 [-> [NR [FR H]]]]].
  apply close_sound in H.
  apply one_sound in H; destruct H as [s11 [-> H]].
  cbn [match_here rev app] in H. injection H as <- <-.
  exists verb, ws1, ws2, route, s11.
  split; [reflexivity|].
  split; [exact NV|].
  split.
  { eapply Forall_impl; [|exact FV]. intros c Hc. simpl in Hc.
    rewrite orb_false_r in Hc. exact Hc. }
  split.
  { eapply Forall_impl; [|exact F1]. intros c Hc. simpl in Hc.
    rewrite orb_false_r in Hc. exact Hc. }
  split.
  { eapply Forall_impl; [|exact F2]. intros c Hc. simpl in Hc.
    rewrite orb_false_r in Hc. exact Hc. }
  split; [exact NR|].
  split.
  { intros I. rewrite Forall_forall in FR. specialize (FR _ I).
    vm_compute in FR. discriminate. }
  split.
  - repeat f_equal; lia.
  - lia.
Qed.

Lemma skipn_S_tail (A : Type) (l : list A) (n : nat) (c : A) (s : list A) :
  skipn n l = c :: s -> skipn (S n) l = s.
Proof.
  revert l; induction n as [|n IH]; intros l; simpl.
  - intros ->. reflexivity.
  - destruct l as [|x l]; [discriminate|]. intros H. apply (IH _ H).
Qed.

(** Every match [finditer] reports is a match of the pattern at its
    start position. *)
Lemma finditer_from_sound (r : regex) (content : text) (s : text) :
  forall skip pos, skipn pos content = s ->
  forall start e marks,
    In (start, (e, marks)) (finditer_from r skip pos s) ->
    match_here r [] start (skipn start content) = Some (e, marks).
Proof.
  induction s as [|c s IH]; intros skip pos E start e marks; simpl; [intros []|].
  pose proof (skipn_S_tail _ _ E) as E'.
  destruct skip as [|k].
  - destruct (match_here r [] pos (c :: s)) as [[e0 ms]|] eqn:M.
    + intros [I | I].
      * injection I as <- <- <-. rewrite E. exact M.
      * apply (IH _ _ E' _ _ _ I).
    + intros I. apply (IH _ _ E' _ _ _ I).
  - intros I. apply (IH _ _ E' _ _ _ I).
Qed.

Lemma finditer_sound (r : regex) (content : text) start e marks :
  In (start, (e, marks)) (finditer r content) ->
  match_here r [] start (skipn start content) = Some (e, marks).
Proof. apply finditer_from_sound. reflexivity. Qed.

Lemma slice_middle (pre mid post : text) (a b : nat) :
  a = List.length pre -> b = List.length pre + List.length mid ->
  slice a b (pre ++ mid ++ post) = mid.
Proof.
  intros -> ->. unfold slice.
  rewrite skipn_app, skipn_all, Nat.sub_diag. simpl.
  replace (List.length pre + List.length mid - List.length pre)
    with (List.length mid + 0) by lia.
  rewrite firstn_app_2. simpl. apply app_nil_r.
Qed.

(** What a ROUTE_RE match found in [content] captures. *)
Lemma finditer_ROUTE_RE (content : text) (m : nat * mresult) :
  In m (finditer ROUTE_RE content) ->
  exists verb ws1 ws2 route pre post,
    match_key content m = (verb, route) /\
    content = pre ++ str "api." ++ verb ++ ws1 ++ [lparen] ++ ws2 ++ [dquote]
              ++ route ++ [dquote] ++ post /\
    verb <> [] /\ Forall (fun c => is_upper c = true) verb /\
    Forall (fun c => is_space c = true) ws1 /\
    Forall (fun c => is_space c = true) ws2 /\
    route <> [] /\ ~ In dquote route.
Proof.
  destruct m as [start [e marks]]. intros I.
  pose proof (finditer_sound _ _ _ _ _ I) as M.
  apply match_ROUTE_RE in M.
  destruct M as [verb [ws1 [ws2 [route [rest [E [NV [FV [F1 [F2 [NR [NQ [EM _]]]]]]]]]]]]].
  assert (C : content = firstn start content ++ skipn start content)
    by (symmetry; apply firstn_skipn).
  assert (L : List.length (firstn start content) = start).
  { apply firstn_length_le.
    destruct (Nat.le_gt_cases start (List.length content)) as [G|G]; [exact G|].
    rewrite skipn_all2 in E by lia. discriminate. }
  rewrite E in C.
  exists verb, ws1, ws2, route, (firstn start content), rest.
  split; [|split; [exact C | repeat split; assumption]].
  unfold match_key, group. simpl snd. rewrite EM. cbn [nth Nat.mul Nat.add].
  f_equal.
  - rewrite C at 1.
    change (str "api." ++ verb ++ ws1 ++ [lparen] ++ ws2 ++ [dquote] ++ route
              ++ [dquote] ++ rest)
      with (str "api." ++ verb ++ (ws1 ++ [lparen] ++ ws2 ++ [dquote] ++ route
              ++ [dquote] ++ rest)).
    rewrite (app_assoc (firstn start content)).
    apply slice_middle; rewrite length_app, L; simpl; lia.
  - rewrite C at 1.
    replace (firstn start content ++ str "api." ++ verb ++ ws1 ++ [lparen] ++ ws2
               ++ [dquote] ++ route ++ [dquote] ++ rest)
      with ((firstn start content ++ str "api." ++ verb ++ ws1 ++ [lparen] ++ ws2
               ++ [dquote]) ++ route ++ [dquote] ++ rest)
      by (repeat rewrite <- app_assoc; reflexivity).
    apply slice_middle; repeat rewrite length_app; rewrite L; simpl; lia.
Qed.

End RouteFacts.

Module FinditerFacts.
Import Re.

(** [finditer] misses no match but those that begin inside a match
    already reported. *)
Lemma finditer_from_complete (r : regex) (content : text)
      (NE : forall pos s e ms, match_here r [] pos s = Some (e, ms) -> pos < e) :
  forall s skip pos, skipn pos content = s ->
  forall q e ms,
    pos + skip <= q -> q < List.length content ->
    match_here r [] q (skipn q content) = Some (e, ms) ->
    In (q, (e, ms)) (finditer_from r skip pos s) \/
    exists start e' ms',
      In (start, (e', ms')) (finditer_from r skip pos s) /\ start < q < e'.
Proof.
  induction s as [|c s IH]; intros skip pos E q e ms Lq Lc M.
  - exfalso. pose proof (length_skipn pos content) as L. rewrite E in L.
    simpl in L. lia.
  - pose proof (RouteFacts.skipn_S_tail _ _ E) as E'.
    cbn [finditer_from]. destruct skip as [|k].
    + destruct (match_here r [] pos (c :: s)) as [[e0 ms0]|] eqn:M0.
      * pose proof (NE _ _ _ _ M0) as G.
        destruct (Nat.eq_dec q pos) as [-> | Nq].
        -- left. left. rewrite E, M0 in M. injection M as <- <-. reflexivity.
        -- destruct (Nat.lt_ge_cases q e0) as [In0 | Out0].
           ++ right. exists pos, e0, ms0. split; [left; reflexivity | lia].
           ++ destruct (IH (e0 - pos - 1) (S pos) E' q e ms ltac:(lia) Lc M)
                as [I | [st [e' [ms' [I B]]]]].
              ** left. right. exact I.
              ** right. exists st, e', ms'. split; [right; exact I | exact B].
      * destruct (Nat.eq_dec q pos) as [-> | Nq].
        -- rewrite E, M0 in M. discriminate.
        -- apply (IH 0 (S pos) E' q e ms); [lia | exact Lc | exact M].
    + apply (IH k (S pos) E' q e ms); [lia | exact Lc | exact M].
Qed.

Lemma ROUTE_RE_nonempty (pos : nat) (s : text) (e : nat) (ms : list nat) :
  match_here ROUTE_RE [] pos s = Some (e, ms) -> pos < e.
Proof.
  intros M. apply RouteFacts.match_ROUTE_RE in M.
  destruct M as [verb [ws1 [ws2 [route [rest [_ [_ [_ [_ [_ [_ [_ [_ ->]]]]]]]]]]]]].
  lia.
Qed.

Lemma finditer_ROUTE_RE_complete (content : text) (q e : nat) (ms : list nat) :
  match_here ROUTE_RE [] q (skipn q content) = Some (e, ms) ->
  In (q, (e, ms)) (finditer ROUTE_RE content) \/
  exists start e' ms',
    In (start, (e', ms')) (finditer ROUTE_RE content) /\ start < q < e'.
Proof.
  intros M. apply (@finditer_from_complete ROUTE_RE content ROUTE_RE_nonempty
                     content 0 0 eq_refl q e ms); [lia | | exact M].
  destruct (Nat.lt_ge_cases q (List.length content)) as [L | G]; [exact L|].
  rewrite skipn_all2 in M by exact G. discriminate.
Qed.

End FinditerFacts.

(** ** [build_regex] always yields a pattern that compiles *)

Module PatternFacts.
Import Re.

Lemma escape_esc (s : text) : esc (escape s).
Proof.
  induction s as [|c s IH]; simpl; [constructor|].
  destruct (is_special c) eqn:S; [apply esc_esc | apply esc_plain]; auto.
Qed.

Lemma plain_not_backslash (c : char) : plain c -> N.eqb c backslash = false.
Proof. intros H. apply (plain_not_special H). vm_compute; tauto. Qed.

Lemma name_char_plain (c : char) : atom_match name_set c = true -> plain c.
Proof.
  intros A. unfold plain. destruct (is_special c) eqn:S; [|reflexivity].
  unfold is_special, mem in S. apply existsb_exists in S.
  destruct S as [v [I E]]. apply N.eqb_eq in E. subst v.
  simpl in I.
  repeat (destruct I as [<- | I]; [vm_compute in A; discriminate|]).
  destruct I.
Qed.

Lemma colon_plain : plain colon.
Proof. reflexivity. Qed.

Lemma esc_after_plain (run rest : text) :
  Forall plain run -> esc (run ++ rest) -> esc rest.
Proof.
  induction 1 as [|c run P _ IH]; simpl; [auto|].
  intros E. inversion E as [|c' t' _ E'|d t' S E']; subst.
  - apply IH, E'.
  - unfold plain in P. vm_compute in P. discriminate.
Qed.

(** Stepping over the characters of a match. *)
Lemma sub_from_skip (r : regex) (repl : text) (run rest : text) (pos : nat) :
  sub_from r repl (List.length run) pos (run ++ rest) =
  sub_from r repl 0 (pos + List.length run) rest.
Proof.
  revert pos; induction run as [|c run IH]; intros pos; simpl.
  - rewrite Nat.add_0_r. reflexivity.
  - rewrite IH. rewrite Nat.add_succ_r. reflexivity.
Qed.

(** A PARAM_RE match: backslash, colon and a run of name characters. *)
Lemma match_PARAM_RE (pos : nat) (s : text) (e : nat) (marks : list nat) :
  match_here PARAM_RE [] pos s = Some (e, marks) ->
  exists run rest,
    s = backslash :: colon :: run ++ rest /\ run <> [] /\
    Forall (fun c => atom_match name_set c = true) run /\
    e = pos + 2 + List.length run.
Proof.
  unfold PARAM_RE. intros H.
  apply RouteFacts.one_sound in H; destruct H as [s1 [-> H]].
  apply RouteFacts.one_sound in H; destruct H as [s2 [-> H]].
  apply RouteFacts.open_sound in H.
  apply RouteFacts.plus_sound in H; destruct H as [run [rest [-> [NR [F H]]]]].
  cbn [match_here] in H. injection H as <- _.
  exists run, rest. repeat split; auto. lia.
Qed.

Lemma match_PARAM_RE_first (pos : nat) (c : char) (s : text) :
  N.eqb c backslash = false -> match_here PARAM_RE [] pos (c :: s) = None.
Proof. intros H. simpl. rewrite H. reflexivity. Qed.

Lemma match_PARAM_RE_second (pos : nat) (d : char) (s : text) :
  N.eqb d colon = false ->
  match_here PARAM_RE [] pos (backslash :: d :: s) = None.
Proof. intros H. simpl. rewrite H. reflexivity. Qed.

Lemma special_not_colon (d : char) : is_special d = true -> N.eqb d colon = false.
Proof.
  intros S. destruct (N.eqb d colon) eqn:E; [|reflexivity].
  apply N.eqb_eq in E. subst d. vm_compute in S. discriminate.
Qed.

Lemma sub_esc (repl : text) (n : nat) :
  forall t, List.length t <= n -> esc t ->
  forall pos,
    exists u, sub_from PARAM_RE repl 0 pos t = u /\
      (repl = str "[^/]+" -> subbed u).
Proof.
  induction n as [|n IH]; intros t L E pos.
  - destruct t; [|simpl in L; lia]. exists []. split; [reflexivity|]. constructor.
  - inversion E as [|c t' P E'|d t' Sd E']; subst.
    + exists []. split; [reflexivity|]. constructor.
    + simpl in L.
      destruct (IH t' ltac:(lia) E' (S pos)) as [u [Eu Hu]].
      exists (c :: u). split.
      * cbn [sub_from]. rewrite match_PARAM_RE_first by (apply plain_not_backslash; exact P).
        rewrite Eu. reflexivity.
      * intros R. apply subbed_plain; auto.
    + simpl in L. cbn [sub_from].
      rewrite match_PARAM_RE_second by (apply special_not_colon; exact Sd).
      cbn [sub_from].
      destruct (match_here PARAM_RE [] (S pos) (d :: t')) as [[e ms]|] eqn:M.
      * apply match_PARAM_RE in M.
        destruct M as [run [rest [Et [NR [F ->]]]]].
        injection Et as -> ->.
        assert (Er : esc rest).
        { apply (@esc_after_plain (colon :: run)); [|exact E'].
          constructor; [exact colon_plain|].
          eapply Forall_impl; [|exact F]. intros c. apply name_char_plain. }
        replace (S pos + 2 + List.length run - S pos - 1)
          with (List.length (colon :: run)) by (simpl; lia).
        change (colon :: run ++ rest) with ((colon :: run) ++ rest).
        rewrite sub_from_skip.
        simpl in L. rewrite length_app in L.
        destruct (IH rest ltac:(lia) Er (S (S pos) + List.length (colon :: run)))
          as [u [Eu Hu]].
        exists (backslash :: repl ++ u). split; [rewrite Eu; reflexivity|].
        intros ->. apply subbed_param. auto.
      * destruct (IH t' ltac:(lia) E' (S (S pos))) as [u [Eu Hu]].
        exists (backslash :: d :: u). split; [rewrite Eu; reflexivity|].
        intros R. apply subbed_esc; auto.
Qed.

Lemma sub_subbed (s : text) :
  subbed (sub PARAM_RE (str "[^/]+") (escape s)).
Proof.
  destruct (@sub_esc (str "[^/]+") (List.length (escape s)) (escape s)
              (le_n _) (escape_esc s) 0) as [u [E H]].
  unfold sub. rewrite E. apply H. reflexivity.
Qed.

Lemma subbed_not_star (t : text) : subbed t -> starts_with [star_c] t = false.
Proof.
  destruct 1 as [|c t P _|d t _ _|t _]; try reflexivity.
  change (starts_with [star_c] (c :: t)) with (N.eqb star_c c && true).
  rewrite N.eqb_sym.
  rewrite (plain_not_special P) by (vm_compute; tauto). reflexivity.
Qed.

Lemma replace_subbed (t : text) :
  subbed t -> pat (replace (str "\*") (str "[^\s]*") t).
Proof.
  unfold replace. induction 1 as [|c t P _ IH|d t S H IH|t H IH].
  - constructor.
  - cbn [replace_from].
    change (starts_with (str "\*") (c :: t))
      with (N.eqb backslash c && starts_with [star_c] t).
    rewrite N.eqb_sym, (plain_not_backslash P). cbn [andb].
    apply pat_plain; auto.
  - cbn [replace_from].
    change (starts_with (str "\*") (backslash :: d :: t))
      with (N.eqb star_c d && true).
    destruct (N.eqb star_c d) eqn:Q; cbn [andb].
    + change (List.length (str "\*") - 1) with 1. cbn [replace_from].
      apply pat_wild. exact IH.
    + cbn [replace_from].
      change (starts_with (str "\*") (d :: t))
        with (N.eqb backslash d && starts_with [star_c] t).
      rewrite (subbed_not_star H), andb_false_r.
      apply pat_esc; auto.
  - change (replace_from (str "\*") (str "[^\s]*") 0
              (backslash :: str "[^/]+" ++ t))
      with (backslash :: str "[^/]+" ++ replace_from (str "\*") (str "[^\s]*") 0 t).
    apply pat_param. exact IH.
Qed.

Lemma build_pattern_pat (ep : Endpoint) : pat (build_pattern ep).
Proof. unfold build_pattern. apply replace_subbed, sub_subbed. Qed.

End PatternFacts.

Module CompileFacts.
Import Re PatternFacts.

Lemma special_not_word (d : char) :
  is_special d = true -> N.eqb d 115 = false /\ is_alnum d = false.
Proof.
  intros Sd. unfold is_special, mem in Sd. apply existsb_exists in Sd.
  destruct Sd as [v [I E]]. apply N.eqb_eq in E. subst v. simpl in I.
  repeat (destruct I as [<- | I]; [split; reflexivity|]). destruct I.
Qed.

(** A pattern text never begins with a repetition mark. *)
Lemma pat_head (t : text) :
  pat t ->
  match t with
  | d :: _ => mem d [42; 43; 63; 123]%N = false
  | [] => True
  end.
Proof.
  destruct 1 as [|c t P _|d t _ _|t _|t _].
  - exact I.
  - apply (plain_mem P). intros d Hd. vm_compute in Hd |- *. tauto.
  - reflexivity.
  - reflexivity.
  - reflexivity.
Qed.

Lemma pat_quant_one (t : text) : pat t -> parse_quant t = Some (One, t).
Proof.
  intros H. pose proof (pat_head H) as Q. destruct t as [|d t]; [reflexivity|].
  unfold parse_quant. unfold mem in Q. cbn [existsb] in Q.
  rewrite !orb_false_iff in Q. destruct Q as [Q1 [Q2 [Q3 [Q4 _]]]].
  unfold star_c, plus_c, mem. cbn [existsb]. rewrite Q1, Q2, Q3, Q4. reflexivity.
Qed.

Lemma pat_quant_after (t : text) :
  pat t ->
  parse_quant (star_c :: t) = Some (Star, t) /\
  parse_quant (plus_c :: t) = Some (Plus, t).
Proof.
  intros H. pose proof (pat_head H) as Q. unfold parse_quant.
  destruct t as [|d t]; [split; reflexivity|].
  change (N.eqb star_c star_c) with true. change (N.eqb plus_c star_c) with false.
  change (N.eqb plus_c plus_c) with true. cbv iota. rewrite Q. split; reflexivity.
Qed.

Lemma parse_pat (t : text) :
  pat t -> forall fuel, List.length t < fuel -> exists r, parse fuel 0 t = Some r.
Proof.
  induction 1 as [|c t P H IH|d t Sd H IH|t H IH|t H IH]; intros fuel L.
  - destruct fuel; [simpl in L; lia|]. exists []. reflexivity.
  - destruct fuel as [|fuel]; [simpl in L; lia|]. simpl in L.
    destruct (IH fuel ltac:(lia)) as [r R].
    exists (NAtom (ALit c) One :: r).
    cbn [parse].
    rewrite (@plain_not_special c backslash P) by (vm_compute; tauto).
    rewrite (@plain_not_special c lbrack P) by (vm_compute; tauto).
    rewrite (@plain_not_special c caret P) by (vm_compute; tauto).
    rewrite (@plain_not_special c lparen P) by (vm_compute; tauto).
    rewrite (@plain_not_special c rparen P) by (vm_compute; tauto).
    rewrite (@plain_mem c [42; 43; 63; 123; 124; 36; 46]%N P)
      by (intros d Hd; vm_compute in Hd |- *; tauto).
    rewrite (pat_quant_one H), R. reflexivity.
  - destruct fuel as [|fuel]; [simpl in L; lia|]. simpl in L.
    destruct (IH fuel ltac:(lia)) as [r R].
    exists (NAtom (ALit d) One :: r).
    destruct (special_not_word d Sd) as [W1 W2].
    cbn [parse]. change (N.eqb backslash backslash) with true. cbv iota.
    rewrite W1, W2, (pat_quant_one H), R. reflexivity.
  - simpl in L.
    do 4 (destruct fuel as [|fuel]; [lia|]).
    destruct (IH fuel ltac:(lia)) as [r R].
    destruct (pat_quant_after H) as [_ Q].
    exists ([NAtom (ALit lbrack) One; NBol; NAtom (ALit slash) One;
            NAtom (ALit rbrack) Plus] ++ r).
    change (backslash :: str "[^/]+" ++ t)
      with (backslash :: lbrack :: caret :: slash :: rbrack :: plus_c :: t).
    cbn [parse]. change (N.eqb backslash backslash) with true. cbv iota.
    change (N.eqb lbrack 115) with false. change (is_alnum lbrack) with false.
    cbv iota.
    change (parse_quant (caret :: slash :: rbrack :: plus_c :: t))
      with (Some (One, caret :: slash :: rbrack :: plus_c :: t)).
    cbv iota beta.
    change (N.eqb caret backslash) with false.
    change (N.eqb caret lbrack) with false.
    change (N.eqb caret caret) with true. 
    change (mem slash [42; 43; 63; 123]%N) with false. cbv iota.
    change (N.eqb slash backslash) with false.
    change (N.eqb slash lbrack) with false.
    change (N.eqb slash caret) with false.
    change (N.eqb slash lparen) with false.
    change (N.eqb slash rparen) with false.
    change (mem slash [42; 43; 63; 123; 124; 36; 46]%N) with false. cbv iota.
    change (parse_quant (rbrack :: plus_c :: t))
      with (Some (One, rbrack :: plus_c :: t)).
    cbv iota beta.
    change (N.eqb rbrack backslash) with false.
    change (N.eqb rbrack lbrack) with false.
    change (N.eqb rbrack caret) with false.
    change (N.eqb rbrack lparen) with false.
    change (N.eqb rbrack rparen) with false.
    change (mem rbrack [42; 43; 63; 123; 124; 36; 46]%N) with false. cbv iota.
    rewrite Q, R. reflexivity.
  - simpl in L.
    destruct fuel as [|fuel]; [lia|].
    destruct (IH fuel ltac:(lia)) as [r R].
    destruct (pat_quant_after H) as [Q _].
    exists (NAtom (ASet true [ISpace]) Star :: r).
    assert (PS : parse_set fuel (backslash :: 115%N :: rbrack :: star_c :: t) []
                 = Some ([ISpace], star_c :: t)).
    { destruct fuel as [|[|f]]; [lia | lia | reflexivity]. }
    change (str "[^\s]*" ++ t)
      with (lbrack :: caret :: backslash :: 115%N :: rbrack :: star_c :: t).
    cbn [parse]. change (N.eqb lbrack backslash) with false.
    change (N.eqb lbrack lbrack) with true. change (N.eqb caret caret) with true.
    cbv iota. rewrite PS, Q, R. reflexivity.
Qed.

End CompileFacts.

(** Whatever the path, [re.compile] accepts the pattern. *)
Lemma build_regex_total (ep : Endpoint) : exists r, build_regex ep = Some r.
Proof.
  unfold build_regex, Re.compile.
  apply CompileFacts.parse_pat; [apply PatternFacts.build_pattern_pat | lia].
Qed.

(** ** A declaration is matched *)

Module GreedyFacts.
Import Re.

(** A run of characters that cannot go on is taken whole when the rest
    then matches. *)
Lemma rep_greedy (p : char -> bool) (k : nat -> text -> option mresult)
      (run rest : text) (res : mresult) :
  Forall (fun c => p c = true) run ->
  match rest with
  | c :: _ => p c = false
  | [] => True
  end ->
  forall pos, k (pos + List.length run) rest = Some res ->
              rep p k pos (run ++ rest) = Some res.
Proof.
  intros F E. induction F as [|c run P _ IH]; intros pos K.
  - simpl in *. rewrite Nat.add_0_r in K.
    destruct rest as [|d rest]; simpl; [exact K|]. rewrite E. exact K.
  - simpl. rewrite P. simpl in K. rewrite Nat.add_succ_r in K.
    rewrite (IH (S pos) K). reflexivity.
Qed.

Lemma lit_step (c : char) (r : regex) (marks : list nat) (pos : nat) (s : text)
      (res : mresult) :
  match_here r marks (S pos) s = Some res ->
  match_here (NAtom (ALit c) One :: r) marks pos (c :: s) = Some res.
Proof. intros H. simpl. rewrite N.eqb_refl. exact H. Qed.

Lemma open_step (r : regex) (marks : list nat) (pos : nat) (s : text)
      (res : mresult) :
  match_here r (pos :: marks) pos s = Some res ->
  match_here (NOpen :: r) marks pos s = Some res.
Proof. exact (fun H => H). Qed.

Lemma close_step (r : regex) (marks : list nat) (pos : nat) (s : text)
      (res : mresult) :
  match_here r (pos :: marks) pos s = Some res ->
  match_here (NClose :: r) marks pos s = Some res.
Proof. exact (fun H => H). Qed.

Lemma star_greedy (a : atom) (r : regex) (marks : list nat)
      (run rest : text) (res : mresult) (pos : nat) :
  Forall (fun c => atom_match a c = true) run ->
  match rest with
  | c :: _ => atom_match a c = false
  | [] => True
  end ->
  match_here r marks (pos + List.length run) rest = Some res ->
  match_here (NAtom a Star :: r) marks pos (run ++ rest) = Some res.
Proof. intros F E K. simpl. apply rep_greedy; assumption. Qed.

Lemma plus_greedy (a : atom) (r : regex) (marks : list nat)
      (run rest : text) (res : mresult) (pos : nat) :
  run <> [] ->
  Forall (fun c => atom_match a c = true) run ->
  match rest with
  | c :: _ => atom_match a c = false
  | [] => True
  end ->
  match_here r marks (pos + List.length run) rest = Some res ->
  match_here (NAtom a Plus :: r) marks pos (run ++ rest) = Some res.
Proof.
  intros NE F E K. destruct run as [|c run]; [contradiction|].
  inversion F as [|? ? P F']; subst.
  simpl. rewrite P. apply rep_greedy; [exact F' | exact E|].
  simpl in K. rewrite Nat.add_succ_r in K. exact K.
Qed.

Lemma upper_not_space (c : char) : is_space c = true -> is_upper c = false.
Proof.
  intros Sp. destruct (is_upper c) eqn:U; [|reflexivity].
  unfold is_upper, in_range in U. apply andb_true_iff in U.
  destruct U as [U1 U2]. apply N.leb_le in U1. apply N.leb_le in U2.
  unfold is_space, in_range, mem in Sp. cbn [existsb] in Sp.
  repeat (apply orb_true_iff in Sp; destruct Sp as [Sp | Sp]);
    repeat (apply andb_true_iff in Sp; destruct Sp as [? Sp]);
    repeat match goal with
           | H : (_ <=? _)%N = true |- _ => apply N.leb_le in H
           | H : (_ =? _)%N = true |- _ => apply N.eqb_eq in H
           end; try lia; try discriminate.
Qed.

(** ROUTE_RE at a declaration: the match ends behind the closing quote
    and the marks stand around the method and the path. *)
Lemma match_declaration (verb ws1 ws2 route post : text) (pos : nat) :
  verb <> [] -> Forall (fun c => is_upper c = true) verb ->
  Forall (fun c => is_space c = true) ws1 ->
  Forall (fun c => is_space c = true) ws2 ->
  route <> [] -> ~ In dquote route ->
  exists e m0 m1 m2 m3,
    match_here ROUTE_RE [] pos (declaration verb ws1 ws2 route ++ post) =
      Some (e, [m0; m1; m2; m3]) /\
    m0 = pos + 4 /\ m1 = pos + 4 + List.length verb /\
    m2 = pos + 4 + List.length verb + List.length ws1 + 1 + List.length ws2 + 1 /\
    m3 = m2 + List.length route /\
    e = pos + List.length (declaration verb ws1 ws2 route).
Proof.
  intros NV FV F1 F2 NR NQ.
  assert (T : declaration verb ws1 ws2 route ++ post =
              97%N :: 112%N :: 105%N :: 46%N ::
              verb ++ (ws1 ++ lparen :: (ws2 ++ dquote ::
                      (route ++ dquote :: post)))).
  { unfold declaration. rewrite <- !app_assoc. reflexivity. }
  rewrite T. unfold ROUTE_RE.
  do 5 eexists. split.
  - do 4 apply lit_step. apply open_step.
    apply plus_greedy; [exact NV | | |].
    + eapply Forall_impl; [|exact FV]. intros c Hc. simpl.
      rewrite orb_false_r. exact Hc.
    + destruct ws1 as [|c ws1]; [reflexivity|]. simpl.
      inversion F1; subst. rewrite orb_false_r. apply upper_not_space. assumption.
    + apply close_step. apply star_greedy.
      * eapply Forall_impl; [|exact F1]. intros c Hc. simpl.
        rewrite orb_false_r. exact Hc.
      * reflexivity.
      * apply lit_step. apply star_greedy.
        -- eapply Forall_impl; [|exact F2]. intros c Hc. simpl.
           rewrite orb_false_r. exact Hc.
        -- reflexivity.
        -- apply lit_step. apply open_step.
           apply plus_greedy; [exact NR | | reflexivity |].
           ++ apply Forall_forall. intros c Ic. simpl. rewrite orb_false_r.
              apply negb_true_iff. apply N.eqb_neq. intros E. apply NQ.
              subst c. exact Ic.
           ++ apply close_step. apply lit_step.
              cbn [match_here rev app]. reflexivity.
  - unfold declaration. repeat rewrite length_app. simpl. repeat split; lia.
Qed.

End GreedyFacts.

(** ** The order of the matches *)

Module OrderFacts.
Import Re.

(** The matches [finditer] reports start at increasing positions. *)
Lemma finditer_from_starts (r : regex) (s : text) :
  forall skip pos,
    Forall (fun m => pos + skip <= fst m) (finditer_from r skip pos s) /\
    StronglySorted (fun m m' : nat * mresult => fst m < fst m')
                   (finditer_from r skip pos s).
Proof.
  induction s as [|c s IH]; intros skip pos; simpl.
  - split; constructor.
  - destruct skip as [|k].
    + destruct (match_here r [] pos (c :: s)) as [[e ms]|].
      * destruct (IH (e - pos - 1) (S pos)) as [B St].
        split.
        -- constructor; [simpl; lia|].
           eapply Forall_impl; [|exact B]. intros m Hm. simpl in *. lia.
        -- constructor; [exact St|].
           eapply Forall_impl; [|exact B]. intros m Hm. simpl in *. lia.
      * destruct (IH 0 (S pos)) as [B St]. split; [|exact St].
        eapply Forall_impl; [|exact B]. intros m Hm. simpl in *. lia.
    + destruct (IH k (S pos)) as [B St]. split; [|exact St].
      eapply Forall_impl; [|exact B]. intros m Hm. simpl in *. lia.
Qed.

End OrderFacts.

Lemma StronglySorted_map (A B : Type) (R : A -> A -> Prop) (R' : B -> B -> Prop)
      (f : A -> B) (l : list A) :
  (forall x y, R x y -> R' (f x) (f y)) ->
  StronglySorted R l -> StronglySorted R' (map f l).
Proof.
  intros H. induction 1 as [|x l S IH F]; simpl; constructor; [exact IH|].
  apply Forall_map. eapply Forall_impl; [|exact F]. intros y. apply H.
Qed.

(** ** The occurrences [finditer] reports *)

Module SpanFacts.
Import Re.

(** A match of ROUTE_RE found in [content] is an occurrence of the
    declaration shape, with the method and the path it captures. *)
Lemma finditer_occurrence (content : text) (start e : nat) (marks : list nat) :
  In (start, (e, marks)) (finditer ROUTE_RE content) ->
  occurrence content start e (group content marks 0) (group content marks 1).
Proof.
  intros I.
  pose proof (RouteFacts.finditer_sound _ _ _ _ _ I) as M.
  apply RouteFacts.match_ROUTE_RE in M.
  destruct M as [verb [ws1 [ws2 [route [rest [E [NV [FV [F1 [F2 [NR [NQ [EM Ee]]]]]]]]]]]]].
  assert (C : content = firstn start content ++ skipn start content)
    by (symmetry; apply firstn_skipn).
  assert (L : List.length (firstn start content) = start).
  { apply firstn_length_le.
    destruct (Nat.le_gt_cases start (List.length content)) as [G|G]; [exact G|].
    rewrite skipn_all2 in E by lia. discriminate. }
  rewrite E in C.
  assert (G0 : group content marks 0 = verb).
  { unfold group. rewrite EM. cbn [nth Nat.mul Nat.add]. rewrite C at 1.
    change (str "api." ++ verb ++ ws1 ++ [lparen] ++ ws2 ++ [dquote] ++ route
              ++ [dquote] ++ rest)
      with (str "api." ++ verb ++ (ws1 ++ [lparen] ++ ws2 ++ [dquote] ++ route
              ++ [dquote] ++ rest)).
    rewrite (app_assoc (firstn start content)).
    apply RouteFacts.slice_middle; rewrite length_app, L; simpl; lia. }
  assert (G1 : group content marks 1 = route).
  { unfold group. rewrite EM. cbn [nth Nat.mul Nat.add]. rewrite C at 1.
    replace (firstn start content ++ str "api." ++ verb ++ ws1 ++ [lparen] ++ ws2
               ++ [dquote] ++ route ++ [dquote] ++ rest)
      with ((firstn start content ++ str "api." ++ verb ++ ws1 ++ [lparen] ++ ws2
               ++ [dquote]) ++ route ++ [dquote] ++ rest)
      by (repeat rewrite <- app_assoc; reflexivity).
    apply RouteFacts.slice_middle; repeat rewrite length_app; rewrite L; simpl; lia. }
  rewrite G0, G1.
  exists (firstn start content), ws1, ws2, rest.
  split.
  { rewrite C at 1. unfold declaration. repeat rewrite <- app_assoc. reflexivity. }
  split; [exact L|]. split.
  { rewrite Ee. unfold declaration. repeat rewrite length_app. simpl. lia. }
  repeat split; assumption.
Qed.

(** An occurrence is matched by ROUTE_RE where it begins, and the match
    captures its method and its path. *)
Lemma occurrence_match (content : text) (q e : nat) (verb route : text) :
  occurrence content q e verb route ->
  exists ms,
    match_here ROUTE_RE [] q (skipn q content) = Some (e, ms) /\
    group content ms 0 = verb /\ group content ms 1 = route.
Proof.
  intros [pre [ws1 [ws2 [post [C [L [Ee [NV [FV [F1 [F2 [NR NQ]]]]]]]]]]]].
  destruct (GreedyFacts.match_declaration post q NV FV F1 F2 NR NQ)
    as [e' [m0 [m1 [m2 [m3 [M [E0 [E1 [E2 [E3 E4]]]]]]]]]].
  assert (Sk : skipn q content = declaration verb ws1 ws2 route ++ post).
  { rewrite C, <- L, skipn_app, skipn_all, Nat.sub_diag. reflexivity. }
  exists [m0; m1; m2; m3]. rewrite Sk, M, Ee, E4.
  split; [reflexivity|]. unfold group. cbn [nth Nat.mul Nat.add]. split.
  - rewrite C. unfold declaration.
    replace (pre ++ (str "api." ++ verb ++ ws1 ++ [lparen] ++ ws2 ++
                     [dquote] ++ route ++ [dquote]) ++ post)
      with ((pre ++ str "api.") ++ verb ++
            (ws1 ++ [lparen] ++ ws2 ++ [dquote] ++ route ++ [dquote] ++ post))
      by (repeat rewrite <- app_assoc; reflexivity).
    apply RouteFacts.slice_middle; rewrite length_app; simpl; lia.
  - rewrite C. unfold declaration.
    replace (pre ++ (str "api." ++ verb ++ ws1 ++ [lparen] ++ ws2 ++
                     [dquote] ++ route ++ [dquote]) ++ post)
      with ((pre ++ str "api." ++ verb ++ ws1 ++ [lparen] ++ ws2 ++ [dquote])
            ++ route ++ ([dquote] ++ post))
      by (repeat rewrite <- app_assoc; reflexivity).
    apply RouteFacts.slice_middle; repeat rewrite length_app; simpl; lia.
Qed.

(** No match [finditer] reports begins before the one in front of it has
    ended. *)
Lemma finditer_from_apart (r : regex)
      (NE : forall pos s e ms, match_here r [] pos s = Some (e, ms) -> pos < e)
      (s : text) :
  forall skip pos,
    StronglySorted (fun m m' : nat * mresult => fst (snd m) <= fst m')
                   (finditer_from r skip pos s).
Proof.
  induction s as [|c s IH]; intros skip pos; simpl; [constructor|].
  destruct skip as [|k]; [|apply IH].
  destruct (match_here r [] pos (c :: s)) as [[e ms]|] eqn:M; [|apply IH].
  constructor; [apply IH|].
  destruct (OrderFacts.finditer_from_starts r s (e - pos - 1) (S pos)) as [B _].
  pose proof (NE _ _ _ _ M) as G.
  eapply Forall_impl; [|exact B]. intros m Hm. simpl in *. lia.
Qed.

Lemma spans_reported (content : text) : reported content (spans content).
Proof.
  unfold reported, spans. split; [|split].
  - apply Forall_map. apply Forall_forall. intros [start [e marks]] I.
    simpl. apply finditer_occurrence. exact I.
  - eapply StronglySorted_map;
      [|apply (@finditer_from_apart ROUTE_RE FinditerFacts.ROUTE_RE_nonempty)].
    intros x y L. exact L.
  - intros q e verb route O.
    destruct (occurrence_match O) as [ms [M [G0 G1]]].
    destruct (FinditerFacts.finditer_ROUTE_RE_complete _ _ M)
      as [I | [start [e' [ms' [I B]]]]].
    + left. apply in_map_iff. exists (q, (e, ms)). simpl.
      rewrite G0, G1. auto.
    + right. exists start, e', (group content ms' 0, group content ms' 1).
      split; [|exact B]. apply in_map_iff. exists (start, (e', ms')). auto.
Qed.

End SpanFacts.

Module UniqueFacts.

Lemma occurrence_unique (content : text) (q e e' : nat) (v r v' r' : text) :
  occurrence content q e v r -> occurrence content q e' v' r' ->
  e = e' /\ v = v' /\ r = r'.
Proof.
  intros O O'.
  destruct (SpanFacts.occurrence_match O) as [ms [M [G0 G1]]].
  destruct (SpanFacts.occurrence_match O') as [ms' [M' [G0' G1']]].
  rewrite M in M'. injection M' as <- <-.
  rewrite <- G0, <- G1, <- G0', <- G1'. auto.
Qed.

Lemma occurrence_nonempty (content : text) (q e : nat) (v r : text) :
  occurrence content q e v r -> q < e.
Proof.
  intros [pre [ws1 [ws2 [post [_ [_ [-> _]]]]]]].
  unfold declaration. rewrite length_app. simpl. lia.
Qed.

Lemma reported_from_nil (content : text) (p : nat)
      (y : nat * nat * (text * text)) (b : list (nat * nat * (text * text))) :
  reported_from content p [] -> reported_from content p (y :: b) -> False.
Proof.
  intros [_ [_ C]] [F _]. inversion F as [|? ? [O B] _]; subst.
  destruct (C _ _ _ _ O B) as [[] | [s [t [k [[] _]]]]].
Qed.

Lemma reported_from_head (content : text) (p : nat)
      (x y : nat * nat * (text * text)) (a b : list (nat * nat * (text * text))) :
  reported_from content p (x :: a) -> reported_from content p (y :: b) ->
  fst (fst y) <= fst (fst x).
Proof.
  intros [Fa _] [Fb [Sb Cb]].
  inversion Fa as [|? ? [Ox Bx] _]; subst.
  inversion Fb as [|? ? [Oy By] Fb']; subst.
  inversion Sb as [|? ? _ Ly]; subst.
  pose proof (occurrence_nonempty Oy) as Ny.
  rewrite Forall_forall in Ly.
  destruct (Cb _ _ _ _ Ox Bx) as [[E | I] | [s [t [k [[E | I] B]]]]].
  - rewrite E. simpl. lia.
  - specialize (Ly _ I). simpl in Ly. lia.
  - rewrite E. simpl. lia.
  - specialize (Ly _ I). simpl in Ly. lia.
Qed.

Lemma reported_from_tail (content : text) (p : nat)
      (x : nat * nat * (text * text)) (a : list (nat * nat * (text * text))) :
  reported_from content p (x :: a) -> reported_from content (snd (fst x)) a.
Proof.
  intros [F [S C]].
  inversion F as [|? ? [Ox Bx] F']; subst.
  inversion S as [|? ? S' L]; subst.
  pose proof (occurrence_nonempty Ox) as Nx.
  split; [|split; [exact S'|]].
  - rewrite Forall_forall in *. intros o I.
    split; [apply (F' o I) | apply (L o I)].
  - intros q e verb route O B.
    destruct (C _ _ _ _ O ltac:(lia)) as [[E | I] | [s [t [k [[E | I] B']]]]].
    + exfalso. subst x. simpl in *. lia.
    + left; exact I.
    + exfalso. subst x. simpl in *. lia.
    + right. exists s, t, k. auto.
Qed.

Lemma reported_from_unique (content : text)
      (a : list (nat * nat * (text * text))) :
  forall p b, reported_from content p a -> reported_from content p b -> a = b.
Proof.
  induction a as [|x a IH]; intros p [|y b] Ra Rb.
  - reflexivity.
  - destruct (reported_from_nil Ra Rb).
  - destruct (reported_from_nil Rb Ra).
  - pose proof (reported_from_head Ra Rb) as L1.
    pose proof (reported_from_head Rb Ra) as L2.
    assert (E : x = y).
    { destruct Ra as [Fa _], Rb as [Fb _].
      inversion Fa as [|? ? [Ox _] _]; subst.
      inversion Fb as [|? ? [Oy _] _]; subst.
      destruct x as [[sx ex] [vx rx]], y as [[sy ey] [vy ry]]. simpl in *.
      assert (sx = sy) by lia. subst sy.
      destruct (occurrence_unique Ox Oy) as [-> [-> ->]]. reflexivity. }
    subst y. f_equal.
    apply (IH (snd (fst x))); eapply reported_from_tail; eassumption.
Qed.

End UniqueFacts.

(** There is one list of reported occurrences. *)
Lemma reported_unique (content : text) (a b : list (nat * nat * (text * text))) :
  reported content a -> reported content b -> a = b.
Proof.
  assert (H : forall l, reported content l -> reported_from content 0 l).
  { intros l [F [S C]]. split; [|split; [exact S|]].
    - eapply Forall_impl; [|exact F]. intros o O. split; [exact O | lia].
    - intros q e verb route O _. apply C, O. }
  intros Ra Rb. apply (@UniqueFacts.reported_from_unique content a 0 b); auto.
Qed.

(** ** The Endpoint list [parse_endpoints] returns *)

Lemma for_each_compile_returns (w : world) (endpoints : list Endpoint) :
  exists endpoints',
    for_each compile_endpoint endpoints w = ([], Ok endpoints') /\
    List.length endpoints' = List.length endpoints.
Proof.
  induction endpoints as [|ep rest [rest' [IH L]]].
  - exists []. split; reflexivity.
  - destruct (build_regex_total ep) as [rx B].
    exists (set_regex ep (Some rx) :: rest'). split; [|simpl; rewrite L; reflexivity].
    cbn [for_each]. unfold bind at 1. unfold compile_endpoint at 1. rewrite B.
    unfold ret at 1. unfold bind. rewrite IH. reflexivity.
Qed.

(** With main.go present and readable as UTF-8, [parse_endpoints]
    returns. *)
Lemma parse_endpoints_returns (w : world) (content : text) :
  w_exists w MAIN_FILE = true ->
  w_read_text w MAIN_FILE = ReadOk content ->
  exists endpoints,
    parse_endpoints w = ([EvExists MAIN_FILE; EvRead MAIN_FILE], Ok endpoints) /\
    List.length endpoints = List.length (dedup (found_endpoints content)).
Proof.
  intros X R. rewrite parse_endpoints_run, X, R.
  destruct (for_each_compile_returns w (dedup (found_endpoints content)))
    as [endpoints [E L]].
  exists endpoints. rewrite E. split; [reflexivity | exact L].
Qed.

Lemma compiled_keys (a b : list Endpoint) :
  Forall2 compiled a b -> map key_of b = map key_of a.
Proof.
  induction 1 as [|e e' a b [rx [_ ->]] _ IH]; simpl; [reflexivity|].
  rewrite IH. reflexivity.
Qed.

Lemma compiled_in (a b : list Endpoint) :
  Forall2 compiled a b ->
  forall e', In e' b -> exists e, In e a /\ compiled e e'.
Proof.
  induction 1 as [|e e' a b C _ IH]; simpl; [intros e' []|].
  intros x [<- | I].
  - exists e; auto.
  - destruct (IH _ I) as [y [Iy Cy]]. exists y; auto.
Qed.

Lemma found_endpoints_fresh (content : text) (ep : Endpoint) :
  In ep (found_endpoints content) ->
  exists m, In m (Re.finditer ROUTE_RE content) /\
    key_of ep = match_key content m /\
    line ep = count_upto nl (fst m) content + 1 /\
    regex ep = None /\ used ep = false /\ matches ep = [].
Proof.
  unfold found_endpoints. intros I. apply in_map_iff in I.
  destruct I as [[start [e marks]] [<- I]].
  exists (start, (e, marks)). repeat split; auto.
Qed.

Lemma found_endpoints_keys (content : text) :
  map key_of (found_endpoints content) =
  map (match_key content) (Re.finditer ROUTE_RE content).
Proof.
  unfold found_endpoints. rewrite map_map. apply map_ext.
  intros [start [e marks]]. reflexivity.
Qed.

Lemma dedup_incl (endpoints : list Endpoint) (ep : Endpoint) :
  In ep (dedup endpoints) -> In ep endpoints.
Proof.
  intros I. destruct (dedup_spec endpoints) as [_ [_ F]].
  destruct (F _ I) as [pre [post [-> _]]]. apply in_or_app. right; left; reflexivity.
Qed.

Lemma sorted_later (A : Type) (R : A -> A -> Prop) (pre post : list A) (m x : A) :
  StronglySorted R (pre ++ m :: post) -> In x post -> R m x.
Proof.
  induction pre as [|y pre IH]; simpl; intros S I.
  - inversion S as [|? ? _ F]; subst. rewrite Forall_forall in F. apply F, I.
  - inversion S; subst. apply (IH ltac:(assumption) I).
Qed.

(** C2, as the code has it.  For every text of main.go,
    [parse_endpoints] returns one Endpoint per (method, path) pair among
    the occurrences of the declaration shape that are met reading from
    left to right, an occurrence that begins inside one already met not
    counting (there is one list of these); each Endpoint carries the line of the first of these
    occurrences with its pair: the newlines before its start, plus one. *)
Theorem C2_one_endpoint_per_pair_first_line (w : world) (content : text) :
  w_exists w MAIN_FILE = true ->
  w_read_text w MAIN_FILE = ReadOk content ->
  exists endpoints occs,
    parse_endpoints w = ([EvExists MAIN_FILE; EvRead MAIN_FILE], Ok endpoints) /\
    reported content occs /\
    (forall occs', reported content occs' -> occs' = occs) /\
    NoDup (map (fun ep => (method ep, path ep)) endpoints) /\
    (forall verb route,
        In (verb, route) (map (fun ep => (method ep, path ep)) endpoints) <->
        exists start stop, In (start, stop, (verb, route)) occs) /\
    (forall ep, In ep endpoints ->
       exists start stop,
         In (start, stop, (method ep, path ep)) occs /\
         (forall start' stop',
             In (start', stop', (method ep, path ep)) occs -> start <= start') /\
         line ep =
           List.length (filter (N.eqb nl) (firstn start content)) + 1).
Proof.
  intros X R.
  destruct (parse_endpoints_returns w X R) as [endpoints [P _]].
  exists endpoints, (spans content). split; [exact P|].
  split; [apply SpanFacts.spans_reported|].
  split.
  { intros occs' R'. apply (reported_unique R'), SpanFacts.spans_reported. }
  apply parse_endpoints_ok in P.
  destruct P as [_ [_ [content' [R' F]]]].
  rewrite R in R'. injection R' as <-.
  fold compiled in F.
  pose proof (compiled_keys F) as K.
  destruct (dedup_spec (found_endpoints content)) as [ND [Hk Hf]].
  change (map (fun ep => (method ep, path ep)) endpoints)
    with (map key_of endpoints).
  rewrite K. split; [exact ND|]. split.
  - intros verb route. rewrite Hk, found_endpoints_keys. unfold spans.
    rewrite !in_map_iff. split.
    + intros [[start [e ms]] [E I]]. unfold match_key in E. simpl in E.
      exists start, e. apply in_map_iff. exists (start, (e, ms)).
      simpl. rewrite E. auto.
    + intros [start [stop I]]. apply in_map_iff in I.
      destruct I as [[st [e ms]] [E I]]. simpl in E. injection E as _ _ E0 E1.
      exists (st, (e, ms)). unfold match_key. simpl. rewrite E0, E1. auto.
  - intros ep' I.
    destruct (compiled_in F _ I) as [ep [Iep [rx [_ ->]]]].
    change (method (set_regex ep (Some rx))) with (method ep).
    change (path (set_regex ep (Some rx))) with (path ep).
    change (line (set_regex ep (Some rx))) with (line ep).
    destruct (Hf _ Iep) as [pre [post [E N]]].
    unfold found_endpoints in E.
    apply map_eq_app in E. destruct E as [pre_m [rest_m [Em [Ep Er]]]].
    apply map_eq_cons in Er. destruct Er as [m [post_m [-> [Emk Epost]]]].
    destruct m as [start [e marks]].
    assert (Q : method ep = group content marks 0 /\
                path ep = group content marks 1 /\
                line ep = count_upto nl start content + 1).
    { rewrite <- Emk. repeat split. }
    destruct Q as [Q0 [Q1 Q2]].
    exists start, e. split; [|split].
    + unfold spans. rewrite Em, map_app, in_app_iff. right. left.
      simpl. rewrite Q0, Q1. reflexivity.
    + intros start' stop' I'. unfold spans in I'.
      rewrite Em, map_app, in_app_iff in I'. destruct I' as [I' | [I' | I']].
      * exfalso. apply N. rewrite <- Ep, map_map.
        apply in_map_iff in I'. destruct I' as [[s0 [e0 ms0]] [E' I']].
        simpl in E'. injection E' as _ _ E0 E1.
        apply in_map_iff. exists (s0, (e0, ms0)). split; [|exact I'].
        unfold key_of. simpl. rewrite E0, E1. reflexivity.
      * simpl in I'. injection I' as <- _. lia.
      * apply in_map_iff in I'. destruct I' as [[s0 [e0 ms0]] [E' I']].
        simpl in E'. injection E' as <- _ _ _.
        destruct (OrderFacts.finditer_from_starts ROUTE_RE content 0 0) as [_ S].
        fold (Re.finditer ROUTE_RE content) in S. rewrite Em in S.
        pose proof (@sorted_later _ _ _ _ _ _ S I') as L. simpl in L. lia.
    + rewrite Q2. reflexivity.
Qed.

(** In [main_go_routes] GET /servers is declared on the first and on the
    third line: one Endpoint, with line 1. *)
Lemma C2_one_endpoint_per_pair_first_line_witness :
  w_exists world_routes MAIN_FILE = true /\
  w_read_text world_routes MAIN_FILE = ReadOk main_go_routes /\
  parse_endpoints world_routes =
    ([EvExists MAIN_FILE; EvRead MAIN_FILE], Ok routes_parsed) /\
  map (fun ep => (method ep, path ep, line ep)) routes_parsed =
    [(str "GET", str "/servers", 1); (str "POST", str "/servers/:id/restart", 2)] /\
  reported main_go_routes routes_occs /\
  (forall occs', reported main_go_routes occs' -> occs' = routes_occs) /\
  NoDup (map (fun ep => (method ep, path ep)) routes_parsed) /\
  (forall verb route,
      In (verb, route) (map (fun ep => (method ep, path ep)) routes_parsed) <->
      exists start stop, In (start, stop, (verb, route)) routes_occs) /\
  (forall ep, In ep routes_parsed ->
     exists start stop,
       In (start, stop, (method ep, path ep)) routes_occs /\
       (forall start' stop',
           In (start', stop', (method ep, path ep)) routes_occs ->
           start <= start') /\
       line ep =
         List.length (filter (N.eqb nl) (firstn start main_go_routes)) + 1).
Proof.
  split; [reflexivity|]. split; [reflexivity|].
  destruct (@C2_one_endpoint_per_pair_first_line world_routes main_go_routes
              eq_refl eq_refl) as [endpoints [occs [P [R [U H]]]]].
  assert (P' : parse_endpoints world_routes =
               ([EvExists MAIN_FILE; EvRead MAIN_FILE], Ok routes_parsed))
    by (vm_compute; reflexivity).
  rewrite P' in P. injection P as <-.
  assert (O : occs = routes_occs).
  { rewrite <- (U _ (SpanFacts.spans_reported main_go_routes)).
    vm_compute. reflexivity. }
  subst occs.
  split; [exact P'|]. split; [vm_compute; reflexivity|].
  split; [exact R|]. split; [exact U|]. exact H.
Defined.

(** C2 as stated fails for an occurrence that begins inside another one:
    in [main_go_nested] the path of the GET declaration holds [api.POST(],
    the text from there on has the shape of a declaration of POST, and no
    Endpoint is returned for it. *)
Lemma C2_occurrence_inside_another :
  occurrence main_go_nested 15 41 (str "POST") (str ", help) // see ") /\
  occurrence main_go_nested 0 25 (str "GET") (str "/help/api.POST(") /\
  parse_endpoints world_nested =
    ([EvExists MAIN_FILE; EvRead MAIN_FILE],
     Ok [set_regex (endpoint_at "GET" "/help/api.POST(" 1)
           (build_regex (endpoint_at "GET" "/help/api.POST(" 1))]) /\
  forall l endpoints,
    parse_endpoints world_nested = (l, Ok endpoints) ->
    ~ In (str "POST", str ", help) // see ")
         (map (fun ep => (method ep, path ep)) endpoints).
Proof.
  assert (P : parse_endpoints world_nested =
    ([EvExists MAIN_FILE; EvRead MAIN_FILE],
     Ok [set_regex (endpoint_at "GET" "/help/api.POST(" 1)
           (build_regex (endpoint_at "GET" "/help/api.POST(" 1))]))
    by (vm_compute; reflexivity).
  split; [|split; [|split; [exact P|]]].
  - exists (str "api.GET(" ++ [dquote] ++ str "/help/"), [], [],
      (str "docs" ++ [dquote] ++ [nl]).
    split; [reflexivity|]. split; [reflexivity|]. split; [reflexivity|].
    split; [discriminate|]. split; [repeat constructor|].
    split; [constructor|]. split; [constructor|]. split; [discriminate|].
    intros I. vm_compute in I. intuition discriminate.
  - exists [], [], [],
      (str ", help) // see " ++ [dquote] ++ str "docs" ++ [dquote] ++ [nl]).
    split; [reflexivity|]. split; [reflexivity|]. split; [reflexivity|].
    split; [discriminate|]. split; [repeat constructor|].
    split; [constructor|]. split; [constructor|]. split; [discriminate|].
    intros I. vm_compute in I. intuition discriminate.
  - intros l endpoints P'. rewrite P in P'. injection P' as _ <-.
    intros I. vm_compute in I. intuition discriminate.
Qed.

(** C8, as the code has it.  Every Endpoint [parse_endpoints] returns has
    a non-empty method of letters A to Z and a non-empty path without
    double quote, and stands in main.go as declared; nothing makes the
    path begin with a slash. *)
Theorem C8_method_uppercase_path_as_declared
        (w : world) (l : list event) (endpoints : list Endpoint) :
  parse_endpoints w = (l, Ok endpoints) ->
  exists content,
    w_read_text w MAIN_FILE = ReadOk content /\
    forall ep, In ep endpoints ->
      method ep <> [] /\ Forall (fun c => is_upper c = true) (method ep) /\
      path ep <> [] /\ ~ In dquote (path ep) /\
      declared_in content ep.
Proof.
  intros P. apply parse_endpoints_ok in P.
  destruct P as [_ [_ [content [R F]]]].
  exists content. split; [exact R|].
  fold compiled in F. intros ep' I.
  destruct (compiled_in F _ I) as [ep [Iep [rx [_ ->]]]].
  change (method (set_regex ep (Some rx))) with (method ep).
  change (path (set_regex ep (Some rx))) with (path ep).
  unfold declared_in.
  change (method (set_regex ep (Some rx))) with (method ep).
  change (path (set_regex ep (Some rx))) with (path ep).
  apply dedup_incl in Iep. apply found_endpoints_fresh in Iep.
  destruct Iep as [m [Im [K _]]].
  destruct (RouteFacts.finditer_ROUTE_RE _ _ Im)
    as [verb [ws1 [ws2 [route [pre [post [Km [C [NV [FV [F1 [F2 [NR NQ]]]]]]]]]]]]].
  rewrite Km in K. unfold key_of in K. injection K as Ev Er.
  rewrite Ev, Er.
  split; [exact NV|]. split; [exact FV|]. split; [exact NR|]. split; [exact NQ|].
  exists pre, ws1, ws2, post. auto.
Qed.

Lemma C8_method_uppercase_path_as_declared_witness :
  parse_endpoints world_routes =
    ([EvExists MAIN_FILE; EvRead MAIN_FILE], Ok routes_parsed) /\
  exists content,
    w_read_text world_routes MAIN_FILE = ReadOk content /\
    forall ep, In ep routes_parsed ->
      method ep <> [] /\ Forall (fun c => is_upper c = true) (method ep) /\
      path ep <> [] /\ ~ In dquote (path ep) /\
      declared_in content ep.
Proof.
  assert (P : parse_endpoints world_routes =
              ([EvExists MAIN_FILE; EvRead MAIN_FILE], Ok routes_parsed))
    by (vm_compute; reflexivity).
  split; [exact P|].
  exact (C8_method_uppercase_path_as_declared world_routes P).
Defined.

(** C8 as stated fails: [api.GET("servers", handler)] is extracted with
    the path [servers], which does not begin with a slash. *)
Lemma C8_path_without_leading_slash :
  exists l ep,
    parse_endpoints world_bare_route = (l, Ok [ep]) /\
    method ep = str "GET" /\ path ep = str "servers" /\
    starts_with (str "/") (path ep) = false.
Proof.
  eexists; eexists. split; [vm_compute; reflexivity|].
  repeat split.
Qed.

(** ** Running the loops *)

Lemma for_each_ok (A B : Type) (f : A -> M B) (ev : A -> list event)
      (val : A -> B) (w : world) (l : list A) :
  (forall a, In a l -> f a w = (ev a, Ok (val a))) ->
  for_each f l w = (flat_map ev l, Ok (map val l)).
Proof.
  induction l as [|a l IH]; intros H; [reflexivity|].
  cbn [for_each]. unfold bind at 1. rewrite (H a (or_introl eq_refl)).
  unfold bind. rewrite IH by (intros b I; apply H; right; exact I).
  unfold ret. simpl. rewrite app_nil_r. reflexivity.
Qed.

Lemma concat_keep (A : Type) (keep : A -> bool) (l : list A) :
  List.concat (map (fun a => if keep a then [a] else []) l) = filter keep l.
Proof.
  induction l as [|a l IH]; simpl; [reflexivity|].
  rewrite IH. destruct (keep a); reflexivity.
Qed.

Lemma flat_map_singleton (A B : Type) (f : A -> B) (l : list A) :
  flat_map (fun a => [f a]) l = map f l.
Proof. induction l as [|a l IH]; simpl; [reflexivity | rewrite IH; reflexivity]. Qed.

Lemma iter_ui_files_run (w : world) :
  iter_ui_files w = (ui_events w, Ok (ui_files w)).
Proof.
  unfold iter_ui_files, bind at 1.
  rewrite (@for_each_ok _ _ _
             (fun base => EvExists base ::
                if w_exists w base
                then EvRglob base :: map EvIsDir (map (app base) (w_rglob w base))
                else [])
             (fun base => if w_exists w base then
                filter (fun p => negb (w_is_dir w p) &&
                                 in_extensions (lower (suffix p)))
                       (map (app base) (w_rglob w base))
              else [])).
  - unfold ret. simpl. rewrite !app_nil_r.
    unfold ui_events, ui_files. simpl. rewrite !app_nil_r. reflexivity.
  - intros base _. unfold bind at 1, path_exists.
    destruct (w_exists w base); simpl; [|reflexivity].
    unfold bind at 1, rglob. unfold bind.
    rewrite (@for_each_ok _ _ _ (fun p => [EvIsDir p])
               (fun p => if negb (w_is_dir w p) &&
                            in_extensions (lower (suffix p))
                         then [p] else [])).
    + unfold ret. simpl. rewrite app_nil_r, concat_keep.
      rewrite flat_map_singleton. reflexivity.
    + intros p _. unfold is_dir, ret. simpl.
      destruct (w_is_dir w p); simpl; [reflexivity|].
      destruct (in_extensions (lower (suffix p))); reflexivity.
Qed.

Lemma scan_files_run (w : world) (files : list Path) :
  forall endpoints,
    scan_files files endpoints w =
    (map EvRead (opened w files),
     if existsb (os_error w) files then Raise OSError
     else Ok (map (scan_all (decoded w files)) endpoints)).
Proof.
  induction files as [|p files IH]; intros endpoints.
  - simpl. unfold ret, scan_all. simpl. rewrite map_id. reflexivity.
  - cbn [scan_files existsb opened].
    change (decoded w (p :: files))
      with (match w_read_text w p with
            | ReadOk t => [(p, t)]
            | _ => []
            end ++ decoded w files).
    unfold bind, try_decode, read_text.
    replace (os_error w p)
      with (match w_read_text w p with ReadOSError => true | _ => false end)
      by reflexivity.
    destruct (w_read_text w p) as [txt| |]; cbn [orb app].
    + rewrite IH, map_map. reflexivity.
    + rewrite IH. reflexivity.
    + reflexivity.
Qed.

Lemma scan_usage_run (w : world) (endpoints : list Endpoint) :
  scan_usage endpoints w =
  (ui_events w ++ map EvRead (opened w (ui_files w)),
   if existsb (os_error w) (ui_files w) then Raise OSError
   else Ok (map (scan_all (participants w)) endpoints)).
Proof.
  unfold scan_usage, bind. rewrite iter_ui_files_run, scan_files_run.
  reflexivity.
Qed.

(** ** One Endpoint through the scan *)

Lemma scan_endpoint_used (txt : text) (rel : Path) (ep : Endpoint) :
  used ep = true -> scan_endpoint txt rel ep = ep.
Proof. unfold scan_endpoint. intros ->. reflexivity. Qed.

Lemma scan_all_used (fs : list (Path * text)) (ep : Endpoint) :
  used ep = true -> scan_all fs ep = ep.
Proof.
  unfold scan_all. revert ep; induction fs as [|[p t] fs IH]; intros ep U; simpl.
  - reflexivity.
  - rewrite (scan_endpoint_used _ _ _ U). apply IH, U.
Qed.

Lemma scan_all_app (a b : list (Path * text)) (ep : Endpoint) :
  scan_all (a ++ b) ep = scan_all b (scan_all a ep).
Proof. unfold scan_all. apply fold_left_app. Qed.

Lemma scan_all_no_match (fs : list (Path * text)) (ep : Endpoint) (rx : Re.regex) :
  regex ep = Some rx ->
  (forall p t, In (p, t) fs -> Re.search rx t = false) ->
  scan_all fs ep = ep.
Proof.
  unfold scan_all. induction fs as [|[p t] fs IH]; intros R N; simpl; [reflexivity|].
  assert (E : scan_endpoint t p ep = ep).
  { unfold scan_endpoint. destruct (used ep); [reflexivity|].
    rewrite R, (N p t (or_introl eq_refl)). reflexivity. }
  rewrite E. apply IH; [exact R|]. intros q u I. apply (N q u). right; exact I.
Qed.

Lemma scan_all_first_match (a b : list (Path * text)) (p : Path) (t : text)
      (ep : Endpoint) (rx : Re.regex) :
  used ep = false -> regex ep = Some rx ->
  (forall q u, In (q, u) a -> Re.search rx u = false) ->
  Re.search rx t = true ->
  scan_all (a ++ (p, t) :: b) ep = mark_used ep p.
Proof.
  intros U R N S. rewrite scan_all_app, (scan_all_no_match _ _ R N).
  change (scan_all ((p, t) :: b) ep) with (scan_all b (scan_endpoint t p ep)).
  unfold scan_endpoint. rewrite U, R, S. apply scan_all_used. reflexivity.
Qed.

Lemma decoded_app (w : world) (a b : list Path) :
  decoded w (a ++ b) = decoded w a ++ decoded w b.
Proof. unfold decoded. apply flat_map_app. Qed.

Lemma decoded_in (w : world) (files : list Path) (p : Path) (t : text) :
  In (p, t) (decoded w files) <-> In p files /\ w_read_text w p = ReadOk t.
Proof.
  unfold decoded. rewrite in_flat_map. split.
  - intros [q [I H]].
    destruct (w_read_text w q) as [u| |] eqn:R; [|destruct H|destruct H].
    destruct H as [H | []]. injection H as <- <-. auto.
  - intros [I R]. exists p. split; [exact I|]. rewrite R. left; reflexivity.
Qed.

Lemma scan_all_unused_fixed (fs : list (Path * text)) :
  forall ep, used (scan_all fs ep) = false -> scan_all fs ep = ep.
Proof.
  unfold scan_all. induction fs as [|[p t] fs IH]; intros ep U; simpl in *;
    [reflexivity|].
  pose proof (IH _ U) as E. rewrite E in U |- *.
  unfold scan_endpoint in *.
  destruct (used ep) eqn:Ue; [reflexivity|].
  destruct (regex ep) as [rx|]; [|reflexivity].
  destruct (Re.search rx t); [discriminate | reflexivity].
Qed.

Lemma scan_all_idem (fs : list (Path * text)) (ep : Endpoint) :
  scan_all fs (scan_all fs ep) = scan_all fs ep.
Proof.
  destruct (used (scan_all fs ep)) eqn:U.
  - apply scan_all_used, U.
  - pose proof (scan_all_unused_fixed fs ep U) as E. rewrite E. exact E.
Qed.

(** An Endpoint not yet used is used after the scan exactly when the
    text of one of the files matches its pattern. *)
Lemma scan_all_used_iff (fs : list (Path * text)) :
  forall ep rx,
    used ep = false -> regex ep = Some rx ->
    (used (scan_all fs ep) = true <->
     exists p t, In (p, t) fs /\ Re.search rx t = true).
Proof.
  induction fs as [|[p t] fs IH]; intros ep rx U R.
  - simpl. rewrite U. split; [discriminate | intros [p [t [[] _]]]].
  - change (scan_all ((p, t) :: fs) ep) with (scan_all fs (scan_endpoint t p ep)).
    unfold scan_endpoint. rewrite U, R.
    destruct (Re.search rx t) eqn:S.
    + rewrite scan_all_used by reflexivity. simpl.
      split; [intros _|reflexivity]. exists p, t. split; [left; reflexivity|exact S].
    + rewrite (IH ep rx U R). split.
      * intros [q [u [I H]]]. exists q, u. split; [right; exact I | exact H].
      * intros [q [u [[E | I] H]]].
        -- injection E as <- <-. congruence.
        -- exists q, u. auto.
Qed.

(** C3. In [scan_usage], an Endpoint already marked used comes out of the
    scan as it went in, whatever the files hold.  An Endpoint not yet used
    is marked on the first file, in the order [iter_ui_files] yields them,
    whose text its pattern matches: used becomes true, the path of that
    file is appended to matches, the other fields stay, and the files after
    it change nothing, whether they match or not.  Without a matching file
    the Endpoint stays as it is. *)
Theorem C3_first_match_marks_used
        (w : world) (endpoints : list Endpoint) (l0 l : list event)
        (files : list Path) (endpoints' : list Endpoint) :
  iter_ui_files w = (l0, Ok files) ->
  scan_usage endpoints w = (l, Ok endpoints') ->
  forall i ep, nth_error endpoints i = Some ep ->
    (used ep = true -> nth_error endpoints' i = Some ep) /\
    (forall rx pre f post txt,
        used ep = false -> regex ep = Some rx ->
        files = pre ++ f :: post ->
        (forall g t, In g pre -> w_read_text w g = ReadOk t ->
                     Re.search rx t = false) ->
        w_read_text w f = ReadOk txt -> Re.search rx txt = true ->
        exists e',
          nth_error endpoints' i = Some e' /\
          used e' = true /\ matches e' = matches ep ++ [f] /\
          method e' = method ep /\ path e' = path ep /\ line e' = line ep /\
          regex e' = regex ep) /\
    (forall rx,
        regex ep = Some rx ->
        (forall g t, In g files -> w_read_text w g = ReadOk t ->
                     Re.search rx t = false) ->
        nth_error endpoints' i = Some ep).
Proof.
  rewrite iter_ui_files_run, scan_usage_run.
  intros E0; injection E0 as _ <-.
  destruct (existsb (os_error w) (ui_files w)); [discriminate|].
  intros E; injection E as _ <-. intros i ep N.
  rewrite nth_error_map, N. simpl. split; [|split].
  - intros U. rewrite (scan_all_used _ _ U). reflexivity.
  - intros rx pre f post txt U R F NM RT S.
    exists (scan_all (participants w) ep). split; [reflexivity|].
    assert (Q : scan_all (participants w) ep = mark_used ep f).
    { unfold participants. rewrite F, decoded_app. cbn [decoded flat_map].
      rewrite RT. cbn [app].
      apply (@scan_all_first_match _ _ _ _ _ rx); auto.
      intros q u I. apply decoded_in in I. destruct I as [I Rq].
      apply (NM q u I Rq). }
    rewrite Q. repeat split.
  - intros rx R NM. f_equal. apply (scan_all_no_match _ _ R).
    intros p t I. apply decoded_in in I. destruct I as [I Rp].
    apply (NM p t I Rp).
Qed.

(** ** What the scan keeps *)

Lemma scan_endpoint_keeps (txt : text) (rel : Path) (e : Endpoint) :
  once e ->
  let e' := scan_endpoint txt rel e in
  method e' = method e /\ path e' = path e /\ line e' = line e /\
  regex e' = regex e /\ once e'.
Proof.
  destruct e as [m p n r u ms]. unfold once, scan_endpoint. simpl.
  intros O. destruct u; [simpl; auto 6|].
  destruct r as [rx|]; [|simpl; auto 6].
  destruct (Re.search rx txt); [|simpl; auto 6].
  simpl. do 4 (split; [reflexivity|]).
  right. split; [reflexivity|].
  destruct O as [[_ ->] | [U' _]]; [reflexivity | discriminate].
Qed.

Lemma scan_all_keeps (fs : list (Path * text)) (e : Endpoint) :
  once e ->
  method (scan_all fs e) = method e /\ path (scan_all fs e) = path e /\
  line (scan_all fs e) = line e /\ regex (scan_all fs e) = regex e /\
  once (scan_all fs e).
Proof.
  unfold scan_all. revert e; induction fs as [|[p t] fs IH]; intros e O; simpl.
  - auto.
  - destruct (scan_endpoint_keeps t p O) as [E1 [E2 [E3 [E4 O']]]].
    destruct (IH _ O') as [F1 [F2 [F3 [F4 O'']]]].
    rewrite F1, F2, F3, F4. auto.
Qed.

Lemma once_scanned (e e' : Endpoint) :
  method e' = method e -> path e' = path e -> line e' = line e ->
  regex e' = regex e -> once e' -> scanned e e'.
Proof.
  intros E1 E2 E3 E4 O. unfold scanned. repeat split; auto.
  - destruct O as [[_ ->] | [_ ->]]; simpl; lia.
  - intros U. destruct O as [[U' _] | [_ L]]; [congruence|].
    intros E; rewrite E in L; discriminate.
  - intros N. destruct O as [[_ E] | [U _]]; [contradiction | exact U].
Qed.

Lemma parse_endpoints_fresh (w : world) (l : list event) (endpoints : list Endpoint) :
  parse_endpoints w = (l, Ok endpoints) ->
  Forall (fun e => used e = false /\ matches e = [] /\ regex e <> None) endpoints.
Proof.
  intros P. apply parse_endpoints_ok in P.
  destruct P as [_ [_ [content [_ F]]]]. fold compiled in F.
  apply Forall_forall. intros e' I.
  destruct (compiled_in F _ I) as [e [Ie [rx [_ ->]]]].
  apply dedup_incl, found_endpoints_fresh in Ie.
  destruct Ie as [m [_ [_ [_ [_ [U M]]]]]].
  simpl. repeat split; auto. discriminate.
Qed.

(** C10. After [scan_usage] has returned, every Endpoint has at most one
    entry in matches, is used exactly when matches is not empty, and has
    the method, path, line and regex [parse_endpoints] gave it. *)
Theorem C10_scan_keeps_fields_one_match
        (w : world) (l0 l1 : list event) (endpoints endpoints' : list Endpoint) :
  parse_endpoints w = (l0, Ok endpoints) ->
  scan_usage endpoints w = (l1, Ok endpoints') ->
  Forall2 scanned endpoints endpoints'.
Proof.
  intros P S. apply parse_endpoints_fresh in P.
  rewrite scan_usage_run in S.
  destruct (existsb (os_error w) (ui_files w)); [discriminate|].
  injection S as _ <-.
  induction P as [|e es [U [M _]] _ IH]; simpl; constructor; [|exact IH].
  assert (O : once e) by (left; auto).
  destruct (scan_all_keeps (participants w) O) as [E1 [E2 [E3 [E4 O']]]].
  apply once_scanned; auto.
Qed.

(** ** The names of the files that are kept *)

Lemma rfind_dot_none (e : text) :
  ~ In 46%N e -> forall i found, rfind_dot e i found = found.
Proof.
  induction e as [|c e IH]; intros N i found; simpl; [reflexivity|].
  assert (Nc : N.eqb c 46 = false).
  { apply N.eqb_neq. intros E. apply N. left. exact E. }
  rewrite Nc. apply IH. intros I. apply N. right; exact I.
Qed.

Lemma rfind_dot_last (a e : text) :
  ~ In 46%N e ->
  forall i found, rfind_dot (a ++ 46%N :: e) i found = Some (i + List.length a).
Proof.
  intros N. induction a as [|c a IH]; intros i found; simpl.
  - rewrite rfind_dot_none by exact N. rewrite Nat.add_0_r. reflexivity.
  - rewrite IH. f_equal. lia.
Qed.

Lemma lower_char_dot (c : char) : lower_char c = 46%N -> c = 46%N.
Proof.
  unfold lower_char. destruct (is_upper c) eqn:U; [|auto].
  unfold is_upper, in_range in U. apply andb_true_iff in U.
  destruct U as [U _]. apply N.leb_le in U. lia.
Qed.

Lemma in_extensions_spec (x : text) :
  in_extensions x = true <-> In x TEXT_EXTENSIONS.
Proof.
  unfold in_extensions. rewrite existsb_exists. split.
  - intros [y [I E]]. apply text_eqb_eq in E. subst y. exact I.
  - intros I. exists x. split; [exact I | apply text_eqb_eq; reflexivity].
Qed.

Lemma extension_shape (x : text) :
  In x TEXT_EXTENSIONS ->
  exists tl, x = 46%N :: tl /\ tl <> [] /\ ~ In 46%N tl.
Proof.
  intros I. simpl in I.
  repeat (destruct I as [<- | I];
          [eexists; split; [reflexivity|]; split;
           [discriminate | intros J; vm_compute in J; intuition discriminate]|]).
  destruct I.
Qed.

Lemma lower_char_spec (c d : char) :
  lower_char c = d <->
  ((65 <= c <= 90)%N /\ d = (c + 32)%N) \/ (~ (65 <= c <= 90)%N /\ d = c).
Proof.
  unfold lower_char, is_upper, in_range.
  destruct ((65 <=? c)%N) eqn:A; destruct ((c <=? 90)%N) eqn:B; simpl;
    try apply N.leb_le in A; try apply N.leb_le in B;
    try apply N.leb_gt in A; try apply N.leb_gt in B;
    split; intros H; try (destruct H as [[H1 H2] | [H1 H2]]); subst;
    try reflexivity; try lia; try (left; split; [lia | reflexivity]);
    try (right; split; [lia | reflexivity]).
Qed.

Lemma lowers_to_lower (ext allowed : text) :
  lowers_to ext allowed <-> lower ext = allowed.
Proof.
  unfold lowers_to, lower. split.
  - induction 1 as [|c d ext allowed H _ IH]; simpl; [reflexivity|].
    apply lower_char_spec in H. rewrite H, IH. reflexivity.
  - intros <-. induction ext as [|c ext IH]; simpl; constructor; [|exact IH].
    apply lower_char_spec. reflexivity.
Qed.

Lemma allowed_name_lower (name : text) :
  allowed_name name <->
  exists stem ext,
    name = stem ++ ext /\ stem <> [] /\ In (lower ext) TEXT_EXTENSIONS.
Proof.
  unfold allowed_name. split.
  - intros [stem [ext [allowed [E [NS [I L]]]]]].
    apply lowers_to_lower in L. subst allowed. exists stem, ext. auto.
  - intros [stem [ext [E [NS I]]]].
    exists stem, ext, (lower ext). repeat split; auto.
    apply lowers_to_lower. reflexivity.
Qed.

(** The extension test of [iter_ui_files] on the last dot of the name. *)
Lemma suffix_test (p : Path) :
  in_extensions (lower (suffix p)) = true <->
  exists stem ext,
    last p [] = stem ++ ext /\ stem <> [] /\ In (lower ext) TEXT_EXTENSIONS.
Proof.
  split.
  - unfold suffix. cbv zeta.
    destruct (rfind_dot (last p []) 0 None) as [i|]; [|discriminate].
    destruct ((0 <? i) && (i <? List.length (last p []) - 1)) eqn:B;
      [|discriminate].
    apply andb_true_iff in B. destruct B as [B1 B2].
    apply Nat.ltb_lt in B1. apply Nat.ltb_lt in B2.
    intros H. apply in_extensions_spec in H.
    exists (firstn i (last p [])), (skipn i (last p [])).
    split; [symmetry; apply firstn_skipn|]. split; [|exact H].
    intros E. apply (f_equal (@List.length char)) in E.
    rewrite firstn_length_le in E by lia. simpl in E. lia.
  - intros [stem [ext [E [NS I]]]].
    apply in_extensions_spec.
    destruct (extension_shape I) as [tl [L [NT ND]]].
    destruct ext as [|d e]; [discriminate|].
    simpl in L. injection L as Ld Le.
    apply lower_char_dot in Ld. subst d.
    assert (Ne : ~ In 46%N e).
    { intros J. apply ND. rewrite <- Le. unfold lower.
      change 46%N with (lower_char 46%N). apply in_map. exact J. }
    assert (Le' : List.length e = List.length tl).
    { rewrite <- Le. unfold lower. symmetry. apply length_map. }
    assert (Lt : 0 < List.length tl).
    { destruct tl; [contradiction | simpl; lia]. }
    assert (Ls : 0 < List.length stem).
    { destruct stem; [contradiction | simpl; lia]. }
    unfold suffix. cbv zeta. rewrite E, rfind_dot_last by exact Ne. simpl plus.
    rewrite length_app. simpl List.length.
    assert (B : (0 <? List.length stem) &&
                (List.length stem <? List.length stem + S (List.length e) - 1)
                = true).
    { apply andb_true_iff. split; apply Nat.ltb_lt; lia. }
    rewrite B, skipn_app, skipn_all, Nat.sub_diag. simpl. exact I.
Qed.

Lemma extension_test (p : Path) :
  in_extensions (lower (suffix p)) = true <-> allowed_name (last p []).
Proof. rewrite suffix_test, allowed_name_lower. reflexivity. Qed.

Lemma lowers_to_dot (ext tl : text) :
  lowers_to ext (46%N :: tl) -> ~ In 46%N tl ->
  exists e, ext = 46%N :: e /\ ~ In 46%N e.
Proof.
  intros L ND. apply lowers_to_lower in L.
  destruct ext as [|c e]; [discriminate|]. simpl in L. injection L as Lc Le.
  apply lower_char_dot in Lc. subst c. exists e. split; [reflexivity|].
  intros J. apply ND. rewrite <- Le. unfold lower.
  change 46%N with (lower_char 46%N). apply in_map. exact J.
Qed.

(** X7. A file passes the extension test of [iter_ui_files] exactly when
    its name is a non-empty stem followed by an extension that is one of
    TEXT_EXTENSIONS once its letters A to Z are replaced by a to z, so
    .JS and .Html pass as .js and .html do.  A name without a dot, a name
    that ends in a dot and a name that is nothing but an extension do not
    pass. *)
Theorem X7_names_that_pass_the_extension_test (p : Path) :
  (in_extensions (lower (suffix p)) = true <->
   exists stem ext allowed,
     last p [] = stem ++ ext /\ stem <> [] /\
     In allowed TEXT_EXTENSIONS /\ lowers_to ext allowed) /\
  (~ In 46%N (last p []) -> in_extensions (lower (suffix p)) = false) /\
  (forall stem : text, last p [] = stem ++ [46%N] ->
                in_extensions (lower (suffix p)) = false) /\
  (forall allowed, In allowed TEXT_EXTENSIONS -> lowers_to (last p []) allowed ->
                   in_extensions (lower (suffix p)) = false).
Proof.
  split; [apply extension_test|]. split; [|split].
  - intros N. unfold suffix. cbv zeta.
    rewrite rfind_dot_none by exact N. reflexivity.
  - intros stem E. unfold suffix. cbv zeta.
    rewrite E, rfind_dot_last by (intros []).
    match goal with
    | |- context [(?a <? ?b - 1)] =>
        assert (B : (a <? b - 1) = false)
          by (apply Nat.ltb_ge; rewrite length_app; unfold text, char; simpl; lia);
        rewrite B
    end.
    rewrite andb_false_r. reflexivity.
  - intros allowed I L.
    destruct (extension_shape I) as [tl [-> [_ ND]]].
    destruct (lowers_to_dot L ND) as [e [E Ne]].
    unfold suffix. cbv zeta. rewrite E.
    pose proof (@rfind_dot_last [] e Ne 0 None) as Rf. simpl in Rf.
    simpl. rewrite Rf. reflexivity.
Qed.

(** Letter by letter, for texts that are given. *)
Ltac case_folds :=
  unfold lowers_to;
  repeat match goal with
         | |- context [str ?s] =>
             let x := eval vm_compute in (str s) in change (str s) with x
         end;
  repeat (apply Forall2_cons;
          [first [left; split; [lia | reflexivity]
                 | right; split; [lia | reflexivity]]|]);
  apply Forall2_nil.

Lemma X7_names_that_pass_the_extension_test_witness :
  in_extensions (lower (suffix [str "ui"; str "pages"; str "Index.HTML"])) = true /\
  in_extensions (lower (suffix [str "ui"; str ".HTML"])) = false.
Proof.
  split.
  - apply (proj1 (X7_names_that_pass_the_extension_test
                    [str "ui"; str "pages"; str "Index.HTML"])).
    exists (str "Index"), (str ".HTML"), (str ".html").
    split; [reflexivity|]. split; [discriminate|].
    split; [simpl; auto|].
    case_folds.
  - apply (proj2 (proj2 (proj2 (X7_names_that_pass_the_extension_test
                                  [str "ui"; str ".HTML"]))) (str ".html")).
    + simpl; auto.
    + case_folds.
Defined.

(** ** Which files take part *)

Lemma ui_files_in (w : world) (p : Path) :
  In p (ui_files w) <->
  exists base d,
    In base UI_DIRS /\ w_exists w base = true /\ In d (w_rglob w base) /\
    p = base ++ d /\ w_is_dir w p = false /\
    in_extensions (lower (suffix p)) = true.
Proof.
  unfold ui_files. rewrite in_flat_map. split.
  - intros [base [Ib I]]. destruct (w_exists w base) eqn:X; [|destruct I].
    apply filter_In in I. destruct I as [I K].
    apply in_map_iff in I. destruct I as [d [<- Id]].
    apply andb_true_iff in K. destruct K as [K1 K2].
    apply negb_true_iff in K1.
    exists base, d. repeat split; auto.
  - intros [base [d [Ib [X [Id [-> [D K]]]]]]].
    exists base. split; [exact Ib|]. rewrite X.
    apply filter_In. split; [apply in_map; exact Id|].
    rewrite D, K. reflexivity.
Qed.











(** ** The report *)

Lemma filter_used_length (endpoints : list Endpoint) :
  List.length (filter used endpoints) +
  List.length (filter (fun ep => negb (used ep)) endpoints) =
  List.length endpoints.
Proof.
  induction endpoints as [|e es IH]; simpl; [reflexivity|].
  destruct (used e); simpl; lia.
Qed.

Lemma report_run (endpoints : list Endpoint) (w : world) :
  report endpoints w = (map EvPrint (report_prints endpoints), Ok tt).
Proof.
  unfold report, report_prints. cbv zeta.
  replace (List.length endpoints -
           List.length (filter (fun ep => negb (used ep)) endpoints))
    with (List.length (filter used endpoints))
    by (pose proof (filter_used_length endpoints); lia).
  destruct (filter (fun ep => negb (used ep)) endpoints) as [|u us] eqn:F.
  - reflexivity.
  - unfold bind, print.
    rewrite (@for_each_ok _ _ _ (fun ep => [EvPrint (unused_line ep)])
               (fun _ => tt)) by reflexivity.
    rewrite flat_map_singleton. cbn [app map].
    rewrite map_app, map_map. reflexivity.
Qed.

Lemma main_run (w : world) :
  main w =
  match parse_endpoints w with
  | (l0, Raise e) => (l0, Raise e)
  | (l0, Ok []) => (l0 ++ [EvPrint (str "No API endpoints parsed.")], Ok tt)
  | (l0, Ok (ep :: rest)) =>
      match scan_usage (ep :: rest) w with
      | (l1, Raise e) => (l0 ++ l1, Raise e)
      | (l1, Ok endpoints') =>
          (l0 ++ l1 ++ map EvPrint (report_prints endpoints'), Ok tt)
      end
  end.
Proof.
  unfold main, bind at 1.
  destruct (parse_endpoints w) as [l0 [[|ep rest]|e]]; try reflexivity.
  unfold bind.
  destruct (scan_usage (ep :: rest) w) as [l1 [endpoints'|e]]; [|reflexivity].
  rewrite report_run. reflexivity.
Qed.

Lemma stdout_app (a b : list event) : stdout (a ++ b) = stdout a ++ stdout b.
Proof.
  induction a as [|e a IH]; simpl; [reflexivity|].
  destruct e; try exact IH. rewrite IH. rewrite <- !app_assoc. reflexivity.
Qed.

Lemma stdout_prints (texts : list text) : stdout (map EvPrint texts) = printed texts.
Proof.
  unfold printed. induction texts as [|t ts IH]; simpl; [reflexivity|].
  rewrite IH, <- app_assoc. reflexivity.
Qed.

Lemma stdout_silent (l : list event) :
  (forall s, ~ In (EvPrint s) l) -> stdout l = [].
Proof.
  induction l as [|e l IH]; intros H; simpl; [reflexivity|].
  destruct e; try (apply IH; intros s I; apply (H s); right; exact I).
  destruct (H s). left; reflexivity.
Qed.

Lemma scan_usage_silent (w : world) (endpoints : list Endpoint) :
  stdout (fst (scan_usage endpoints w)) = [].
Proof.
  rewrite scan_usage_run. cbn [fst]. apply stdout_silent. intros s I.
  apply in_app_or in I. destruct I as [I | I].
  - unfold ui_events in I. apply in_flat_map in I. destruct I as [base [_ I]].
    destruct I as [I | I]; [discriminate|].
    destruct (w_exists w base); [|destruct I].
    destruct I as [I | I]; [discriminate|].
    apply in_map_iff in I. destruct I as [q [E _]]. discriminate.
  - apply in_map_iff in I. destruct I as [q [E _]]. discriminate.
Qed.

Lemma filter_map_swap (A B : Type) (f : B -> bool) (g : A -> B) (l : list A) :
  filter f (map g l) = map g (filter (fun a => f (g a)) l).
Proof.
  induction l as [|a l IH]; simpl; [reflexivity|].
  rewrite IH. destruct (f (g a)); reflexivity.
Qed.

(** After the scan of [files] an Endpoint that was not used is used
    exactly when one of the files holds a match of its pattern. *)
Lemma scan_all_matched (w : world) (files : list Path) (ep : Endpoint) :
  used ep = false -> regex ep <> None ->
  used (scan_all (decoded w files) ep) = matched w files ep.
Proof.
  intros U R. unfold matched.
  destruct (regex ep) as [rx|] eqn:Rx; [clear R | contradiction].
  pose proof (@scan_all_used_iff (decoded w files) ep rx U Rx) as H.
  destruct (existsb (file_matches w rx) files) eqn:X.
  - apply H. apply existsb_exists in X. destruct X as [f [I M]].
    unfold file_matches in M.
    destruct (w_read_text w f) as [t| |] eqn:T; try discriminate.
    exists f, t. split; [apply decoded_in; auto | exact M].
  - destruct (used (scan_all (decoded w files) ep)); [|reflexivity].
    destruct (proj1 H eq_refl) as [p [t [I M]]].
    apply decoded_in in I. destruct I as [I T].
    assert (X' : existsb (file_matches w rx) files = true).
    { apply existsb_exists. exists p. split; [exact I|].
      unfold file_matches. rewrite T. exact M. }
    congruence.
Qed.

Lemma scanned_unused_line (fs : list (Path * text)) (ep : Endpoint) :
  used ep = false -> matches ep = [] ->
  unused_line (scan_all fs ep) = unused_line ep.
Proof.
  intros U M. assert (O : once ep) by (left; auto).
  destruct (scan_all_keeps fs O) as [E1 [E2 [E3 _]]].
  unfold unused_line, full_path. rewrite E1, E2, E3. reflexivity.
Qed.

(** C4, as the code has it.  With a non-empty Endpoint list the report
    gives the total, the number of Endpoints whose pattern is found in at
    least one of the files [iter_ui_files] yields, and the number of those
    whose pattern is found in none, which add up to the total; when there
    are such, they follow in the order of the list [parse_endpoints]
    returned, each as the method left-aligned and filled with spaces up to
    six columns (a longer method is printed whole), the full path and the
    line of the declaration, and then the note. *)
Theorem C4_report_counts_and_listing
        (w : world) (l0 l1 l2 : list event) (endpoints : list Endpoint)
        (files : list Path) (endpoints' : list Endpoint) :
  parse_endpoints w = (l0, Ok endpoints) ->
  endpoints <> [] ->
  iter_ui_files w = (l1, Ok files) ->
  scan_usage endpoints w = (l2, Ok endpoints') ->
  let hit := filter (matched w files) endpoints in
  let miss := filter (fun ep => negb (matched w files ep)) endpoints in
  let texts :=
    [str "Total API endpoints found: " ++ dec (List.length endpoints);
     str "Used by UI artifacts:      " ++ dec (List.length hit);
     str "Unused in UI (potential):  " ++ dec (List.length miss);
     []] ++
    match miss with
    | [] => [str "All parsed endpoints have at least one UI reference."]
    | _ :: _ =>
        [str "Endpoints without matches in ui/* or webassets/*:"] ++
        map (fun ep =>
               str "  - " ++ method ep ++
               repeat 32%N (6 - List.length (method ep)) ++ str " " ++
               str "/api" ++ path ep ++
               str " (defined line " ++ dec (line ep) ++ str ")") miss ++
        [[]; NOTE]
    end in
  List.length hit + List.length miss = List.length endpoints /\
  main w = (l0 ++ l2 ++ map EvPrint texts, Ok tt) /\
  stdout (fst (main w)) = printed texts.
Proof.
  intros P NE I S hit miss texts.
  assert (M : main w = (l0 ++ l2 ++ map EvPrint (report_prints endpoints'), Ok tt)).
  { rewrite main_run, P. destruct endpoints as [|ep rest]; [contradiction|].
    rewrite S. reflexivity. }
  pose proof (scan_usage_silent w endpoints) as Q. rewrite S in Q. cbn [fst] in Q.
  pose proof (@parse_endpoints_fresh _ _ _ P) as Fr. rewrite Forall_forall in Fr.
  apply parse_endpoints_ok in P. destruct P as [-> _].
  rewrite iter_ui_files_run in I. injection I as _ <-.
  rewrite scan_usage_run in S.
  destruct (existsb (os_error w) (ui_files w)); [discriminate|].
  injection S as _ <-.
  assert (Us : forall ep, In ep endpoints ->
                 used (scan_all (participants w) ep) = matched w (ui_files w) ep).
  { intros ep Iep. destruct (Fr ep Iep) as [U [_ R]].
    apply scan_all_matched; assumption. }
  assert (T : report_prints (map (scan_all (participants w)) endpoints) = texts).
  { unfold report_prints, texts. rewrite !filter_map_swap, !length_map.
    rewrite (filter_ext_in (fun a => used (scan_all (participants w) a))
                           (matched w (ui_files w))) by exact Us.
    rewrite (filter_ext_in (fun a => negb (used (scan_all (participants w) a)))
                           (fun ep => negb (matched w (ui_files w) ep)))
      by (intros ep Iep; rewrite (Us ep Iep); reflexivity).
    fold hit. fold miss. f_equal.
    assert (L : map unused_line (map (scan_all (participants w)) miss) =
                map (fun ep =>
                       str "  - " ++ method ep ++
                       repeat 32%N (6 - List.length (method ep)) ++ str " " ++
                       str "/api" ++ path ep ++
                       str " (defined line " ++ dec (line ep) ++ str ")") miss).
    { rewrite map_map. apply map_ext_in. intros ep Iep.
      apply filter_In in Iep. destruct Iep as [Iep _].
      destruct (Fr ep Iep) as [U [Mt _]].
      rewrite (scanned_unused_line _ _ U Mt).
      unfold unused_line, ljust, full_path. rewrite <- !app_assoc. reflexivity. }
    destruct miss as [|u us]; [reflexivity|].
    change (map (scan_all (participants w)) (u :: us))
      with (scan_all (participants w) u :: map (scan_all (participants w)) us).
    cbv iota. rewrite <- L. reflexivity. }
  rewrite T in M. split; [|split; [exact M|]].
  - unfold hit, miss. clear. induction endpoints as [|e es IH]; simpl; [reflexivity|].
    destruct (matched w (ui_files w) e); simpl; lia.
  - rewrite M. cbn [fst]. rewrite !stdout_app, stdout_prints, Q. reflexivity.
Qed.

(** C4 as stated fails on the width: the method column is six wide for
    GET and seven wide for OPTIONS. *)
Lemma C4_method_column_not_fixed_width :
  unused_line (endpoint_at "GET" "/x" 3) = str "  - GET    /api/x (defined line 3)" /\
  unused_line (endpoint_at "OPTIONS" "/x" 3) = str "  - OPTIONS /api/x (defined line 3)" /\
  List.length (ljust 6 (method (endpoint_at "GET" "/x" 3))) = 6 /\
  List.length (ljust 6 (method (endpoint_at "OPTIONS" "/x" 3))) = 7.
Proof. repeat split. Qed.

(** C6. When [parse_endpoints] returns the empty list, [main] prints the
    one line and returns; nothing but main.go was looked at. *)
Theorem C6_no_endpoints_one_line (w : world) (l : list event) :
  parse_endpoints w = (l, Ok []) ->
  main w = ([EvExists MAIN_FILE; EvRead MAIN_FILE;
             EvPrint (str "No API endpoints parsed.")], Ok tt) /\
  stdout (fst (main w)) = str "No API endpoints parsed." ++ [nl].
Proof.
  intros P. rewrite main_run, P.
  apply parse_endpoints_ok in P. destruct P as [-> _].
  split; reflexivity.
Qed.

(** A main.go without a declaration gives the empty list, not an error. *)
Lemma no_declaration_no_endpoint (w : world) (content : text) :
  w_exists w MAIN_FILE = true ->
  w_read_text w MAIN_FILE = ReadOk content ->
  Re.finditer ROUTE_RE content = [] ->
  parse_endpoints w = ([EvExists MAIN_FILE; EvRead MAIN_FILE], Ok []).
Proof.
  intros X R F. rewrite parse_endpoints_run, X, R.
  unfold found_endpoints. rewrite F. reflexivity.
Qed.

(** ** The output as a function of what is looked at *)

Lemma for_each_compile_indep (w1 w2 : world) (endpoints : list Endpoint) :
  for_each compile_endpoint endpoints w1 = for_each compile_endpoint endpoints w2.
Proof.
  induction endpoints as [|ep rest IH]; [reflexivity|].
  cbn [for_each]. unfold bind at 1 3. unfold compile_endpoint at 1 3.
  destruct (build_regex ep); [|reflexivity].
  unfold ret at 1 4. unfold bind. rewrite IH. reflexivity.
Qed.

Lemma flat_map_ext_in (A B : Type) (f g : A -> list B) (l : list A) :
  (forall a, In a l -> f a = g a) -> flat_map f l = flat_map g l.
Proof.
  induction l as [|a l IH]; intros H; simpl; [reflexivity|].
  rewrite (H a (or_introl eq_refl)), IH; [reflexivity|].
  intros b I. apply H. right; exact I.
Qed.

Lemma agree_parse (w1 w2 : world) :
  agree w1 w2 -> parse_endpoints w1 = parse_endpoints w2.
Proof.
  intros [R [X [T _]]]. rewrite !parse_endpoints_run.
  unfold missing_message. rewrite R, X, T.
  destruct (w_exists w2 MAIN_FILE); [|reflexivity].
  destruct (w_read_text w2 MAIN_FILE) as [content| |]; try reflexivity.
  rewrite (for_each_compile_indep w1 w2). reflexivity.
Qed.

Lemma agree_ui (w1 w2 : world) :
  agree w1 w2 ->
  ui_events w1 = ui_events w2 /\ ui_files w1 = ui_files w2 /\
  forall p, In p (ui_files w1) -> w_read_text w1 p = w_read_text w2 p.
Proof.
  intros [_ [_ [_ A]]]. split; [|split].
  - unfold ui_events. apply flat_map_ext_in. intros base I.
    destruct (A base I) as [X H]. rewrite <- X.
    destruct (w_exists w1 base); [|reflexivity].
    destruct (H eq_refl) as [G _]. rewrite G. reflexivity.
  - unfold ui_files. apply flat_map_ext_in. intros base I.
    destruct (A base I) as [X H]. rewrite <- X.
    destruct (w_exists w1 base); [|reflexivity].
    destruct (H eq_refl) as [G D]. rewrite <- G.
    apply filter_ext_in. intros p Ip. apply in_map_iff in Ip.
    destruct Ip as [d [<- Id]]. destruct (D d Id) as [E _]. rewrite E. reflexivity.
  - intros p I. apply ui_files_in in I.
    destruct I as [base [d [Ib [X [Id [-> [Dr K]]]]]]].
    destruct (A base Ib) as [_ H]. destruct (H X) as [_ D].
    apply (D d Id); assumption.
Qed.

Lemma read_alike (w1 w2 : world) (files : list Path) :
  (forall p, In p files -> w_read_text w1 p = w_read_text w2 p) ->
  opened w1 files = opened w2 files /\
  existsb (os_error w1) files = existsb (os_error w2) files /\
  decoded w1 files = decoded w2 files.
Proof.
  induction files as [|p files IH]; intros H; [auto|].
  destruct IH as [O [X D]]; [intros q I; apply H; right; exact I|].
  assert (E : w_read_text w1 p = w_read_text w2 p) by (apply H; left; reflexivity).
  split; [|split].
  - cbn [opened]. unfold os_error at 1 2. rewrite E, O. reflexivity.
  - cbn [existsb]. unfold os_error at 1 3. rewrite E, X. reflexivity.
  - change (decoded w1 (p :: files))
      with (match w_read_text w1 p with
            | ReadOk t => [(p, t)]
            | _ => []
            end ++ decoded w1 files).
    rewrite E, D. reflexivity.
Qed.

Lemma agree_scan (w1 w2 : world) (endpoints : list Endpoint) :
  agree w1 w2 -> scan_usage endpoints w1 = scan_usage endpoints w2.
Proof.
  intros A. rewrite !scan_usage_run. unfold participants.
  destruct (agree_ui A) as [E [F R]]. rewrite <- F, <- E.
  destruct (read_alike _ _ _ R) as [O [X D]]. rewrite O, X, D. reflexivity.
Qed.

(** C9. The run is a function of what the script looks at: two file
    systems with the same answers for main.go, for the two UI roots, for
    what is found below them and for the text of those files give the same
    events, the same outcome and so the same standard output. *)
Theorem C9_same_inputs_same_output (w1 w2 : world) :
  agree w1 w2 ->
  main w1 = main w2 /\ stdout (fst (main w1)) = stdout (fst (main w2)).
Proof.
  intros A.
  assert (M : main w1 = main w2).
  { rewrite !main_run, (agree_parse A).
    destruct (parse_endpoints w2) as [l0 [[|ep rest]|e]]; try reflexivity.
    rewrite (agree_scan _ A). reflexivity. }
  split; [exact M | rewrite M; reflexivity].
Qed.

Lemma dedup_nil (endpoints : list Endpoint) :
  dedup endpoints = [] <-> endpoints = [].
Proof.
  split; [|intros ->; reflexivity].
  intros D. destruct endpoints as [|e es]; [reflexivity|].
  destruct (dedup_spec (e :: es)) as [_ [K _]].
  rewrite D in K. destruct (proj2 (K (key_of e)) (or_introl eq_refl)).
Qed.

Lemma found_endpoints_nil (content : text) :
  found_endpoints content = [] <-> Re.finditer ROUTE_RE content = [].
Proof.
  unfold found_endpoints. split; [apply map_eq_nil | intros ->; reflexivity].
Qed.

(** When [main] stops on an exception. *)
Lemma main_raises (w : world) :
  raises (snd (main w)) = true <->
  w_exists w MAIN_FILE = false \/
  (w_exists w MAIN_FILE = true /\
   (w_read_text w MAIN_FILE = ReadUnicodeDecodeError \/
    w_read_text w MAIN_FILE = ReadOSError)) \/
  (exists content,
      w_exists w MAIN_FILE = true /\
      w_read_text w MAIN_FILE = ReadOk content /\
      Re.finditer ROUTE_RE content <> [] /\
      existsb (os_error w) (ui_files w) = true).
Proof.
  rewrite main_run.
  destruct (w_exists w MAIN_FILE) eqn:X.
  - destruct (w_read_text w MAIN_FILE) as [content| |] eqn:R.
    + destruct (parse_endpoints_returns w X R) as [endpoints [P L]].
      rewrite P. destruct endpoints as [|ep rest].
      * simpl. split; [discriminate|].
        intros [H | [[_ [H | H]] | [c [_ [E [N _]]]]]]; try discriminate.
        injection E as <-. exfalso. apply N.
        apply found_endpoints_nil, dedup_nil.
        destruct (dedup (found_endpoints content)); [reflexivity | discriminate].
      * rewrite scan_usage_run.
        destruct (existsb (os_error w) (ui_files w)) eqn:O; simpl.
        -- split; [intros _|reflexivity]. right; right.
           exists content. repeat split; auto.
           intros F. apply found_endpoints_nil in F. rewrite F in L. discriminate.
        -- split; [discriminate|].
           intros [H | [[_ [H | H]] | [c [_ [_ [_ H]]]]]]; discriminate.
    + rewrite parse_endpoints_run, X, R. simpl. split; [intros _|reflexivity].
      right; left. auto.
    + rewrite parse_endpoints_run, X, R. simpl. split; [intros _|reflexivity].
      right; left. auto.
  - rewrite parse_endpoints_run, X. simpl. split; [intros _|reflexivity].
    left; reflexivity.
Qed.

(** ** Aborts *)

(** C5, as the code has it.  Without main.go the script stops after the
    existence check with SystemExit and the message that names the path,
    having read and printed nothing, and SystemExit is raised in no other
    case.  The script also stops, on an uncaught exception, when main.go
    cannot be read or decoded, and when there are Endpoints and a file of
    the scan cannot be read for another reason than its encoding. *)
Theorem C5_missing_main_is_fatal (w : world) :
  (w_exists w MAIN_FILE = false ->
   main w = ([EvExists MAIN_FILE], Raise (SystemExit (missing_message w))) /\
   missing_message w =
     str "Cannot locate main.go at " ++ repo_root w ++ str "/cmd/sdsm/main.go" /\
   stdout (fst (main w)) = []) /\
  (forall l msg, main w = (l, Raise (SystemExit msg)) ->
                 w_exists w MAIN_FILE = false) /\
  (raises (snd (main w)) = true <->
   w_exists w MAIN_FILE = false \/
   (w_exists w MAIN_FILE = true /\
    (w_read_text w MAIN_FILE = ReadUnicodeDecodeError \/
     w_read_text w MAIN_FILE = ReadOSError)) \/
   (exists content,
       w_exists w MAIN_FILE = true /\
       w_read_text w MAIN_FILE = ReadOk content /\
       Re.finditer ROUTE_RE content <> [] /\
       existsb (os_error w) (ui_files w) = true)).
Proof.
  split; [|split; [|apply main_raises]].
  - intros X. rewrite main_run, parse_endpoints_run, X.
    split; [reflexivity|]. split; reflexivity.
  - intros l msg. rewrite main_run.
    destruct (parse_endpoints w) as [l0 [endpoints|e]] eqn:P.
    + destruct endpoints as [|ep rest]; [discriminate|].
      destruct (scan_usage (ep :: rest) w) as [l1 [endpoints'|e]] eqn:S;
        [discriminate|].
      rewrite scan_usage_run in S.
      destruct (existsb (os_error w) (ui_files w)); [|discriminate].
      injection S as _ <-. discriminate.
    + rewrite parse_endpoints_run in P.
      destruct (w_exists w MAIN_FILE); [|reflexivity].
      destruct (w_read_text w MAIN_FILE) as [content| |].
      * destruct (for_each compile_endpoint (dedup (found_endpoints content)) w)
          as [l' r] eqn:R.
        destruct (for_each_compile _ _ R) as [_ H]. simpl in P.
        injection P as _ ->. rewrite H. discriminate.
      * injection P as _ <-. discriminate.
      * injection P as _ <-. discriminate.
Qed.

Lemma C5_missing_main_is_fatal_witness :
  w_exists world_no_main MAIN_FILE = false /\
  main world_no_main =
    ([EvExists MAIN_FILE],
     Raise (SystemExit (str "Cannot locate main.go at /repo/cmd/sdsm/main.go"))).
Proof.
  split; [reflexivity|].
  exact (proj1 (proj1 (C5_missing_main_is_fatal world_no_main) eq_refl)).
Defined.

(** C5 as stated fails on its last part: with a main.go that is not
    valid UTF-8 the script stops on the uncaught decoding error although
    the file exists. *)
Lemma C5_abort_with_main_present :
  w_exists world_undecodable_main MAIN_FILE = true /\
  main world_undecodable_main =
    ([EvExists MAIN_FILE; EvRead MAIN_FILE], Raise UnicodeDecodeError).
Proof. split; vm_compute; reflexivity. Qed.

(** ** The properties on an example repository *)

(** In [world_routes] the list [routes_parsed] is scanned: app.js is the
    first file that mentions /api/servers, index.html mentions it too and
    is not recorded. *)
Lemma C3_first_match_marks_used_witness :
  iter_ui_files world_routes =
    (fst (iter_ui_files world_routes),
     Ok [[str "ui"; str "app.js"]; [str "ui"; str "blob.txt"];
         [str "ui"; str "index.html"]]) /\
  scan_usage routes_parsed world_routes =
    (fst (scan_usage routes_parsed world_routes), Ok routes_scanned) /\
  (exists rx txt,
      regex ep_servers = Some rx /\
      w_read_text world_routes [str "ui"; str "index.html"] = ReadOk txt /\
      Re.search rx txt = true) /\
  exists e',
    nth_error routes_scanned 0 = Some e' /\
    used e' = true /\ matches e' = [] ++ [[str "ui"; str "app.js"]] /\
    method e' = str "GET" /\ path e' = str "/servers" /\ line e' = 1 /\
    regex e' = regex ep_servers.
Proof.
  assert (iter_routes :
            iter_ui_files world_routes =
            (fst (iter_ui_files world_routes),
             Ok [[str "ui"; str "app.js"]; [str "ui"; str "blob.txt"];
                 [str "ui"; str "index.html"]]))
    by (vm_compute; reflexivity).
  assert (scan_routes :
            scan_usage routes_parsed world_routes =
            (fst (scan_usage routes_parsed world_routes), Ok routes_scanned))
    by (vm_compute; reflexivity).
  split; [exact iter_routes|]. split; [exact scan_routes|]. split.
  { eexists. eexists. split; [vm_compute; reflexivity|].
    split; [vm_compute; reflexivity|]. vm_compute. reflexivity. }
  destruct (@C3_first_match_marks_used world_routes routes_parsed _ _ _ _
              iter_routes scan_routes 0 ep_servers eq_refl) as [_ [H _]].
  eapply H with (pre := []).
  - reflexivity.
  - vm_compute. reflexivity.
  - reflexivity.
  - intros g t [].
  - vm_compute. reflexivity.
  - vm_compute. reflexivity.
Defined.

(** The report for [world_routes]: the restart route is listed although
    app.js calls it with a concrete id. *)
Lemma C4_report_counts_and_listing_witness :
  parse_endpoints world_routes =
    ([EvExists MAIN_FILE; EvRead MAIN_FILE], Ok routes_parsed) /\
  routes_parsed <> [] /\
  iter_ui_files world_routes =
    (fst (iter_ui_files world_routes),
     Ok [[str "ui"; str "app.js"]; [str "ui"; str "blob.txt"];
         [str "ui"; str "index.html"]]) /\
  scan_usage routes_parsed world_routes =
    (fst (scan_usage routes_parsed world_routes), Ok routes_scanned) /\
  stdout (fst (main world_routes)) =
  printed [str "Total API endpoints found: 2";
           str "Used by UI artifacts:      1";
           str "Unused in UI (potential):  1";
           [];
           str "Endpoints without matches in ui/* or webassets/*:";
           str "  - POST   /api/servers/:id/restart (defined line 2)";
           [];
           NOTE].
Proof.
  assert (parse_routes :
            parse_endpoints world_routes =
            ([EvExists MAIN_FILE; EvRead MAIN_FILE], Ok routes_parsed))
    by (vm_compute; reflexivity).
  assert (iter_routes :
            iter_ui_files world_routes =
            (fst (iter_ui_files world_routes),
             Ok [[str "ui"; str "app.js"]; [str "ui"; str "blob.txt"];
                 [str "ui"; str "index.html"]]))
    by (vm_compute; reflexivity).
  assert (scan_routes :
            scan_usage routes_parsed world_routes =
            (fst (scan_usage routes_parsed world_routes), Ok routes_scanned))
    by (vm_compute; reflexivity).
  assert (NE : routes_parsed <> []) by discriminate.
  split; [exact parse_routes|]. split; [exact NE|].
  split; [exact iter_routes|]. split; [exact scan_routes|].
  destruct (@C4_report_counts_and_listing world_routes _ _ _ _ _ _
              parse_routes NE iter_routes scan_routes)
    as [_ [_ H]].
  rewrite H. vm_compute. reflexivity.
Defined.

(** In [world_no_routes] nothing is declared, and the script that cannot
    be opened is never looked at. *)
Lemma C6_no_endpoints_one_line_witness :
  parse_endpoints world_no_routes =
    ([EvExists MAIN_FILE; EvRead MAIN_FILE], Ok []) /\
  main world_no_routes =
    ([EvExists MAIN_FILE; EvRead MAIN_FILE;
      EvPrint (str "No API endpoints parsed.")], Ok tt) /\
  stdout (fst (main world_no_routes)) = str "No API endpoints parsed." ++ [nl].
Proof.
  assert (P : parse_endpoints world_no_routes =
              ([EvExists MAIN_FILE; EvRead MAIN_FILE], Ok []))
    by (vm_compute; reflexivity).
  split; [exact P|].
  exact (C6_no_endpoints_one_line world_no_routes P).
Defined.


(** Other bytes in the image change nothing. *)
Lemma C9_same_inputs_same_output_witness :
  agree world_routes world_routes_png /\
  main world_routes = main world_routes_png /\
  stdout (fst (main world_routes)) = stdout (fst (main world_routes_png)).
Proof.
  assert (agree_routes : agree world_routes world_routes_png).
  { split; [reflexivity|]. split; [reflexivity|]. split; [reflexivity|].
    intros base [<- | [<- | []]]; (split; [reflexivity|]); [|discriminate].
    intros _. split; [reflexivity|].
    intros d I. vm_compute in I.
    repeat (destruct I as [<- | I];
            [split; [reflexivity | intros _ K; vm_compute in K |- *;
                                   first [discriminate | reflexivity]]|]).
    destruct I. }
  split; [exact agree_routes|].
  exact (C9_same_inputs_same_output agree_routes).
Defined.

Lemma C10_scan_keeps_fields_one_match_witness :
  parse_endpoints world_routes =
    ([EvExists MAIN_FILE; EvRead MAIN_FILE], Ok routes_parsed) /\
  scan_usage routes_parsed world_routes =
    (fst (scan_usage routes_parsed world_routes), Ok routes_scanned) /\
  Forall2 scanned routes_parsed routes_scanned.
Proof.
  assert (parse_routes :
            parse_endpoints world_routes =
            ([EvExists MAIN_FILE; EvRead MAIN_FILE], Ok routes_parsed))
    by (vm_compute; reflexivity).
  assert (scan_routes :
            scan_usage routes_parsed world_routes =
            (fst (scan_usage routes_parsed world_routes), Ok routes_scanned))
    by (vm_compute; reflexivity).
  split; [exact parse_routes|]. split; [exact scan_routes|].
  exact (C10_scan_keeps_fields_one_match world_routes parse_routes scan_routes).
Defined.

(** * Further properties *)

(** ** The pattern of a route, piece by piece *)

Module ShapeFacts.
Import Re PatternFacts CompileFacts.

Lemma compiles_to_pat (t : text) (r : regex) : compiles_to t r -> pat t.
Proof.
  induction 1 as [|c t r P _ IH|d t r Sd _ IH|t r _ IH|t r _ IH].
  - apply pat_nil.
  - apply pat_plain; assumption.
  - apply pat_esc; assumption.
  - apply pat_param; assumption.
  - apply pat_wild; assumption.
Qed.

(** [re.compile] on a text of [compiles_to] gives the pattern named. *)
Lemma parse_compiles_to (t : text) (r : regex) :
  compiles_to t r -> forall fuel, List.length t < fuel -> parse fuel 0 t = Some r.
Proof.
  induction 1 as [|c t r P H IH|d t r Sd H IH|t r H IH|t r H IH]; intros fuel L.
  - destruct fuel; [simpl in L; lia|]. reflexivity.
  - destruct fuel as [|fuel]; [simpl in L; lia|]. simpl in L.
    pose proof (IH fuel ltac:(lia)) as R.
    cbn [parse].
    rewrite (@plain_not_special c backslash P) by (vm_compute; tauto).
    rewrite (@plain_not_special c lbrack P) by (vm_compute; tauto).
    rewrite (@plain_not_special c caret P) by (vm_compute; tauto).
    rewrite (@plain_not_special c lparen P) by (vm_compute; tauto).
    rewrite (@plain_not_special c rparen P) by (vm_compute; tauto).
    rewrite (@plain_mem c [42; 43; 63; 123; 124; 36; 46]%N P)
      by (intros d Hd; vm_compute in Hd |- *; tauto).
    rewrite (pat_quant_one (compiles_to_pat H)), R. reflexivity.
  - destruct fuel as [|fuel]; [simpl in L; lia|]. simpl in L.
    pose proof (IH fuel ltac:(lia)) as R.
    destruct (special_not_word d Sd) as [W1 W2].
    cbn [parse]. change (N.eqb backslash backslash) with true. cbv iota.
    rewrite W1, W2, (pat_quant_one (compiles_to_pat H)), R. reflexivity.
  - simpl in L.
    do 4 (destruct fuel as [|fuel]; [lia|]).
    pose proof (IH fuel ltac:(lia)) as R.
    destruct (pat_quant_after (compiles_to_pat H)) as [_ Q].
    change (backslash :: str "[^/]+" ++ t)
      with (backslash :: lbrack :: caret :: slash :: rbrack :: plus_c :: t).
    cbn [parse]. change (N.eqb backslash backslash) with true. cbv iota.
    change (N.eqb lbrack 115) with false. change (is_alnum lbrack) with false.
    cbv iota.
    change (parse_quant (caret :: slash :: rbrack :: plus_c :: t))
      with (Some (One, caret :: slash :: rbrack :: plus_c :: t)).
    cbv iota beta.
    change (N.eqb caret backslash) with false.
    change (N.eqb caret lbrack) with false.
    change (N.eqb caret caret) with true.
    change (mem slash [42; 43; 63; 123]%N) with false. cbv iota.
    change (N.eqb slash backslash) with false.
    change (N.eqb slash lbrack) with false.
    change (N.eqb slash caret) with false.
    change (N.eqb slash lparen) with false.
    change (N.eqb slash rparen) with false.
    change (mem slash [42; 43; 63; 123; 124; 36; 46]%N) with false. cbv iota.
    change (parse_quant (rbrack :: plus_c :: t))
      with (Some (One, rbrack :: plus_c :: t)).
    cbv iota beta.
    change (N.eqb rbrack backslash) with false.
    change (N.eqb rbrack lbrack) with false.
    change (N.eqb rbrack caret) with false.
    change (N.eqb rbrack lparen) with false.
    change (N.eqb rbrack rparen) with false.
    change (mem rbrack [42; 43; 63; 123; 124; 36; 46]%N) with false. cbv iota.
    rewrite Q, R. reflexivity.
  - simpl in L.
    destruct fuel as [|fuel]; [lia|].
    pose proof (IH fuel ltac:(lia)) as R.
    destruct (pat_quant_after (compiles_to_pat H)) as [Q _].
    assert (PS : parse_set fuel (backslash :: 115%N :: rbrack :: star_c :: t) []
                 = Some ([ISpace], star_c :: t)).
    { destruct fuel as [|[|f]]; [lia | lia | reflexivity]. }
    change (str "[^\s]*" ++ t)
      with (lbrack :: caret :: backslash :: 115%N :: rbrack :: star_c :: t).
    cbn [parse]. change (N.eqb lbrack backslash) with false.
    change (N.eqb lbrack lbrack) with true. change (N.eqb caret caret) with true.
    cbv iota. rewrite PS, Q, R. reflexivity.
Qed.

Lemma compile_compiles_to (t : text) (r : regex) :
  compiles_to t r -> compile t = Some r.
Proof. intros H. apply parse_compiles_to; [exact H | lia]. Qed.

(** Escaped text in front of a pattern text compiles to its literals. *)
Lemma compiles_to_escape (s : text) (t : text) (r : regex) :
  compiles_to t r -> compiles_to (escape s ++ t) (map lit s ++ r).
Proof.
  intros H. induction s as [|c s IH]; simpl; [exact H|].
  destruct (is_special c) eqn:Sc.
  - apply ct_esc; assumption.
  - apply ct_plain; assumption.
Qed.

Lemma escape_app (a b : text) : escape (a ++ b) = escape a ++ escape b.
Proof.
  induction a as [|c a IH]; simpl; [reflexivity|].
  rewrite IH. destruct (is_special c); reflexivity.
Qed.

(** [PARAM_RE.sub] steps over escaped text without backslash in the
    original. *)
Lemma sub_escape_pass (repl : text) (s rest : text) :
  ~ In backslash s ->
  forall pos,
    sub_from PARAM_RE repl 0 pos (escape s ++ rest) =
    escape s ++ sub_from PARAM_RE repl 0 (pos + List.length (escape s)) rest.
Proof.
  induction s as [|c s IH]; intros N pos.
  - simpl. rewrite Nat.add_0_r. reflexivity.
  - assert (Nc : N.eqb c backslash = false).
    { apply N.eqb_neq. intros E. apply N. left. exact E. }
    assert (Ns : ~ In backslash s) by (intros I; apply N; right; exact I).
    simpl escape. destruct (is_special c) eqn:Sc.
    + cbn [app sub_from].
      rewrite match_PARAM_RE_second by (apply special_not_colon; exact Sc).
      cbn [sub_from]. rewrite match_PARAM_RE_first by exact Nc.
      rewrite IH by exact Ns. cbn [List.length app].
      replace (S (S pos) + List.length (escape s))
        with (pos + S (S (List.length (escape s)))) by lia.
      reflexivity.
    + cbn [app sub_from]. rewrite match_PARAM_RE_first by exact Nc.
      rewrite IH by exact Ns. cbn [List.length app].
      replace (S pos + List.length (escape s))
        with (pos + S (List.length (escape s))) by lia.
      reflexivity.
Qed.

(** [replace] steps over escaped text without backslash or star in the
    original. *)
Lemma replace_escape_pass (new : text) (s rest : text) :
  ~ In backslash s -> ~ In star_c s ->
  replace_from (str "\*") new 0 (escape s ++ rest) =
  escape s ++ replace_from (str "\*") new 0 rest.
Proof.
  induction s as [|c s IH]; intros N1 N2; [reflexivity|].
  assert (Nc : N.eqb backslash c = false).
  { apply N.eqb_neq. intros E. apply N1. left. symmetry. exact E. }
  assert (Nc2 : N.eqb star_c c = false).
  { apply N.eqb_neq. intros E. apply N2. left. symmetry. exact E. }
  assert (Ns1 : ~ In backslash s) by (intros I; apply N1; right; exact I).
  assert (Ns2 : ~ In star_c s) by (intros I; apply N2; right; exact I).
  simpl escape. destruct (is_special c) eqn:Sc.
  - cbn [app replace_from].
    change (starts_with (str "\*") (backslash :: c :: escape s ++ rest))
      with (N.eqb star_c c && true).
    rewrite Nc2. cbn [andb replace_from].
    change (starts_with (str "\*") (c :: escape s ++ rest))
      with (N.eqb backslash c && starts_with [star_c] (escape s ++ rest)).
    rewrite Nc. cbn [andb]. rewrite IH by assumption. reflexivity.
  - cbn [app replace_from].
    change (starts_with (str "\*") (c :: escape s ++ rest))
      with (N.eqb backslash c && starts_with [star_c] (escape s ++ rest)).
    rewrite Nc. cbn [andb]. rewrite IH by assumption. reflexivity.
Qed.

End ShapeFacts.

(** ** What the patterns match *)

Module MatchFacts.
Import Re.

Lemma match_here_lits_then (p : text) (r : regex) (marks : list nat) :
  forall pos s,
    match_here (map lit p ++ r) marks pos s =
    if starts_with p s
    then match_here r marks (pos + List.length p) (skipn (List.length p) s)
    else None.
Proof.
  induction p as [|x p IH]; intros pos s.
  - simpl. rewrite Nat.add_0_r. reflexivity.
  - cbn [map app match_here lit starts_with List.length skipn atom_match].
    destruct s as [|y s]; [reflexivity|].
    rewrite (N.eqb_sym x y). destruct (N.eqb y x); cbn [andb]; [|reflexivity].
    rewrite IH, Nat.add_succ_r. reflexivity.
Qed.

(** The repetition succeeds as soon as some run of characters followed by
    a success of the rest exists. *)
Lemma rep_complete (p : char -> bool) (k : nat -> text -> option mresult)
      (run rest : text) :
  Forall (fun c => p c = true) run ->
  forall pos, k (pos + List.length run) rest <> None ->
              rep p k pos (run ++ rest) <> None.
Proof.
  induction 1 as [|c run P _ IH]; intros pos K.
  - simpl in *. rewrite Nat.add_0_r in K.
    destruct rest as [|d rest]; simpl; [exact K|].
    destruct (p d); [|exact K].
    destruct (rep p k (S pos) rest); [discriminate | exact K].
  - simpl. rewrite P.
    specialize (IH (S pos)). simpl in K. rewrite Nat.add_succ_r in K.
    specialize (IH K).
    destruct (rep p k (S pos) (run ++ rest)); [discriminate | contradiction].
Qed.

Lemma search_from_iff (r : regex) (s : text) :
  forall pos,
    search_from r pos s <> None <->
    exists pre rest, s = pre ++ rest /\
                     match_here r [] (pos + List.length pre) rest <> None.
Proof.
  induction s as [|c s IH]; intros pos; simpl.
  - destruct (match_here r [] pos []) as [m|] eqn:M.
    + split; [intros _|discriminate]. exists [], []. simpl.
      rewrite Nat.add_0_r, M. split; [reflexivity | discriminate].
    + split; [congruence|]. intros [pre [rest [E H]]].
      destruct pre; [|discriminate]. simpl in E. subst rest.
      simpl in H. rewrite Nat.add_0_r, M in H. contradiction.
  - destruct (match_here r [] pos (c :: s)) as [m|] eqn:M.
    + split; [intros _|discriminate]. exists [], (c :: s). simpl.
      rewrite Nat.add_0_r, M. split; [reflexivity | discriminate].
    + rewrite IH. split.
      * intros [pre [rest [-> H]]]. exists (c :: pre), rest.
        split; [reflexivity|]. simpl. rewrite Nat.add_succ_r. exact H.
      * intros [pre [rest [E H]]]. destruct pre as [|d pre].
        -- simpl in E. subst rest. simpl in H.
           rewrite Nat.add_0_r, M in H. contradiction.
        -- injection E as _ ->. exists pre, rest. split; [reflexivity|].
           simpl in H. rewrite Nat.add_succ_r in H. exact H.
Qed.

Lemma search_iff (r : regex) (s : text) :
  search r s = true <->
  exists pre rest, s = pre ++ rest /\
                   match_here r [] (List.length pre) rest <> None.
Proof.
  rewrite <- (search_from_iff r s 0). unfold search.
  destruct (search_from r 0 s); split; congruence.
Qed.

(** Literals, a wildcard, literals: what is matched at a position. *)
Lemma match_here_wild (a b : text) (pos : nat) (s : text) :
  match_here (map lit a ++ wild :: map lit b) [] pos s <> None <->
  exists mid post, s = a ++ mid ++ b ++ post /\
                   Forall (fun c => is_space c = false) mid.
Proof.
  rewrite match_here_lits_then. split.
  - destruct (starts_with a s) eqn:A; [|congruence].
    apply starts_with_app in A. destruct A as [rest ->].
    rewrite skipn_app, skipn_all, Nat.sub_diag. simpl skipn.
    intros H.
    destruct (match_here (wild :: map lit b) [] (pos + List.length a) rest)
      as [m|] eqn:M; [|contradiction].
    apply RouteFacts.star_sound in M.
    destruct M as [mid [rest' [-> [F M]]]].
    replace (map lit b) with (map lit b ++ []) in M by apply app_nil_r.
    rewrite match_here_lits_then in M.
    destruct (starts_with b rest') eqn:B; [|discriminate].
    apply starts_with_app in B. destruct B as [post ->].
    exists mid, post. split; [reflexivity|].
    eapply Forall_impl; [|exact F]. intros c Hc. simpl in Hc.
    rewrite orb_false_r in Hc. apply negb_true_iff. exact Hc.
  - intros [mid [post [-> F]]].
    assert (A : starts_with a (a ++ mid ++ b ++ post) = true)
      by (apply starts_with_app; eauto).
    rewrite A, skipn_app, skipn_all, Nat.sub_diag. simpl skipn.
    change (match_here (wild :: map lit b) [])
      with (rep (atom_match (ASet true [ISpace])) (match_here (map lit b) [])).
    apply (@rep_complete _ _ mid (b ++ post)).
    + eapply Forall_impl; [|exact F]. intros c Hc. simpl.
      rewrite orb_false_r, Hc. reflexivity.
    + replace (map lit b) with (map lit b ++ []) by apply app_nil_r.
      rewrite match_here_lits_then.
      assert (B : starts_with b (b ++ post) = true)
        by (apply starts_with_app; eauto).
      rewrite B. discriminate.
Qed.

End MatchFacts.

Lemma not_in_app (A : Type) (x : A) (a b : list A) :
  ~ In x a -> ~ In x b -> ~ In x (a ++ b).
Proof. intros Na Nb I. apply in_app_or in I. tauto. Qed.

Lemma api_clean : ~ In backslash (str "/api") /\ ~ In star_c (str "/api").
Proof. split; intros I; vm_compute in I; intuition discriminate. Qed.

(** A route without backslash or star: the pattern text is the escaped
    full path. *)
Lemma build_pattern_literal (ep : Endpoint) :
  ~ In backslash (path ep) -> ~ In star_c (path ep) ->
  build_pattern ep = Re.escape (full_path ep).
Proof.
  intros N1 N2. destruct api_clean as [A1 A2].
  assert (F1 : ~ In backslash (full_path ep)) by (apply not_in_app; assumption).
  assert (F2 : ~ In star_c (full_path ep)) by (apply not_in_app; assumption).
  unfold build_pattern, Re.sub, replace.
  rewrite <- (app_nil_r (Re.escape (full_path ep))).
  rewrite ShapeFacts.sub_escape_pass by exact F1. cbn [Re.sub_from].
  rewrite ShapeFacts.replace_escape_pass by assumption. reflexivity.
Qed.

(** X2. A route whose path holds neither backslash nor star is searched
    for literally: the dots, dashes, blanks and [:name] segments of the
    path stand for themselves, and a text matches exactly when it contains
    the full path. *)
Theorem X2_route_without_backslash_or_star_is_literal (ep : Endpoint) :
  ~ In backslash (path ep) -> ~ In star_c (path ep) ->
  build_pattern ep = Re.escape (full_path ep) /\
  build_regex ep = Some (map Re.lit (full_path ep)) /\
  forall t, Re.search (map Re.lit (full_path ep)) t = true <->
            exists pre post, t = pre ++ full_path ep ++ post.
Proof.
  intros N1 N2. pose proof (build_pattern_literal ep N1 N2) as E.
  split; [exact E|]. split.
  - unfold build_regex. rewrite E. apply ShapeFacts.compile_compiles_to.
    rewrite <- (app_nil_r (Re.escape _)), <- (app_nil_r (map _ _)).
    apply ShapeFacts.compiles_to_escape. apply ct_nil.
  - intros t. apply ReFacts.search_lits.
Qed.

Lemma X2_route_without_backslash_or_star_is_literal_witness :
  let ep := endpoint_at "GET" "/v1.0/items-list/:id" 7 in
  build_pattern ep = str "/api/v1\.0/items\-list/:id" /\
  build_regex ep = Some (map Re.lit (str "/api/v1.0/items-list/:id")) /\
  forall t, Re.search (map Re.lit (str "/api/v1.0/items-list/:id")) t = true <->
            exists pre post, t = pre ++ str "/api/v1.0/items-list/:id" ++ post.
Proof.
  apply (@X2_route_without_backslash_or_star_is_literal
           (endpoint_at "GET" "/v1.0/items-list/:id" 7)).
  - intros I. vm_compute in I. intuition discriminate.
  - intros I. vm_compute in I. intuition discriminate.
Defined.

(** X3. A route with one star, and neither backslash nor another star
    around it: the star stands for any run of characters that are not
    white space, the rest of the path for itself, the name after the star
    included. *)
Theorem X3_wildcard_route (ep : Endpoint) (a b : text) :
  path ep = a ++ star_c :: b ->
  ~ In backslash a -> ~ In star_c a -> ~ In backslash b -> ~ In star_c b ->
  build_pattern ep =
    Re.escape (str "/api" ++ a) ++ str "[^\s]*" ++ Re.escape b /\
  build_regex ep = Some (map Re.lit (str "/api" ++ a) ++ wild :: map Re.lit b) /\
  forall t,
    Re.search (map Re.lit (str "/api" ++ a) ++ wild :: map Re.lit b) t = true <->
    exists pre mid post,
      t = pre ++ (str "/api" ++ a) ++ mid ++ b ++ post /\
      Forall (fun c => is_space c = false) mid.
Proof.
  intros P Na1 Na2 Nb1 Nb2. destruct api_clean as [A1 A2].
  assert (F1 : ~ In backslash (str "/api" ++ a)) by (apply not_in_app; assumption).
  assert (F2 : ~ In star_c (str "/api" ++ a)) by (apply not_in_app; assumption).
  assert (E : build_pattern ep =
              Re.escape (str "/api" ++ a) ++ str "[^\s]*" ++ Re.escape b).
  { unfold build_pattern, full_path. rewrite P.
    assert (FB : ~ In backslash (str "/api" ++ a ++ star_c :: b)).
    { rewrite app_assoc. apply not_in_app; [exact F1|].
      intros [I | I]; [discriminate | contradiction]. }
    unfold Re.sub, replace.
    rewrite <- (app_nil_r (Re.escape (str "/api" ++ a ++ star_c :: b))).
    rewrite ShapeFacts.sub_escape_pass by exact FB. cbn [Re.sub_from].
    rewrite app_nil_r, app_assoc, ShapeFacts.escape_app.
    rewrite ShapeFacts.replace_escape_pass by assumption.
    f_equal.
    change (Re.escape (star_c :: b)) with (backslash :: star_c :: Re.escape b).
    change (replace_from (str "\*") (str "[^\s]*") 0
              (backslash :: star_c :: Re.escape b))
      with (str "[^\s]*" ++ replace_from (str "\*") (str "[^\s]*") 0 (Re.escape b)).
    f_equal.
    rewrite <- (app_nil_r (Re.escape b)).
    rewrite ShapeFacts.replace_escape_pass by assumption. reflexivity. }
  split; [exact E|]. split.
  - unfold build_regex. rewrite E. apply ShapeFacts.compile_compiles_to.
    apply ShapeFacts.compiles_to_escape. apply ct_wild.
    rewrite <- (app_nil_r (Re.escape b)), <- (app_nil_r (map _ b)).
    apply ShapeFacts.compiles_to_escape. apply ct_nil.
  - intros t. rewrite MatchFacts.search_iff. split.
    + intros [pre [rest [-> H]]]. apply MatchFacts.match_here_wild in H.
      destruct H as [mid [post [-> F]]]. exists pre, mid, post. auto.
    + intros [pre [mid [post [-> F]]]].
      exists pre, ((str "/api" ++ a) ++ mid ++ b ++ post).
      split; [reflexivity|]. apply MatchFacts.match_here_wild.
      exists mid, post. auto.
Qed.

Lemma X3_wildcard_route_witness :
  let ep := endpoint_at "GET" "/files/*filepath" 3 in
  build_pattern ep = str "/api/files/[^\s]*filepath" /\
  build_regex ep =
    Some (map Re.lit (str "/api/files/") ++ wild :: map Re.lit (str "filepath")) /\
  forall t,
    Re.search (map Re.lit (str "/api/files/") ++ wild :: map Re.lit (str "filepath"))
              t = true <->
    exists pre mid post,
      t = pre ++ str "/api/files/" ++ mid ++ str "filepath" ++ post /\
      Forall (fun c => is_space c = false) mid.
Proof.
  apply (@X3_wildcard_route (endpoint_at "GET" "/files/*filepath" 3)
           (str "/files/") (str "filepath")).
  - reflexivity.
  - intros I. vm_compute in I. intuition discriminate.
  - intros I. vm_compute in I. intuition discriminate.
  - intros I. vm_compute in I. intuition discriminate.
  - intros I. vm_compute in I. intuition discriminate.
Defined.

(** ** More on the extraction *)

(** X1. [re.compile] accepts the pattern of every Endpoint, whatever its
    path: [parse_endpoints] never stops on a pattern error, and every
    Endpoint it returns carries the compiled pattern of its own path. *)
Theorem X1_every_pattern_compiles :
  (forall ep, exists r, build_regex ep = Some r) /\
  (forall w l e, parse_endpoints w = (l, Raise e) -> e <> ReError) /\
  (forall w l endpoints ep,
      parse_endpoints w = (l, Ok endpoints) -> In ep endpoints ->
      regex ep = build_regex ep /\ regex ep <> None).
Proof.
  split; [exact build_regex_total|]. split.
  - intros w l e. rewrite parse_endpoints_run.
    destruct (w_exists w MAIN_FILE); [|intros E; injection E as _ <-; discriminate].
    destruct (w_read_text w MAIN_FILE) as [content| |];
      try (intros E; injection E as _ <-; discriminate).
    destruct (for_each_compile_returns w (dedup (found_endpoints content)))
      as [endpoints [R _]].
    rewrite R. discriminate.
  - intros w l endpoints ep P I. apply parse_endpoints_ok in P.
    destruct P as [_ [_ [content [_ F]]]]. fold compiled in F.
    destruct (compiled_in F _ I) as [e [_ [rx [B ->]]]].
    split; [symmetry; exact B | discriminate].
Qed.

Lemma count_upto_mono (c : char) (t : text) :
  forall a b, a <= b -> count_upto c a t <= count_upto c b t.
Proof.
  unfold count_upto. induction t as [|x t IH]; intros a b L.
  - rewrite !firstn_nil. simpl. lia.
  - destruct a as [|a]; [simpl; lia|].
    destruct b as [|b]; [lia|].
    simpl. specialize (IH a b ltac:(lia)).
    destruct (N.eqb c x); simpl; lia.
Qed.

Lemma count_upto_total (c : char) (t : text) (a : nat) :
  count_upto c a t <= List.length (filter (N.eqb c) t).
Proof.
  unfold count_upto. revert a; induction t as [|x t IH]; intros a.
  - rewrite firstn_nil. simpl. lia.
  - destruct a as [|a]; [simpl; lia|].
    simpl. specialize (IH a). destruct (N.eqb c x); simpl; lia.
Qed.

Lemma StronglySorted_remove (A : Type) (R : A -> A -> Prop) (a : list A) (x : A)
      (b : list A) :
  StronglySorted R (a ++ x :: b) -> StronglySorted R (a ++ b).
Proof.
  induction a as [|y a IH]; simpl; intros S.
  - inversion S; assumption.
  - inversion S as [|? ? S' F]; subst. constructor; [apply IH, S'|].
    apply Forall_app in F. destruct F as [F1 F2].
    apply Forall_app. split; [exact F1|]. inversion F2; assumption.
Qed.

(** The dedup loop keeps the order of the Endpoints it keeps. *)
Lemma dedup_loop_sorted (R : nat -> nat -> Prop) (endpoints : list Endpoint) :
  forall unique,
    StronglySorted R (map line (map snd unique ++ endpoints)) ->
    StronglySorted R (map line (map snd (dedup_loop endpoints unique))).
Proof.
  induction endpoints as [|ep rest IH]; intros unique S; simpl.
  - rewrite app_nil_r in S. exact S.
  - destruct (key_in (key_of ep) unique).
    + apply IH. rewrite map_app in *. simpl in S.
      apply StronglySorted_remove in S. exact S.
    + apply IH. rewrite (map_app snd). simpl. rewrite <- app_assoc. exact S.
Qed.

Lemma compiled_lines (a b : list Endpoint) :
  Forall2 compiled a b -> map line b = map line a.
Proof.
  induction 1 as [|e e' a b [rx [_ ->]] _ IH]; simpl; [reflexivity|].
  rewrite IH. reflexivity.
Qed.

Lemma found_endpoints_lines (content : text) :
  map line (found_endpoints content) =
  map (fun m : nat * Re.mresult => count_upto nl (fst m) content + 1)
      (Re.finditer ROUTE_RE content).
Proof.
  unfold found_endpoints. rewrite map_map. apply map_ext.
  intros [start [e marks]]. reflexivity.
Qed.

(** X5. The Endpoints [parse_endpoints] returns stand in the order of
    their declarations: their line numbers never decrease along the list,
    and each lies between one and the number of lines of main.go. *)
Theorem X5_lines_in_source_order
        (w : world) (l : list event) (endpoints : list Endpoint) :
  parse_endpoints w = (l, Ok endpoints) ->
  exists content,
    w_read_text w MAIN_FILE = ReadOk content /\
    StronglySorted le (map line endpoints) /\
    Forall (fun ep => 1 <= line ep <=
                      List.length (filter (N.eqb nl) content) + 1) endpoints.
Proof.
  intros P. apply parse_endpoints_ok in P.
  destruct P as [_ [_ [content [R F]]]]. fold compiled in F.
  exists content. split; [exact R|]. split.
  - rewrite (compiled_lines F). unfold dedup.
    apply dedup_loop_sorted. simpl. rewrite found_endpoints_lines.
    destruct (OrderFacts.finditer_from_starts ROUTE_RE content 0 0) as [_ S].
    eapply StronglySorted_map; [|exact S].
    intros x y L. simpl in L. apply Nat.add_le_mono_r.
    apply count_upto_mono. lia.
  - apply Forall_forall. intros ep' I.
    destruct (compiled_in F _ I) as [ep [Iep [rx [_ ->]]]].
    apply dedup_incl, found_endpoints_fresh in Iep.
    destruct Iep as [m [_ [_ [L _]]]]. simpl. rewrite L.
    pose proof (count_upto_total nl content (fst m)). lia.
Qed.

Lemma X5_lines_in_source_order_witness :
  parse_endpoints world_routes =
    ([EvExists MAIN_FILE; EvRead MAIN_FILE], Ok routes_parsed) /\
  exists content,
    w_read_text world_routes MAIN_FILE = ReadOk content /\
    StronglySorted le (map line routes_parsed) /\
    Forall (fun ep => 1 <= line ep <=
                      List.length (filter (N.eqb nl) content) + 1) routes_parsed.
Proof.
  assert (P : parse_endpoints world_routes =
              ([EvExists MAIN_FILE; EvRead MAIN_FILE], Ok routes_parsed))
    by (vm_compute; reflexivity).
  split; [exact P|].
  exact (X5_lines_in_source_order world_routes P).
Defined.

(** ** The order of the pairs *)

Lemma filter_filter_and (A : Type) (f g : A -> bool) (l : list A) :
  filter f (filter g l) = filter (fun x => g x && f x) l.
Proof.
  induction l as [|x l IH]; simpl; [reflexivity|].
  destruct (g x); simpl; [|exact IH].
  destruct (f x); rewrite IH; reflexivity.
Qed.

Lemma key_in_app (k : key) (a b : list (key * Endpoint)) :
  key_in k (a ++ b) = key_in k a || key_in k b.
Proof. unfold key_in. apply existsb_app. Qed.

Lemma dedup_loop_keys (endpoints : list Endpoint) :
  forall unique,
    map fst (dedup_loop endpoints unique) =
    map fst unique ++
    filter (fun k => negb (key_in k unique)) (keep_first (map key_of endpoints)).
Proof.
  induction endpoints as [|ep rest IH]; intros unique; simpl.
  - rewrite app_nil_r. reflexivity.
  - destruct (key_in (key_of ep) unique) eqn:K.
    + rewrite IH. cbn [negb]. f_equal. rewrite filter_filter_and.
      apply filter_ext. intros k.
      destruct (key_eqb k (key_of ep)) eqn:Q; [|reflexivity].
      apply key_eqb_eq in Q. subst k. rewrite K. reflexivity.
    + rewrite IH. cbn [negb]. rewrite map_app, <- app_assoc. simpl.
      f_equal. f_equal. rewrite filter_filter_and.
      apply filter_ext. intros k. rewrite key_in_app.
      unfold key_in at 2. simpl. rewrite orb_false_r, negb_orb.
      apply andb_comm.
Qed.

Lemma dedup_keys (endpoints : list Endpoint) :
  map key_of (dedup endpoints) = keep_first (map key_of endpoints).
Proof.
  unfold dedup.
  destruct (@dedup_loop_inv endpoints [] (NoDup_nil _)) as [added [E [_ [_ Hf]]]].
  simpl in E.
  assert (K : map key_of (map snd (dedup_loop endpoints [])) =
              map fst (dedup_loop endpoints [])).
  { rewrite E, map_map. apply map_ext_in. intros [k ep] I.
    destruct (Hf k ep I) as [-> _]. reflexivity. }
  rewrite K, dedup_loop_keys. simpl.
  induction (keep_first (map key_of endpoints)) as [|k ks IH]; simpl;
    [reflexivity | rewrite IH; reflexivity].
Qed.

Lemma filter_length_le (A : Type) (f : A -> bool) (l : list A) :
  List.length (filter f l) <= List.length l.
Proof. induction l as [|x l IH]; simpl; [lia|]. destruct (f x); simpl; lia. Qed.

Lemma keep_first_length (ks : list key) :
  List.length (keep_first ks) <= List.length ks.
Proof.
  induction ks as [|k ks IH]; simpl; [lia|].
  pose proof (filter_length_le (fun k' => negb (key_eqb k' k)) (keep_first ks)).
  lia.
Qed.

Lemma keep_first_nodup (ks : list key) : NoDup ks -> keep_first ks = ks.
Proof.
  induction 1 as [|k ks N _ IH]; simpl; [reflexivity|].
  rewrite IH. f_equal. clear IH.
  induction ks as [|x xs IHx]; simpl; [reflexivity|].
  destruct (key_eqb x k) eqn:Q.
  - apply key_eqb_eq in Q. subst x. exfalso. apply N. left; reflexivity.
  - simpl. f_equal. apply IHx. intros I. apply N. right; exact I.
Qed.

(** X6. The Endpoints [parse_endpoints] returns carry the (method, path)
    pairs of the matches in the order of their first appearance: the list
    of the matches' pairs with every repetition of an earlier pair taken
    out.  There are never more Endpoints than matches, and as many when no
    pair is declared twice. *)
Theorem X6_pairs_in_order_of_first_appearance
        (w : world) (l : list event) (endpoints : list Endpoint) :
  parse_endpoints w = (l, Ok endpoints) ->
  exists content,
    w_read_text w MAIN_FILE = ReadOk content /\
    let pairs := map (match_key content) (Re.finditer ROUTE_RE content) in
    map key_of endpoints = keep_first pairs /\
    List.length endpoints <= List.length pairs /\
    (NoDup pairs -> map key_of endpoints = pairs).
Proof.
  intros P. apply parse_endpoints_ok in P.
  destruct P as [_ [_ [content [R F]]]]. fold compiled in F.
  exists content. split; [exact R|]. cbv zeta.
  assert (K : map key_of endpoints =
              keep_first (map (match_key content) (Re.finditer ROUTE_RE content))).
  { rewrite (compiled_keys F), dedup_keys, found_endpoints_keys. reflexivity. }
  split; [exact K|]. split.
  - rewrite <- (length_map key_of), K. apply keep_first_length.
  - intros N. rewrite K. apply keep_first_nodup, N.
Qed.

Lemma X6_pairs_in_order_of_first_appearance_witness :
  parse_endpoints world_routes =
    ([EvExists MAIN_FILE; EvRead MAIN_FILE], Ok routes_parsed) /\
  map key_of routes_parsed =
    [(str "GET", str "/servers"); (str "POST", str "/servers/:id/restart")] /\
  exists content,
    w_read_text world_routes MAIN_FILE = ReadOk content /\
    let pairs := map (match_key content) (Re.finditer ROUTE_RE content) in
    map key_of routes_parsed = keep_first pairs /\
    List.length routes_parsed <= List.length pairs /\
    (NoDup pairs -> map key_of routes_parsed = pairs).
Proof.
  assert (P : parse_endpoints world_routes =
              ([EvExists MAIN_FILE; EvRead MAIN_FILE], Ok routes_parsed))
    by (vm_compute; reflexivity).
  split; [exact P|]. split; [reflexivity|].
  exact (X6_pairs_in_order_of_first_appearance world_routes P).
Defined.

(** ** The scan, once more *)

(** X11. Scanning a second time changes nothing: the list a scan leaves
    comes out of another scan of the same files as it is, with the same
    files opened. *)
Theorem X11_scan_twice_is_scan_once
        (w : world) (endpoints : list Endpoint) (l : list event)
        (endpoints' : list Endpoint) :
  scan_usage endpoints w = (l, Ok endpoints') ->
  scan_usage endpoints' w = (l, Ok endpoints').
Proof.
  rewrite !scan_usage_run.
  destruct (existsb (os_error w) (ui_files w)); [discriminate|].
  intros E; injection E as <- <-. f_equal. f_equal.
  rewrite map_map. apply map_ext. intros ep. apply scan_all_idem.
Qed.

Lemma X11_scan_twice_is_scan_once_witness :
  scan_usage routes_parsed world_routes =
    (fst (scan_usage routes_parsed world_routes), Ok routes_scanned) /\
  scan_usage routes_scanned world_routes =
    (fst (scan_usage routes_parsed world_routes), Ok routes_scanned).
Proof.
  assert (S : scan_usage routes_parsed world_routes =
              (fst (scan_usage routes_parsed world_routes), Ok routes_scanned))
    by (vm_compute; reflexivity).
  split; [exact S|].
  exact (X11_scan_twice_is_scan_once world_routes routes_parsed S).
Defined.

(** ** The output of a run *)

Lemma parse_endpoints_silent (w : world) :
  stdout (fst (parse_endpoints w)) = [].
Proof.
  rewrite parse_endpoints_run.
  destruct (w_exists w MAIN_FILE); [|reflexivity].
  destruct (w_read_text w MAIN_FILE); reflexivity.
Qed.

Lemma main_report_stdout (w : world) (l0 l1 : list event)
      (endpoints endpoints' : list Endpoint) :
  parse_endpoints w = (l0, Ok endpoints) -> endpoints <> [] ->
  scan_usage endpoints w = (l1, Ok endpoints') ->
  snd (main w) = Ok tt /\
  stdout (fst (main w)) = printed (report_prints endpoints').
Proof.
  intros P NE S. rewrite main_run, P.
  destruct endpoints as [|ep rest]; [contradiction|]. rewrite S.
  split; [reflexivity|]. cbn [fst].
  rewrite !stdout_app, stdout_prints.
  pose proof (parse_endpoints_silent w) as Q0. rewrite P in Q0.
  pose proof (scan_usage_silent w (ep :: rest)) as Q1. rewrite S in Q1.
  cbn [fst] in Q0, Q1. rewrite Q0, Q1. reflexivity.
Qed.

(** X8. A run prints a whole report or nothing: when it stops on an
    exception, also one raised in the middle of the scan, standard output
    is empty; when it returns, standard output is the one line of the
    empty case or the complete report of the scanned list. *)
Theorem X8_report_whole_or_nothing (w : world) :
  (raises (snd (main w)) = true -> stdout (fst (main w)) = []) /\
  (raises (snd (main w)) = false ->
   stdout (fst (main w)) = str "No API endpoints parsed." ++ [nl] \/
   exists l0 endpoints l1 endpoints',
     parse_endpoints w = (l0, Ok endpoints) /\ endpoints <> [] /\
     scan_usage endpoints w = (l1, Ok endpoints') /\
     stdout (fst (main w)) = printed (report_prints endpoints')).
Proof.
  destruct (parse_endpoints w) as [l0 [endpoints|e]] eqn:P.
  - destruct endpoints as [|ep rest].
    + rewrite main_run, P. cbn [fst snd raises]. split; [discriminate|].
      intros _. left.
      pose proof (parse_endpoints_silent w) as Q0. rewrite P in Q0.
      cbn [fst] in Q0. rewrite stdout_app, Q0. reflexivity.
    + destruct (scan_usage (ep :: rest) w) as [l1 [endpoints'|e]] eqn:S.
      * assert (NE : ep :: rest <> []) by discriminate.
        destruct (main_report_stdout w P NE S) as [M O].
        rewrite M. cbn [raises]. split; [discriminate|].
        intros _. right. exists l0, (ep :: rest), l1, endpoints'. auto.
      * rewrite main_run, P, S. cbn [fst snd raises].
        split; [|discriminate]. intros _.
        pose proof (parse_endpoints_silent w) as Q0. rewrite P in Q0.
        pose proof (scan_usage_silent w (ep :: rest)) as Q1. rewrite S in Q1.
        cbn [fst] in Q0, Q1. rewrite stdout_app, Q0, Q1. reflexivity.
  - rewrite main_run, P. cbn [fst snd raises]. split; [|discriminate].
    intros _. pose proof (parse_endpoints_silent w) as Q0. rewrite P in Q0.
    exact Q0.
Qed.

Lemma filter_nil_iff (A : Type) (f : A -> bool) (l : list A) :
  filter f l = [] <-> forall x, In x l -> f x = false.
Proof.
  induction l as [|x l IH]; simpl.
  - split; [intros _ y [] | reflexivity].
  - destruct (f x) eqn:F.
    + split; [discriminate|]. intros H. rewrite (H x (or_introl eq_refl)) in F.
      discriminate.
    + rewrite IH. split.
      * intros H y [<- | I]; [exact F | apply H, I].
      * intros H y I. apply H. right; exact I.
Qed.

Lemma filter_all (A : Type) (f : A -> bool) (l : list A) :
  (forall x, In x l -> f x = true) -> filter f l = l.
Proof.
  induction l as [|x l IH]; intros H; simpl; [reflexivity|].
  rewrite (H x (or_introl eq_refl)), IH; [reflexivity|].
  intros y I. apply H. right; exact I.
Qed.

(** X9. The report closes with the line that all Endpoints have a UI
    reference, and lists none, exactly when the pattern of every parsed
    Endpoint is found in the text of some file that takes part in the
    scan; the three counts are then the total, the total and zero. *)
Theorem X9_all_used_report
        (w : world) (l0 l1 : list event) (endpoints endpoints' : list Endpoint) :
  parse_endpoints w = (l0, Ok endpoints) ->
  endpoints <> [] ->
  scan_usage endpoints w = (l1, Ok endpoints') ->
  ((forall ep, In ep endpoints ->
      exists rx p t, regex ep = Some rx /\ In (p, t) (participants w) /\
                     Re.search rx t = true) <->
   filter (fun ep => negb (used ep)) endpoints' = []) /\
  (filter (fun ep => negb (used ep)) endpoints' = [] ->
   stdout (fst (main w)) =
   printed [str "Total API endpoints found: " ++ dec (List.length endpoints);
            str "Used by UI artifacts:      " ++ dec (List.length endpoints);
            str "Unused in UI (potential):  " ++ dec 0;
            [];
            str "All parsed endpoints have at least one UI reference."]).
Proof.
  intros P NE S.
  destruct (main_report_stdout w P NE S) as [_ O].
  pose proof (parse_endpoints_fresh _ P) as Fr.
  rewrite Forall_forall in Fr.
  rewrite scan_usage_run in S.
  destruct (existsb (os_error w) (ui_files w)); [discriminate|].
  injection S as _ <-. split.
  - rewrite filter_nil_iff. split.
    + intros H e' I. apply in_map_iff in I. destruct I as [ep [<- I]].
      destruct (Fr ep I) as [U [_ _]].
      destruct (H ep I) as [rx [p [t [R [Ip M]]]]].
      apply negb_false_iff. apply (scan_all_used_iff _ _ U R). eauto.
    + intros H ep I. destruct (Fr ep I) as [U [_ R]].
      destruct (regex ep) as [rx|] eqn:Rx; [|contradiction].
      assert (Us : used (scan_all (participants w) ep) = true).
      { apply negb_false_iff. apply H. apply in_map. exact I. }
      apply (scan_all_used_iff _ _ U Rx) in Us.
      destruct Us as [p [t [Ip M]]]. exists rx, p, t. auto.
  - intros N. rewrite O. unfold report_prints. cbv zeta. rewrite N.
    rewrite filter_all.
    + rewrite length_map. reflexivity.
    + intros x I. rewrite filter_nil_iff in N. apply negb_false_iff. apply N, I.
Qed.

(** ** A declaration is extracted *)

Lemma endpoint_keys (w : world) (l : list event) (endpoints : list Endpoint)
      (content : text) :
  parse_endpoints w = (l, Ok endpoints) ->
  w_read_text w MAIN_FILE = ReadOk content ->
  forall k, In k (map key_of endpoints) <->
            In k (map (match_key content) (Re.finditer ROUTE_RE content)).
Proof.
  intros P R k. apply parse_endpoints_ok in P.
  destruct P as [_ [_ [content' [R' F]]]].
  rewrite R in R'. injection R' as <-. fold compiled in F.
  rewrite (compiled_keys F), <- found_endpoints_keys.
  destruct (dedup_spec (found_endpoints content)) as [_ [K _]]. apply K.
Qed.

(** X10. A declaration in main.go, [api.] and a method of capitals, white
    space or none, the parenthesis, white space or none, and a non-empty
    path in double quotes, is extracted: its method and path are those of
    a returned Endpoint, unless the declaration begins inside an earlier
    match of ROUTE_RE. *)
Theorem X10_declaration_is_extracted
        (w : world) (pre verb ws1 ws2 route post : text) :
  w_exists w MAIN_FILE = true ->
  w_read_text w MAIN_FILE =
    ReadOk (pre ++ declaration verb ws1 ws2 route ++ post) ->
  verb <> [] -> Forall (fun c => is_upper c = true) verb ->
  Forall (fun c => is_space c = true) ws1 ->
  Forall (fun c => is_space c = true) ws2 ->
  route <> [] -> ~ In dquote route ->
  exists endpoints,
    parse_endpoints w = ([EvExists MAIN_FILE; EvRead MAIN_FILE], Ok endpoints) /\
    ((exists ep, In ep endpoints /\ method ep = verb /\ path ep = route) \/
     (exists start e ms,
         In (start, (e, ms))
            (Re.finditer ROUTE_RE (pre ++ declaration verb ws1 ws2 route ++ post)) /\
         start < List.length pre < e)).
Proof.
  intros X R NV FV F1 F2 NR NQ.
  destruct (parse_endpoints_returns w X R) as [endpoints [P _]].
  exists endpoints. split; [exact P|].
  set (content := pre ++ declaration verb ws1 ws2 route ++ post) in *.
  destruct (GreedyFacts.match_declaration post (List.length pre) NV FV F1 F2 NR NQ)
    as [e [m0 [m1 [m2 [m3 [M [E0 [E1 [E2 [E3 _]]]]]]]]]].
  assert (Sk : skipn (List.length pre) content =
               declaration verb ws1 ws2 route ++ post).
  { unfold content. rewrite skipn_app, skipn_all, Nat.sub_diag. reflexivity. }
  rewrite <- Sk in M.
  destruct (FinditerFacts.finditer_ROUTE_RE_complete _ _ M)
    as [I | [start [e' [ms' [I B]]]]].
  - left.
    assert (K : match_key content (List.length pre, (e, [m0; m1; m2; m3])) =
                (verb, route)).
    { unfold match_key, group. cbn [snd nth Nat.mul Nat.add]. f_equal.
      - unfold content, declaration.
        replace (pre ++ (str "api." ++ verb ++ ws1 ++ [lparen] ++ ws2 ++
                         [dquote] ++ route ++ [dquote]) ++ post)
          with ((pre ++ str "api.") ++ verb ++
                (ws1 ++ [lparen] ++ ws2 ++ [dquote] ++ route ++ [dquote] ++ post))
          by (repeat rewrite <- app_assoc; reflexivity).
        apply RouteFacts.slice_middle; rewrite length_app; simpl; lia.
      - unfold content, declaration.
        replace (pre ++ (str "api." ++ verb ++ ws1 ++ [lparen] ++ ws2 ++
                         [dquote] ++ route ++ [dquote]) ++ post)
          with ((pre ++ str "api." ++ verb ++ ws1 ++ [lparen] ++ ws2 ++ [dquote])
                ++ route ++ ([dquote] ++ post))
          by (repeat rewrite <- app_assoc; reflexivity).
        apply RouteFacts.slice_middle; repeat rewrite length_app; simpl; lia. }
    assert (Ik : In (verb, route) (map key_of endpoints)).
    { apply (endpoint_keys _ P R). rewrite <- K. apply in_map. exact I. }
    apply in_map_iff in Ik. destruct Ik as [ep [Ek Iep]].
    exists ep. unfold key_of in Ek. injection Ek as Em Ep. auto.
  - right. exists start, e', ms'. auto.
Qed.

Lemma X10_declaration_is_extracted_witness :
  exists endpoints,
    parse_endpoints world_spaced =
      ([EvExists MAIN_FILE; EvRead MAIN_FILE], Ok endpoints) /\
    ((exists ep, In ep endpoints /\ method ep = str "PUT" /\
                 path ep = str "/items/:id") \/
     (exists start e ms,
         In (start, (e, ms))
            (Re.finditer ROUTE_RE
               ((str "r := gin.Default()" ++ [nl]) ++
                declaration (str "PUT") (str "  ") (str " ") (str "/items/:id") ++
                str ", handler)" ++ [nl])) /\
         start < List.length (str "r := gin.Default()" ++ [nl]) < e)).
Proof.
  apply (@X10_declaration_is_extracted world_spaced
           (str "r := gin.Default()" ++ [nl]) (str "PUT") (str "  ") (str " ")
           (str "/items/:id") (str ", handler)" ++ [nl])).
  - reflexivity.
  - vm_compute. reflexivity.
  - discriminate.
  - repeat constructor.
  - repeat constructor.
  - repeat constructor.
  - discriminate.
  - intros I. vm_compute in I. intuition discriminate.
Defined.

Lemma X9_all_used_report_witness :
  parse_endpoints world_all_used =
    ([EvExists MAIN_FILE; EvRead MAIN_FILE], Ok [ep_servers]) /\
  scan_usage [ep_servers] world_all_used =
    (fst (scan_usage [ep_servers] world_all_used),
     Ok [mark_used ep_servers [str "ui"; str "app.js"]]) /\
  stdout (fst (main world_all_used)) =
  printed [str "Total API endpoints found: 1";
           str "Used by UI artifacts:      1";
           str "Unused in UI (potential):  0";
           [];
           str "All parsed endpoints have at least one UI reference."].
Proof.
  assert (P : parse_endpoints world_all_used =
              ([EvExists MAIN_FILE; EvRead MAIN_FILE], Ok [ep_servers]))
    by (vm_compute; reflexivity).
  assert (S : scan_usage [ep_servers] world_all_used =
              (fst (scan_usage [ep_servers] world_all_used),
               Ok [mark_used ep_servers [str "ui"; str "app.js"]]))
    by (vm_compute; reflexivity).
  assert (NE : [ep_servers] <> []) by discriminate.
  split; [exact P|]. split; [exact S|].
  destruct (X9_all_used_report world_all_used P NE S) as [_ H].
  rewrite H; [vm_compute; reflexivity | reflexivity].
Defined.

(** ** A parameter that PARAM_RE finds *)

Module ParamFacts.
Import Re PatternFacts.

Lemma pat_compiles (t : text) : pat t -> exists r, compiles_to t r.
Proof.
  induction 1 as [|c t P _ [r IH]|d t Sd _ [r IH]|t _ [r IH]|t _ [r IH]].
  - exists []. apply ct_nil.
  - eexists. apply ct_plain; eassumption.
  - eexists. apply ct_esc; eassumption.
  - eexists. apply ct_param; eassumption.
  - eexists. apply ct_wild; eassumption.
Qed.

Lemma rep_total (p : char -> bool) (k : nat -> text -> option mresult) (s : text) :
  (forall pos s', k pos s' <> None) -> forall pos, rep p k pos s <> None.
Proof.
  intros K. induction s as [|c s IH]; intros pos; simpl; [apply K|].
  destruct (p c); [|apply K].
  destruct (rep p k (S pos) s); [discriminate | apply K].
Qed.

Lemma match_PARAM_RE_at (pos : nat) (n : char) (tl : text) :
  atom_match name_set n = true ->
  match_here PARAM_RE [] pos (backslash :: colon :: n :: tl) <> None.
Proof.
  intros A. unfold PARAM_RE. unfold name_set in A.
  cbn [match_here]. unfold atom_match at 1 2. rewrite !N.eqb_refl.
  rewrite A. apply rep_total. intros p s'. discriminate.
Qed.

Lemma sub_from_none (r : regex) (repl : text) (pos : nat) (c : char) (s : text) :
  match_here r [] pos (c :: s) = None ->
  sub_from r repl 0 pos (c :: s) = c :: sub_from r repl 0 (S pos) s.
Proof. intros M. simpl. rewrite M. reflexivity. Qed.

Lemma sub_from_some (r : regex) (repl : text) (pos : nat) (c : char) (s : text)
      (e : nat) (ms : list nat) :
  match_here r [] pos (c :: s) = Some (e, ms) ->
  sub_from r repl 0 pos (c :: s) = repl ++ sub_from r repl (e - pos - 1) (S pos) s.
Proof. intros M. simpl. rewrite M. reflexivity. Qed.

(** What [PARAM_RE.sub] makes of a backslash, a colon and a name behind
    text without backslash: the second of the two backslashes of the
    escaped text, the colon and the name give way to the piece, the first
    backslash stays. *)
Lemma sub_param_here (a rest : text) (n : char) (pos : nat) :
  ~ In backslash a -> atom_match name_set n = true ->
  exists u,
    sub_from PARAM_RE (str "[^/]+") 0 pos
             (escape (a ++ backslash :: colon :: n :: rest)) =
    escape a ++ backslash :: str "[^/]+" ++ u /\ subbed u.
Proof.
  intros Na An.
  rewrite ShapeFacts.escape_app, ShapeFacts.sub_escape_pass by exact Na.
  assert (Pn : plain n) by (apply name_char_plain; exact An).
  assert (En : escape (backslash :: colon :: n :: rest) =
               backslash :: backslash :: colon :: n :: escape rest).
  { simpl. unfold plain in Pn. rewrite Pn. reflexivity. }
  rewrite En. set (q := pos + List.length (escape a)).
  rewrite sub_from_none by (apply match_PARAM_RE_second; reflexivity).
  destruct (match_here PARAM_RE [] (S q)
              (backslash :: colon :: n :: escape rest)) as [[e ms]|] eqn:M.
  - rewrite (@sub_from_some _ (str "[^/]+") _ _ _ _ _ M).
    apply match_PARAM_RE in M.
    destruct M as [run [rest' [Et [NR [F ->]]]]].
    injection Et as Et.
    assert (Er : esc rest').
    { apply (@esc_after_plain run).
      - eapply Forall_impl; [|exact F]. intros c. apply name_char_plain.
      - rewrite <- Et. apply esc_plain; [exact Pn | apply escape_esc]. }
    replace (S q + 2 + List.length run - S q - 1)
      with (List.length (colon :: run)) by (simpl; lia).
    rewrite Et. change (colon :: run ++ rest') with ((colon :: run) ++ rest').
    rewrite sub_from_skip.
    destruct (@sub_esc (str "[^/]+") (List.length rest') rest' (le_n _) Er
                (S (S q) + List.length (colon :: run))) as [u [Eu Hu]].
    exists u. rewrite Eu. split; [reflexivity | apply Hu; reflexivity].
  - exfalso. revert M. apply match_PARAM_RE_at. exact An.
Qed.

End ParamFacts.

(** X4. A route with a backslash, a colon and a name behind a prefix
    without backslash or star, the one form PARAM_RE finds: the pattern
    keeps the first backslash of the escaped text in front of the inserted
    piece, so it asks for a bracket and then for the start of the text, and
    no text matches it; the Endpoint stays unused whatever is scanned. *)
Theorem X4_found_parameter_never_matches
        (ep : Endpoint) (a rest : text) (n : char) :
  path ep = a ++ backslash :: colon :: n :: rest ->
  ~ In backslash a -> ~ In star_c a ->
  Re.atom_match name_set n = true ->
  exists u r,
    build_pattern ep =
      Re.escape (str "/api" ++ a) ++ backslash :: str "[^/]+" ++ u /\
    build_regex ep = Some r /\
    (forall t, Re.search r t = false) /\
    (forall fs e, e = set_regex ep (Some r) -> used e = false ->
                  used (scan_all fs e) = false).
Proof.
  intros P Na1 Na2 An. destruct api_clean as [A1 A2].
  assert (F1 : ~ In backslash (str "/api" ++ a)) by (apply not_in_app; assumption).
  assert (F2 : ~ In star_c (str "/api" ++ a)) by (apply not_in_app; assumption).
  destruct (@ParamFacts.sub_param_here (str "/api" ++ a) rest n 0 F1 An) as [u0 [Es Hs]].
  pose proof (PatternFacts.replace_subbed Hs) as Hp.
  set (u := replace (str "\*") (str "[^\s]*") u0) in *.
  assert (E : build_pattern ep =
              Re.escape (str "/api" ++ a) ++ backslash :: str "[^/]+" ++ u).
  { unfold build_pattern, full_path, Re.sub. rewrite P, app_assoc, Es.
    unfold replace. rewrite ShapeFacts.replace_escape_pass by assumption.
    reflexivity. }
  destruct (ParamFacts.pat_compiles Hp) as [ru Cu].
  set (r := map Re.lit (str "/api" ++ a) ++
            Re.lit lbrack :: Re.NBol :: Re.lit slash ::
            Re.NAtom (Re.ALit rbrack) Re.Plus :: ru).
  assert (B : build_regex ep = Some r).
  { unfold build_regex. rewrite E. apply ShapeFacts.compile_compiles_to.
    apply ShapeFacts.compiles_to_escape. apply ct_param. exact Cu. }
  assert (D : forall t, Re.search r t = false).
  { apply ReFacts.never_search. intros pos s. unfold r.
    rewrite MatchFacts.match_here_lits_then.
    destruct (starts_with (str "/api" ++ a) s); [|reflexivity].
    change (pos + List.length (str "/api" ++ a))
      with (pos + S (List.length (str "api" ++ a))).
    rewrite Nat.add_succ_r.
    apply ReFacts.lit_dead_no_match. apply ReFacts.dead_bol. }
  exists u, r. split; [exact E|]. split; [exact B|]. split; [exact D|].
  intros fs e -> U.
  destruct (used (scan_all fs (set_regex ep (Some r)))) eqn:Us; [exfalso|exact Us].
  apply (@scan_all_used_iff fs _ r U eq_refl) in Us.
  destruct Us as [p [t [_ M]]]. rewrite D in M. discriminate.
Qed.

Lemma X4_found_parameter_never_matches_witness :
  exists u r,
    build_pattern (endpoint_at "POST" "/servers/\:id/restart" 1) =
      Re.escape (str "/api" ++ str "/servers/") ++ backslash :: str "[^/]+" ++ u /\
    build_regex (endpoint_at "POST" "/servers/\:id/restart" 1) = Some r /\
    (forall t, Re.search r t = false) /\
    (forall fs e,
        e = set_regex (endpoint_at "POST" "/servers/\:id/restart" 1) (Some r) ->
        used e = false -> used (scan_all fs e) = false).
Proof.
  apply (@X4_found_parameter_never_matches
           (endpoint_at "POST" "/servers/\:id/restart" 1)
           (str "/servers/") (str "d/restart") 105%N).
  - reflexivity.
  - intros I. vm_compute in I. intuition discriminate.
  - intros I. vm_compute in I. intuition discriminate.
  - reflexivity.
Defined.
